(** * Bricks: bit-packed version, ring buffer, cached buffer and the dynamic
    state machine, embedded from the C++ sources and checked against the
    repository's specification. *)

From Stdlib Require Import ZArith Lia Bool String.
From stdpp Require Import base option list numbers.

Local Open Scope Z_scope.

(** ** Fixed-width unsigned integers

    The sources compute on [uint8_t], [uint16_t], [uint32_t] and [size_t].
    They are embedded as [Z] with the wrap-around written out. *)

Definition u8 (x : Z) : Z := x mod 2 ^ 8.
Definition u16 (x : Z) : Z := x mod 2 ^ 16.
Definition u32 (x : Z) : Z := x mod 2 ^ 32.
Definition u64 (x : Z) : Z := x mod 2 ^ 64.

(** ** Version.h: 6/10/16-bit packed version number *)

Module version.

Definition MajorBits : Z := 6.
Definition MinorBits : Z := 10.
Definition PatchBits : Z := 16.

Definition MajorMask : Z := u32 (u32 (Z.shiftl 1 MajorBits) - 1).
Definition MinorMask : Z := u32 (u32 (Z.shiftl 1 MinorBits) - 1).
Definition PatchMask : Z := u32 (u32 (Z.shiftl 1 PatchBits) - 1).

Definition MajorShift : Z := 26.
Definition MinorShift : Z := 16.
Definition PatchShift : Z := 0.

End version.

Definition GetMajor (v : Z) : Z :=
  u8 (Z.land (Z.shiftr v version.MajorShift) version.MajorMask).

Definition GetMinor (v : Z) : Z :=
  u16 (Z.land (Z.shiftr v version.MinorShift) version.MinorMask).

Definition GetPatch (v : Z) : Z :=
  u16 (Z.land v version.PatchMask).

(** The three [assert]s of [SetVersion]; a failed assertion aborts, which is
    the [None] result. *)
Definition SetVersion (major minor patch : Z) : option Z :=
  if negb (major <=? version.MajorMask) then None
  else if negb (minor <=? version.MinorMask) then None
  else if negb (patch <=? version.PatchMask) then None
  else Some (Z.lor
               (Z.lor (u32 (Z.shiftl (u32 major) version.MajorShift))
                      (u32 (Z.shiftl (u32 minor) version.MinorShift)))
               (Z.land (u32 patch) version.PatchMask)).


(** ** DataStructure/Buffer/CircularBuffer.h: fixed-size ring buffer

    [std::array<T, BuffSize>] is a list of [BuffSize] slots; the three
    [uint32_t] members are [Z] with the 32-bit wrap-around written out. *)

Record CircularBuffer (T : Type) : Type := mkCircularBuffer {
  m_Buffer : list T;
  m_Head : Z;
  m_Tail : Z;
  m_Size : Z
}.

Arguments mkCircularBuffer {T} _ _ _ _.
Arguments m_Buffer {T} _.
Arguments m_Head {T} _.
Arguments m_Tail {T} _.
Arguments m_Size {T} _.

Section CircularBufferOps.

Context {T : Type} `{Inhabited T}.
Variable BuffSize : Z.

Definition Advance (Pos Amount : Z) : Z := u32 (Pos + Amount) mod BuffSize.

(** A default-constructed buffer: indices zero, slots holding whatever the
    element type default-initialises to. *)
Definition EmptyCircularBuffer : CircularBuffer T :=
  mkCircularBuffer (replicate (Z.to_nat BuffSize) inhabitant) 0 0 0.

Definition Queue (Item : T) (b : CircularBuffer T) : bool * CircularBuffer T :=
  if m_Size b =? BuffSize then (false, b)
  else (true,
        mkCircularBuffer (<[Z.to_nat (m_Tail b) := Item]> (m_Buffer b))
                         (m_Head b)
                         (Advance (m_Tail b) 1)
                         (u32 (m_Size b + 1))).

Definition Dequeue (b : CircularBuffer T) : option T * CircularBuffer T :=
  if m_Size b =? 0 then (None, b)
  else (Some (m_Buffer b !!! Z.to_nat (m_Head b)),
        mkCircularBuffer (m_Buffer b)
                         (Advance (m_Head b) 1)
                         (m_Tail b)
                         (u32 (m_Size b - 1))).

Definition Peek (b : CircularBuffer T) : option T :=
  if m_Size b =? 0 then None else Some (m_Buffer b !!! Z.to_nat (m_Head b)).

Definition Empty (b : CircularBuffer T) : bool := m_Size b =? 0.
Definition Size (b : CircularBuffer T) : Z := m_Size b.
Definition MaxCapacity (b : CircularBuffer T) : Z := BuffSize.

(** Abstraction: the pending items, oldest first, read off the ring from
    [m_Head] for [m_Size] slots. *)
Fixpoint contents_from (buf : list T) (pos : Z) (n : nat) : list T :=
  match n with
  | O => []
  | S k => (buf !!! Z.to_nat pos) :: contents_from buf (Advance pos 1) k
  end.

Definition contents (b : CircularBuffer T) : list T :=
  contents_from (m_Buffer b) (m_Head b) (Z.to_nat (m_Size b)).

(** Representation invariant of the ring. *)
Definition cb_wf (b : CircularBuffer T) : Prop :=
  length (m_Buffer b) = Z.to_nat BuffSize /\
  0 <= m_Head b < BuffSize /\
  0 <= m_Size b <= BuffSize /\
  m_Tail b = (m_Head b + m_Size b) mod BuffSize.

End CircularBufferOps.

(** ** DataStructure/StateMachine/StateMachine.h: the dynamic state machine

    A [StateType*] is a [Handle]: [None] is [nullptr], [Some s] points to the
    state object number [s]. *)

Definition Handle : Type := option nat.

Inductive StateMachineStatus : Type := Running | Halt.

(** *** Ownership policies *)

Class IStatePolicy (P : Type) : Type := {
  SetState : Handle -> P -> Handle * P;
  Get : P -> Handle;
  Clear : P -> P;
  EmptyPolicy : P
}.

Record NonOwningPolicy : Type := mkNonOwning { raw_Storage : Handle }.

#[export] Instance NonOwning_IStatePolicy : IStatePolicy NonOwningPolicy := {|
  SetState NewState _ :=
    let p := mkNonOwning NewState in (raw_Storage p, p);
  Get p := raw_Storage p;
  Clear _ := mkNonOwning None;
  EmptyPolicy := mkNonOwning None
|}.

(** [std::unique_ptr]: replacing or resetting the slot deletes the object it
    held; [deleted] records those deletions in order.  (A virtual call
    through a pointer to a deleted object is undefined in C++.  The
    operations of this section are written once for every policy and do not
    look at [deleted]; [OwningMachine] below is the machine over this
    policy with the object lifetimes checked.) *)
Record OwningPolicy : Type := mkOwning {
  Storage : Handle;
  deleted : list nat
}.

Definition unique_ptr_reset (NewState : Handle) (p : OwningPolicy) : OwningPolicy :=
  match Storage p with
  | Some old => mkOwning NewState (deleted p ++ [old])
  | None => mkOwning NewState (deleted p)
  end.

#[export] Instance Owning_IStatePolicy : IStatePolicy OwningPolicy := {|
  SetState NewState p :=
    let p' := unique_ptr_reset NewState p in (Storage p', p');
  Get p := Storage p;
  Clear p := unique_ptr_reset None p;
  EmptyPolicy := mkOwning None []
|}.

(** What the machine relies on from a policy. *)
Class StatePolicyLaws (P : Type) `{IStatePolicy P} : Prop := {
  SetState_returns : forall h p, (SetState h p).1 = h;
  Get_SetState : forall h p, Get (SetState h p).2 = h;
  Get_Clear : forall p, Get (Clear p) = None;
  Get_EmptyPolicy : Get EmptyPolicy = None
}.

(** *** States and their callbacks

    [IDynamicState] is an interface: what [OnEnter], [OnExit] and [Update] do
    is up to the implementing class, and a callback may call back into the
    machine that is running it.  A callback is a [Script]: steps on the state
    objects' own data (of type [U]) and calls of the machine's public
    operations, each continuing with the value the call returned. *)

Section StateMachine.

Context {Input ReturnType U : Type}.

Inductive Script (R : Type) : Type :=
| Ret (r : R)
| Member (f : U -> U) (k : U -> Script R)
| CallRun (In : Input) (k : option ReturnType -> Script R)
| CallEnterState (pState : Handle) (k : Handle -> Script R)
| CallEnterStateImmediate (pState : Handle) (k : Handle -> Script R)
| CallGetFSM_State (k : StateMachineStatus -> Script R).

Arguments Ret {R} _.
Arguments Member {R} _ _.
Arguments CallRun {R} _ _.
Arguments CallEnterState {R} _ _.
Arguments CallEnterStateImmediate {R} _ _.
Arguments CallGetFSM_State {R} _.

Record IDynamicState : Type := mkState {
  OnEnter : Script unit;
  OnExit : Script unit;
  Update : Input -> Script (ReturnType * Handle)
}.

(** A script that never calls the machine: its result on the objects' data. *)
Fixpoint run_member {R} (s : Script R) (u : U) : option (R * U) :=
  match s with
  | Ret r => Some (r, u)
  | Member f k => run_member (k (f u)) (f u)
  | _ => None
  end.

(** *** The machine and its observation log *)

Inductive Callback : Type :=
| CbOnEnter (s : nat)
| CbOnExit (s : nat)
| CbUpdate (s : nat) (In : Input).

(** A virtual call made by the machine, with the value [m_InProgress] had at
    the moment of the call. *)
Record Event : Type := mkEvent {
  ev_call : Callback;
  ev_InProgress : bool
}.

Definition is_update (e : Event) : bool :=
  match ev_call e with CbUpdate _ _ => true | _ => false end.
Definition is_enter (e : Event) : bool :=
  match ev_call e with CbOnEnter _ => true | _ => false end.
Definition is_exit (e : Event) : bool :=
  match ev_call e with CbOnExit _ => true | _ => false end.
Definition is_enter_of (s : nat) (e : Event) : bool :=
  match ev_call e with CbOnEnter s' => Nat.eqb s s' | _ => false end.
Definition is_exit_of (s : nat) (e : Event) : bool :=
  match ev_call e with CbOnExit s' => Nat.eqb s s' | _ => false end.
Definition is_lifecycle (e : Event) : bool := is_enter e || is_exit e.

Definition DeferredCapacity : Z := 10.

Context {P : Type} `{IStatePolicy P}.

Record DynamicStateMachine : Type := mkFSM {
  m_InProgress : bool;
  m_StatePolicy : P;
  m_DeferredState : CircularBuffer Handle
}.

(** The machine, the data of the state objects, and three logs that exist
    only for the statements below: the virtual calls made, the handles
    stored by [Queue], the handles taken out by [Dequeue]. *)
Record World : Type := mkWorld {
  fsm : DynamicStateMachine;
  heap : U;
  calls : list Event;
  queued : list Handle;
  dequeued : list Handle
}.

Definition MachineInit : DynamicStateMachine :=
  mkFSM false EmptyPolicy (EmptyCircularBuffer DeferredCapacity).

Definition WorldInit (u : U) : World := mkWorld MachineInit u [] [] [].

Definition GetFSM_State (m : DynamicStateMachine) : StateMachineStatus :=
  match Get (m_StatePolicy m) with
  | None => Halt
  | Some _ => Running
  end.

Definition pending (w : World) : list Handle :=
  contents DeferredCapacity (m_DeferredState (fsm w)).

(** *** State-and-failure monad; [None] is a call nesting deeper than the
    evaluation allows. *)

Definition M (A : Type) : Type := World -> option (A * World).

Definition ret {A} (a : A) : M A := fun w => Some (a, w).

Definition bind {A B} (m : M A) (k : A -> M B) : M B :=
  fun w => match m w with
           | Some (a, w') => k a w'
           | None => None
           end.

Notation "'let*' x ':=' m 'in' k" := (bind m (fun x => k))
  (at level 10, x name, m at level 100, k at level 200).
Notation "m ';;' k" := (bind m (fun _ => k))
  (at level 100, k at level 200, right associativity).

Definition SetFlag (b : bool) : M unit :=
  fun w => Some (tt, mkWorld (mkFSM b (m_StatePolicy (fsm w)) (m_DeferredState (fsm w)))
                             (heap w) (calls w) (queued w) (dequeued w)).

Definition GetFlag : M bool := fun w => Some (m_InProgress (fsm w), w).

Definition PolicyGet : M Handle := fun w => Some (Get (m_StatePolicy (fsm w)), w).

Definition PolicySetState (NewState : Handle) : M Handle :=
  fun w => let r := SetState NewState (m_StatePolicy (fsm w)) in
           Some (r.1, mkWorld (mkFSM (m_InProgress (fsm w)) r.2 (m_DeferredState (fsm w)))
                              (heap w) (calls w) (queued w) (dequeued w)).

Definition DeferredQueue (pState : Handle) : M bool :=
  fun w => let r := Queue DeferredCapacity pState (m_DeferredState (fsm w)) in
           Some (r.1, mkWorld (mkFSM (m_InProgress (fsm w)) (m_StatePolicy (fsm w)) r.2)
                              (heap w) (calls w)
                              (if r.1 then queued w ++ [pState] else queued w)
                              (dequeued w)).

Definition DeferredDequeue : M (option Handle) :=
  fun w => let r := Dequeue DeferredCapacity (m_DeferredState (fsm w)) in
           Some (r.1, mkWorld (mkFSM (m_InProgress (fsm w)) (m_StatePolicy (fsm w)) r.2)
                              (heap w) (calls w) (queued w)
                              (match r.1 with
                               | Some h => dequeued w ++ [h]
                               | None => dequeued w
                               end)).

Definition Invoke (c : Callback) : M unit :=
  fun w => Some (tt, mkWorld (fsm w) (heap w)
                             (calls w ++ [mkEvent c (m_InProgress (fsm w))])
                             (queued w) (dequeued w)).

Definition SetHeap (u : U) : M unit :=
  fun w => Some (tt, mkWorld (fsm w) u (calls w) (queued w) (dequeued w)).

(** The public operations a callback can reach. *)
Record Api : Type := mkApi {
  api_Run : Input -> M (option ReturnType);
  api_EnterState : Handle -> M Handle;
  api_EnterStateImmediate : Handle -> M Handle
}.

Fixpoint exec (api : Api) {R} (s : Script R) : M R :=
  match s with
  | Ret r => ret r
  | Member f k => fun w => let u := f (heap w) in (SetHeap u ;; exec api (k u)) w
  | CallRun In k => let* r := api_Run api In in exec api (k r)
  | CallEnterState pState k => let* r := api_EnterState api pState in exec api (k r)
  | CallEnterStateImmediate pState k =>
      let* r := api_EnterStateImmediate api pState in exec api (k r)
  | CallGetFSM_State k => fun w => exec api (k (GetFSM_State (fsm w))) w
  end.

Variable states : nat -> IDynamicState.

(** [InProgressGuard]: the constructor stores [true], the destructor stores
    [false]. *)
Definition InProgressGuard {A} (body : M A) : M A :=
  SetFlag true ;;
  let* r := body in
  SetFlag false ;;
  ret r.

Definition StateTransitionDeferred (pState : Handle) : M Handle :=
  DeferredQueue pState ;;
  PolicyGet.

Definition StateTransition (api : Api) (pState : Handle) : M Handle :=
  let* pS := PolicySetState pState in
  match pS with
  | Some s => Invoke (CbOnEnter s) ;; exec api (OnEnter (states s)) ;; ret pS
  | None => ret pS
  end.

(** [Run], the block under [if (pNewState != pS)]. *)
Definition Run_exit (api : Api) (s : nat) (pNewState : Handle) : M unit :=
  if decide (pNewState = Some s) then ret tt
  else Invoke (CbOnExit s) ;;
       exec api (OnExit (states s)) ;;
       StateTransitionDeferred pNewState ;;
       ret tt.

(** [Run], the block that takes one request out of the queue. *)
Definition Run_drain (api : Api) : M unit :=
  let* NextQueuedState := DeferredDequeue in
  match NextQueuedState with
  | Some h => StateTransition api h ;; ret tt
  | None => ret tt
  end.

Definition Run_with (api : Api) (In : Input) : M (option ReturnType) :=
  InProgressGuard
    (let* pS := PolicyGet in
     match pS with
     | None => ret None
     | Some s =>
         Invoke (CbUpdate s In) ;;
         let* r := exec api (Update (states s) In) in
         let ReturnVal := r.1 in
         let pNewState := r.2 in
         Run_exit api s pNewState ;;
         Run_drain api ;;
         ret (Some ReturnVal)
     end).

Definition EnterState_with (api : Api) (pState : Handle) : M Handle :=
  let* InProgress := GetFlag in
  if InProgress then StateTransitionDeferred pState
  else InProgressGuard (StateTransition api pState).

Definition EnterStateImmediate_with (api : Api) (pState : Handle) : M Handle :=
  InProgressGuard (StateTransition api pState).

(** Calls nested in callbacks are followed [depth] levels deep. *)
Fixpoint api_at (depth : nat) : Api :=
  match depth with
  | O => mkApi (fun _ _ => None) (fun _ _ => None) (fun _ _ => None)
  | S d => mkApi (Run_with (api_at d))
                 (EnterState_with (api_at d))
                 (EnterStateImmediate_with (api_at d))
  end.

Definition Run (depth : nat) (In : Input) : M (option ReturnType) :=
  Run_with (api_at depth) In.

Definition EnterState (depth : nat) (pState : Handle) : M Handle :=
  EnterState_with (api_at depth) pState.

Definition EnterStateImmediate (depth : nat) (pState : Handle) : M Handle :=
  EnterStateImmediate_with (api_at depth) pState.

End StateMachine.

Arguments Ret {Input ReturnType U R} _.
Arguments Member {Input ReturnType U R} _ _.
Arguments CallRun {Input ReturnType U R} _ _.
Arguments CallEnterState {Input ReturnType U R} _ _.
Arguments CallEnterStateImmediate {Input ReturnType U R} _ _.
Arguments CallGetFSM_State {Input ReturnType U R} _.

(** ** DataStructure/Buffer/CachedBuffer.h: accumulate-and-flush byte cache

    The header exists in two revisions that differ in [EmptyBufferCache];
    they are embedded side by side as [CachedBufferA] (all-or-nothing flush)
    and [CachedBufferB] (partial flush with a shift; it also has
    [RegisterCallback]).

    [std::array<std::byte, BufferSize>] is a list of bytes, [size_t] is a
    64-bit [Z].  The callback receives a span and the [void*] argument; the
    object behind that pointer is a value of type [Args] that the callback
    may change.  [std::memcpy] is undefined outside the destination, outside
    the source and on overlapping regions; the embedding returns [None]
    there. *)

Definition memcpy (dst : list Byte.byte) (to : Z) (src : list Byte.byte) :
    option (list Byte.byte) :=
  if (0 <=? to) && (to + Z.of_nat (length src) <=? Z.of_nat (length dst))
  then Some (take (Z.to_nat to) dst ++ src ++
             drop (Z.to_nat to + length src) dst)
  else None.

(** [memcpy(buf, buf + from, n)]: move [n] bytes of a buffer to its front. *)
Definition memcpy_front (buf : list Byte.byte) (from n : Z) :
    option (list Byte.byte) :=
  if (from + n <=? Z.of_nat (length buf)) && ((n <=? from) || (n =? 0))
  then memcpy buf 0 (take (Z.to_nat n) (drop (Z.to_nat from) buf))
  else None.

Module CachedBufferA.
Section Ops.

Context {Args : Type}.
Variable BufferSize : Z.

Definition StoreCallback : Type := list Byte.byte -> Args -> Z * Args.

Record CachedBuffer : Type := mkCachedBuffer {
  m_Buffer : list Byte.byte;
  m_BufferOffset : Z;
  m_Callback : StoreCallback
}.

Definition Create (Callback : StoreCallback) : CachedBuffer :=
  mkCachedBuffer (replicate (Z.to_nat BufferSize) Byte.x00) 0 Callback.

Definition Size (b : CachedBuffer) : Z := m_BufferOffset b.

Definition EmptyBufferCache (b : CachedBuffer) (a : Args) :
    bool * CachedBuffer * Args :=
  if m_BufferOffset b =? 0 then (true, b, a)
  else
    let WriteSize := m_BufferOffset b in
    let r := m_Callback b (take (Z.to_nat WriteSize) (m_Buffer b)) a in
    let BytesWritten := u32 r.1 in
    let b' := if BytesWritten =? WriteSize
              then mkCachedBuffer (m_Buffer b) 0 (m_Callback b)
              else b in
    (m_BufferOffset b' =? 0, b', r.2).

Definition Append (Data : list Byte.byte) (b : CachedBuffer) (a : Args) :
    option (bool * CachedBuffer * Args) :=
  match memcpy (m_Buffer b) (m_BufferOffset b) Data with
  | Some buf =>
      Some (true,
            mkCachedBuffer buf (u64 (m_BufferOffset b + Z.of_nat (length Data)))
                           (m_Callback b),
            a)
  | None => None
  end.

Definition Store (Data : list Byte.byte) (b : CachedBuffer) (a : Args) :
    option (bool * CachedBuffer * Args) :=
  let size_bytes := Z.of_nat (length Data) in
  if size_bytes >? BufferSize then
    match EmptyBufferCache b a with
    | (false, b1, a1) => Some (false, b1, a1)
    | (true, b1, a1) =>
        let r := m_Callback b1 Data a1 in
        Some (u32 r.1 =? size_bytes, b1, r.2)
    end
  else
    let BufferSpace := u64 (BufferSize - m_BufferOffset b) in
    if size_bytes >? BufferSpace then
      match EmptyBufferCache b a with
      | (false, b1, a1) => Some (false, b1, a1)
      | (true, b1, a1) => Append Data b1 a1
      end
    else Append Data b a.

Definition Flush (b : CachedBuffer) (a : Args) : CachedBuffer * Args :=
  let r := EmptyBufferCache b a in (r.1.2, r.2).

(** The bytes accepted and not yet handed to the callback. *)
Definition cached (b : CachedBuffer) : list Byte.byte :=
  take (Z.to_nat (m_BufferOffset b)) (m_Buffer b).

Definition wf (b : CachedBuffer) : Prop :=
  Z.of_nat (length (m_Buffer b)) = BufferSize /\
  0 <= m_BufferOffset b <= BufferSize /\
  BufferSize < 2 ^ 32.

End Ops.
End CachedBufferA.

Module CachedBufferB.
Section Ops.

Context {Args : Type}.
Variable BufferSize : Z.

Definition StoreCallback : Type := list Byte.byte -> Args -> Z * Args.

Record CachedBuffer : Type := mkCachedBuffer {
  m_Buffer : list Byte.byte;
  m_BufferOffset : Z;
  m_Callback : StoreCallback
}.

(** The default callback writes nothing. *)
Definition DefaultCallback : StoreCallback := fun _ a => (0, a).

Definition Create (Callback : StoreCallback) : CachedBuffer :=
  mkCachedBuffer (replicate (Z.to_nat BufferSize) Byte.x00) 0 Callback.

Definition CreateDefault : CachedBuffer := Create DefaultCallback.

Definition RegisterCallback (Callback : StoreCallback) (b : CachedBuffer) :
    CachedBuffer :=
  mkCachedBuffer (m_Buffer b) (m_BufferOffset b) Callback.

Definition Size (b : CachedBuffer) : Z := m_BufferOffset b.

Definition EmptyBufferCache (b : CachedBuffer) (a : Args) :
    option (bool * CachedBuffer * Args) :=
  if m_BufferOffset b =? 0 then Some (true, b, a)
  else
    let r := m_Callback b (take (Z.to_nat (m_BufferOffset b)) (m_Buffer b)) a in
    let BytesWritten := u32 r.1 in
    if BytesWritten =? 0 then Some (false, b, r.2)
    else
      let BytesLeft := u64 (m_BufferOffset b - BytesWritten) in
      match memcpy_front (m_Buffer b) BytesWritten BytesLeft with
      | Some buf => Some (true, mkCachedBuffer buf BytesLeft (m_Callback b), r.2)
      | None => None
      end.

Definition Append (Data : list Byte.byte) (b : CachedBuffer) (a : Args) :
    option (bool * CachedBuffer * Args) :=
  match memcpy (m_Buffer b) (m_BufferOffset b) Data with
  | Some buf =>
      Some (true,
            mkCachedBuffer buf (u64 (m_BufferOffset b + Z.of_nat (length Data)))
                           (m_Callback b),
            a)
  | None => None
  end.

Definition Store (Data : list Byte.byte) (b : CachedBuffer) (a : Args) :
    option (bool * CachedBuffer * Args) :=
  let size_bytes := Z.of_nat (length Data) in
  if size_bytes >? BufferSize then
    match EmptyBufferCache b a with
    | None => None
    | Some (false, b1, a1) => Some (false, b1, a1)
    | Some (true, b1, a1) =>
        let r := m_Callback b1 Data a1 in
        Some (u32 r.1 =? size_bytes, b1, r.2)
    end
  else
    let BufferSpace := u64 (BufferSize - m_BufferOffset b) in
    if size_bytes >? BufferSpace then
      match EmptyBufferCache b a with
      | None => None
      | Some (false, b1, a1) => Some (false, b1, a1)
      | Some (true, b1, a1) => Append Data b1 a1
      end
    else Append Data b a.

Definition Flush (b : CachedBuffer) (a : Args) : option (CachedBuffer * Args) :=
  match EmptyBufferCache b a with
  | Some r => Some (r.1.2, r.2)
  | None => None
  end.

Definition cached (b : CachedBuffer) : list Byte.byte :=
  take (Z.to_nat (m_BufferOffset b)) (m_Buffer b).

Definition wf (b : CachedBuffer) : Prop :=
  Z.of_nat (length (m_Buffer b)) = BufferSize /\
  0 <= m_BufferOffset b <= BufferSize /\
  BufferSize < 2 ^ 32.

End Ops.
End CachedBufferB.

(** ** Vocabulary of the statements about the machine *)

Section StateMachineProps.

Context {Input ReturnType U P : Type} `{IStatePolicy P}.
Variable states : nat -> @IDynamicState Input ReturnType U.

Fixpoint count_calls (p : @Event Input -> bool) (l : list (@Event Input)) : nat :=
  match l with
  | [] => O
  | e :: l' => ((if p e then 1 else 0) + count_calls p l')%nat
  end.

(** The handle [Get] returns. *)
Definition active (w : @World Input U P) : Handle := Get (m_StatePolicy (fsm w)).

Definition deferred_wf (w : @World Input U P) : Prop :=
  cb_wf DeferredCapacity (m_DeferredState (fsm w)).

(** Handles leave the deferred queue in the order they entered it: those
    taken out so far, followed by those still pending, are the handles
    stored so far. *)
Definition fifo_inv (w : @World Input U P) : Prop :=
  queued w = dequeued w ++ pending w.

(** [Update] calls made minus requests taken out of the queue. *)
Definition slack (w : @World Input U P) : Z :=
  Z.of_nat (count_calls is_update (calls w)) - Z.of_nat (length (dequeued w)).

(** No callback of any state calls [Run] (in scripts, whatever the calls
    before it return). *)
Fixpoint no_CallRun {R} (s : @Script Input ReturnType U R) : Prop :=
  match s with
  | Ret _ => True
  | Member _ k => forall u, no_CallRun (k u)
  | CallRun _ _ => False
  | CallEnterState _ k => forall h, no_CallRun (k h)
  | CallEnterStateImmediate _ k => forall h, no_CallRun (k h)
  | CallGetFSM_State k => forall st, no_CallRun (k st)
  end.

Definition states_no_CallRun : Prop :=
  forall s, no_CallRun (OnEnter (states s)) /\ no_CallRun (OnExit (states s)) /\
            forall In, no_CallRun (Update (states s) In).

(** The callback run on entering [h]; nothing for [nullptr]. *)
Definition enter_script (h : Handle) : @Script Input ReturnType U unit :=
  match h with
  | Some t => OnEnter (states t)
  | None => Ret tt
  end.

Definition enter_calls (h : Handle) : list (@Callback Input) :=
  match h with
  | Some t => [CbOnEnter t]
  | None => []
  end.

(** What [Run] does to the state it leaves when [Update] asked for [next]:
    nothing if [next] is the state itself, else its [OnExit]. *)
Definition exit_script (s : nat) (next : Handle) : @Script Input ReturnType U unit :=
  if decide (next = Some s) then Ret tt else OnExit (states s).

Definition exit_calls (s : nat) (next : Handle) : list (@Callback Input) :=
  if decide (next = Some s) then [] else [CbOnExit s].

(** The request [Run] manages to store for [next]: none if [next] is the
    state itself or the queue is full. *)
Definition pushed (w : @World Input U P) (s : nat) (next : Handle) : list Handle :=
  if decide (next = Some s) then []
  else if Z.of_nat (length (pending w)) =? DeferredCapacity then []
  else [next].

(** The request stored by a deferred [EnterState]. *)
Definition stored (w : @World Input U P) (h : Handle) : list Handle :=
  if Z.of_nat (length (pending w)) =? DeferredCapacity then [] else [h].

(** Virtual calls made while [m_InProgress] is set. *)
Definition in_progress (cs : list (@Callback Input)) : list (@Event Input) :=
  map (fun c => mkEvent c true) cs.

(** The calls made between two points of an execution, and those among
    them that are [OnEnter] or [OnExit]. *)
Definition calls_since (w w' : @World Input U P) : list (@Event Input) :=
  drop (length (calls w)) (calls w').

Fixpoint lifecycle_calls (l : list (@Event Input)) : list (@Callback Input) :=
  match l with
  | [] => []
  | e :: l' => if is_lifecycle e then ev_call e :: lifecycle_calls l'
               else lifecycle_calls l'
  end.

(** The world as [Update] of state [s] finds it when [Run] calls it: the
    guard has set the flag and the call is logged. *)
Definition update_called (s : nat) (In : Input) (w : @World Input U P) :
    @World Input U P :=
  mkWorld (mkFSM true (m_StatePolicy (fsm w)) (m_DeferredState (fsm w)))
          (heap w) (calls w ++ [mkEvent (CbUpdate s In) true])
          (queued w) (dequeued w).

(** The world as [OnExit] of state [s] finds it. *)
Definition exit_called (s : nat) (w : @World Input U P) : @World Input U P :=
  mkWorld (fsm w) (heap w)
          (calls w ++ [mkEvent (CbOnExit s) (m_InProgress (fsm w))])
          (queued w) (dequeued w).

(** The world with [m_InProgress] cleared and nothing else changed. *)
Definition clear_flag (w : @World Input U P) : @World Input U P :=
  mkWorld (mkFSM false (m_StatePolicy (fsm w)) (m_DeferredState (fsm w)))
          (heap w) (calls w) (queued w) (dequeued w).

(** [Run] once per input, in order. *)
Fixpoint RunAll (depth : nat) (ins : list Input) (w : @World Input U P) :
    option (list (option ReturnType) * @World Input U P) :=
  match ins with
  | [] => Some ([], w)
  | In :: rest =>
      match Run states depth In w with
      | Some (r, w1) =>
          match RunAll depth rest w1 with
          | Some (rs, w2) => Some (r :: rs, w2)
          | None => None
          end
      | None => None
      end
  end.

End StateMachineProps.

Section StateMachineRelations.

Context {Input ReturnType U P : Type} `{IStatePolicy P}.

(** How a world may change between two points of an execution: the ring
    stays well formed, the queue discipline is kept, and [slack] changes by
    at least [d]. *)
Definition evolves (d : Z) (w w' : @World Input U P) : Prop :=
  (deferred_wf w -> deferred_wf w') /\
  (deferred_wf w -> fifo_inv w -> fifo_inv w') /\
  slack w + d <= slack w'.

Definition respects (d : Z) {A} (m : @M Input U P A) : Prop :=
  forall w a w', m w = Some (a, w') -> evolves d w w'.

Definition api_respects (api : @Api Input ReturnType U P) : Prop :=
  (forall In, respects 0 (api_Run api In)) /\
  (forall h, respects 0 (api_EnterState api h)) /\
  (forall h, respects 0 (api_EnterStateImmediate api h)).

(** Both logs only grow, by at most [nu] [Update] calls and [nd] requests
    taken out of the queue. *)
Definition grows (nu nd : nat) (w w' : @World Input U P) : Prop :=
  (exists cs, calls w' = calls w ++ cs /\ (count_calls is_update cs <= nu)%nat) /\
  (exists ds, dequeued w' = dequeued w ++ ds /\ (length ds <= nd)%nat).

(** A computation that runs no [Update] and takes nothing out of the queue. *)
Definition quiet {A} (m : @M Input U P A) : Prop :=
  forall w a w', m w = Some (a, w') -> grows 0 0 w w'.

Definition api_quiet (api : @Api Input ReturnType U P) : Prop :=
  (forall h, quiet (api_EnterState api h)) /\
  (forall h, quiet (api_EnterStateImmediate api h)).

End StateMachineRelations.

(** ** A concrete machine, after Test/DataStructure/TestStateMachine.cpp

    Inputs are integers, outputs are strings, the state objects keep no data
    of their own.  State 0 plays the test's [stateA]; its [Update] also has
    inputs that call back into the machine.  State 4 asks for state 2 from
    its [OnEnter]. *)

Module Demo.

Definition DemoScript : Type -> Type := @Script Z string unit.

Fixpoint repeat_EnterState {R} (n : nat) (h : Handle) (k : DemoScript R) :
    DemoScript R :=
  match n with
  | O => k
  | S n' => CallEnterState h (fun _ => repeat_EnterState n' h k)
  end.

Definition UpdateA (In : Z) : DemoScript (string * Handle) :=
  if In =? 5 then Ret ("Stay A"%string, Some 0%nat)
  else if In =? 20 then Ret ("To B"%string, Some 1%nat)
  else if In =? 7 then
    CallEnterStateImmediate (Some 1%nat)
      (fun _ => Ret ("Nested"%string, Some 2%nat))
  else if In =? 8 then
    CallEnterState (Some 1%nat)
      (fun _ => CallEnterState (Some 2%nat)
         (fun _ => Ret ("Three"%string, Some 3%nat)))
  else if In =? 9 then
    CallEnterState (Some 4%nat)
      (fun _ => repeat_EnterState 9 (Some 1%nat) (Ret ("Fill"%string, Some 0%nat)))
  else if In =? 11 then
    CallEnterState None
      (fun _ => CallEnterState (Some 1%nat)
         (fun _ => Ret ("Halt"%string, Some 0%nat)))
  else if In =? 12 then
    CallEnterStateImmediate (Some 1%nat)
      (fun _ => CallEnterState (Some 2%nat)
         (fun r => CallEnterState (Some 3%nat)
            (fun _ => Ret ("Late"%string, Some 3%nat))))
  else Ret ("Terminate"%string, None).

Definition UpdateOther (self : nat) (In : Z) : DemoScript (string * Handle) :=
  if In =? 0 then Ret ("Terminate"%string, None)
  else Ret ("Stay"%string, Some self).

Definition states (s : nat) : @IDynamicState Z string unit :=
  match s with
  | 0%nat => mkState (Ret tt) (Ret tt) UpdateA
  | 4%nat => mkState (CallEnterState (Some 2%nat) (fun _ => Ret tt)) (Ret tt)
                     (UpdateOther 4)
  | _ => mkState (Ret tt) (Ret tt) (UpdateOther s)
  end.

Definition world_of {P A} `{IStatePolicy P}
    (r : option (A * @World Z unit P)) : @World Z unit P :=
  match r with
  | Some (_, w) => w
  | None => WorldInit tt
  end.

(** A fresh machine with the default (owning) policy, then
    [EnterState(stateA)]. *)
Definition w_fresh : @World Z unit OwningPolicy := WorldInit tt.
Definition w_A : @World Z unit OwningPolicy :=
  world_of (EnterState states 0 (Some 0%nat) w_fresh).

(** The same with the non-owning policy. *)
Definition v_fresh : @World Z unit NonOwningPolicy := WorldInit tt.
Definition v_A : @World Z unit NonOwningPolicy :=
  world_of (EnterState states 0 (Some 0%nat) v_fresh).

(** After [Run(9)]: state 4 is active and the queue is full. *)
Definition v_full : @World Z unit NonOwningPolicy :=
  world_of (Run states 1 9 v_A).

(** After [Run(11)]: the machine is halted with a request pending. *)
Definition v_halted : @World Z unit NonOwningPolicy :=
  world_of (Run states 1 11 v_A).

(** The worlds inside [Run(0)] on [v_full]: as [Update] leaves it, as
    [OnExit] leaves it, after the push, after the drain. *)
Definition v_full_update : @World Z unit NonOwningPolicy :=
  world_of (exec (api_at states 1) (Update (states 4) 0) (update_called 4 0 v_full)).
Definition v_full_exit : @World Z unit NonOwningPolicy :=
  world_of (exec (api_at states 1) (OnExit (states 4)) (exit_called 4 v_full_update)).
Definition v_full_push : @World Z unit NonOwningPolicy :=
  world_of (StateTransitionDeferred None v_full_exit).
Definition v_full_drain : @World Z unit NonOwningPolicy :=
  world_of (Run_drain states (api_at states 1) v_full_push).

(** The worlds inside [Run(11)] on [v_A], whose [Update] calls
    [EnterState(nullptr)] and [EnterState(1)] and stays. *)
Definition v_A_update : @World Z unit NonOwningPolicy :=
  world_of (exec (api_at states 1) (Update (states 0) 11) (update_called 0 11 v_A)).
Definition v_A_exit : @World Z unit NonOwningPolicy :=
  world_of (Run_exit states (api_at states 1) 0 (Some 0%nat) v_A_update).

End Demo.

(** ** A concrete cache, after Test/DataStructure/TestCachedBuffer.cpp

    Eight bytes of capacity; the callback's argument is the list of spans it
    was given.  [take_three] writes three bytes of whatever it gets,
    [refuse] writes nothing. *)

Module DemoCache.

Definition Sink : Type := list (list Byte.byte).

Definition take_three (Data : list Byte.byte) (a : Sink) : Z * Sink :=
  (3, a ++ [Data]).

Definition refuse (Data : list Byte.byte) (a : Sink) : Z * Sink :=
  (0, a ++ [Data]).

Definition five : list Byte.byte :=
  [Byte.x01; Byte.x02; Byte.x03; Byte.x04; Byte.x05].

Definition four : list Byte.byte :=
  [Byte.x0a; Byte.x0b; Byte.x0c; Byte.x0d].

(** Five bytes cached, in each revision. *)
Definition cacheA (cb : list Byte.byte -> Sink -> Z * Sink) :
    @CachedBufferA.CachedBuffer Sink :=
  match CachedBufferA.Store 8 five (CachedBufferA.Create 8 cb) [] with
  | Some (_, b, _) => b
  | None => CachedBufferA.Create 8 cb
  end.

Definition cacheB (cb : list Byte.byte -> Sink -> Z * Sink) :
    @CachedBufferB.CachedBuffer Sink :=
  match CachedBufferB.Store 8 five (CachedBufferB.Create 8 cb) [] with
  | Some (_, b, _) => b
  | None => CachedBufferB.Create 8 cb
  end.

End DemoCache.

(** ** More of the ring buffer

    [operator==] compares the arrays only.  The move
    constructor leaves the indices of its source at zero; for the element
    types used here (integers, raw pointers) a moved-from array keeps its
    values. *)

Section CircularBufferMore.

Context {T : Type} `{Inhabited T} `{EqDecision T}.
Variable BuffSize : Z.

Definition CircularBuffer_eq (a b : CircularBuffer T) : bool :=
  bool_decide (m_Buffer a = m_Buffer b).

Definition CopyConstruct (Other : CircularBuffer T) : CircularBuffer T :=
  mkCircularBuffer (m_Buffer Other) (m_Head Other) (m_Tail Other) (m_Size Other).

(** The new buffer and what is left of [Other]. *)
Definition MoveConstruct (Other : CircularBuffer T) :
    CircularBuffer T * CircularBuffer T :=
  (mkCircularBuffer (m_Buffer Other) (m_Head Other) (m_Tail Other) (m_Size Other),
   mkCircularBuffer (m_Buffer Other) 0 0 0).

(** A run of calls on one buffer, and the results the caller sees. *)
Inductive QueueOp : Type :=
| OpQueue (Item : T)
| OpDequeue
| OpSize.

Inductive QueueRes : Type :=
| ResQueue (ok : bool)
| ResDequeue (item : option T)
| ResSize (n : Z).

Definition ring_step (op : QueueOp) (b : CircularBuffer T) :
    QueueRes * CircularBuffer T :=
  match op with
  | OpQueue Item => let r := Queue BuffSize Item b in (ResQueue r.1, r.2)
  | OpDequeue => let r := Dequeue BuffSize b in (ResDequeue r.1, r.2)
  | OpSize => (ResSize (Size b), b)
  end.

Fixpoint ring_run (ops : list QueueOp) (b : CircularBuffer T) :
    list QueueRes * CircularBuffer T :=
  match ops with
  | [] => ([], b)
  | op :: rest =>
      let r := ring_step op b in
      let rr := ring_run rest r.2 in
      (r.1 :: rr.1, rr.2)
  end.

(** The reference the ring is compared with: a list, oldest item first,
    that refuses an item when it holds [BuffSize] of them. *)
Definition queue_step (op : QueueOp) (l : list T) : QueueRes * list T :=
  match op with
  | OpQueue Item =>
      if Z.of_nat (length l) =? BuffSize then (ResQueue false, l)
      else (ResQueue true, l ++ [Item])
  | OpDequeue =>
      match l with
      | [] => (ResDequeue None, [])
      | x :: rest => (ResDequeue (Some x), rest)
      end
  | OpSize => (ResSize (Z.of_nat (length l)), l)
  end.

Fixpoint queue_run (ops : list QueueOp) (l : list T) : list QueueRes * list T :=
  match ops with
  | [] => ([], l)
  | op :: rest =>
      let r := queue_step op l in
      let rr := queue_run rest r.2 in
      (r.1 :: rr.1, rr.2)
  end.

End CircularBufferMore.

Arguments QueueOp T : clear implicits.
Arguments QueueRes T : clear implicits.

(** ** DataStructure/CircularBuffer.h: the earlier revision of the ring

    Namespace [RA::Bricks].  [Queue] writes at the slot after [m_Tail],
    [Dequeue] reads the slot after [m_Head]. *)

Module CircularBufferOld.
Section Ops.

Context {T : Type} `{Inhabited T}.
Variable BuffSize : Z.

Definition HasData (b : CircularBuffer T) : bool := negb (m_Size b =? 0).

Definition NextWriteIndex (b : CircularBuffer T) : bool * Z :=
  if m_Size b =? BuffSize then (false, 0)
  else (true, u32 (m_Tail b + 1) mod BuffSize).

Definition Queue (Item : T) (b : CircularBuffer T) : bool * CircularBuffer T :=
  let r := NextWriteIndex b in
  if negb r.1 then (r.1, b)
  else (true,
        mkCircularBuffer (<[Z.to_nat r.2 := Item]> (m_Buffer b))
                         (m_Head b) r.2 (u32 (m_Size b + 1))).

Definition Dequeue (b : CircularBuffer T) : option T * CircularBuffer T :=
  if negb (HasData b) then (None, b)
  else
    let Head := u32 (m_Head b + 1) mod BuffSize in
    (Some (m_Buffer b !!! Z.to_nat Head),
     mkCircularBuffer (m_Buffer b) Head (m_Tail b) (u32 (m_Size b - 1))).

Definition Size (b : CircularBuffer T) : Z := m_Size b.

(** The pending items: [m_Size] slots starting after [m_Head]. *)
Definition contents (b : CircularBuffer T) : list T :=
  contents_from BuffSize (m_Buffer b) (Advance BuffSize (m_Head b) 1)
                (Z.to_nat (m_Size b)).

Definition step (op : QueueOp T) (b : CircularBuffer T) :
    QueueRes T * CircularBuffer T :=
  match op with
  | OpQueue Item => let r := Queue Item b in (ResQueue r.1, r.2)
  | OpDequeue => let r := Dequeue b in (ResDequeue r.1, r.2)
  | OpSize => (ResSize (Size b), b)
  end.

Fixpoint run (ops : list (QueueOp T)) (b : CircularBuffer T) :
    list (QueueRes T) * CircularBuffer T :=
  match ops with
  | [] => ([], b)
  | op :: rest =>
      let r := step op b in
      let rr := run rest r.2 in
      (r.1 :: rr.1, rr.2)
  end.

End Ops.
End CircularBufferOld.

(** ** Vocabulary for the version number *)

(** Versions compared field by field, major first. *)
Definition version_lt (a b : Z * Z * Z) : Prop :=
  a.1.1 < b.1.1 \/
  (a.1.1 = b.1.1 /\ (a.1.2 < b.1.2 \/ (a.1.2 = b.1.2 /\ a.2 < b.2))).

(** ** Vocabulary for the byte cache *)

(** A callback that writes everything it is given: its argument is the
    sequence of bytes written so far. *)
Definition accept_all (Data : list Byte.byte) (written : list Byte.byte) :
    Z * list Byte.byte :=
  (Z.of_nat (length Data), written ++ Data).

(** [Store] each span in turn, stopping at the first that is not stored. *)
Fixpoint StoreAllA (BufferSize : Z) (spans : list (list Byte.byte))
    (b : @CachedBufferA.CachedBuffer (list Byte.byte)) (written : list Byte.byte) :
    option (@CachedBufferA.CachedBuffer (list Byte.byte) * list Byte.byte) :=
  match spans with
  | [] => Some (b, written)
  | Data :: rest =>
      match CachedBufferA.Store BufferSize Data b written with
      | Some (true, b', written') => StoreAllA BufferSize rest b' written'
      | _ => None
      end
  end.

Fixpoint StoreAllB (BufferSize : Z) (spans : list (list Byte.byte))
    (b : @CachedBufferB.CachedBuffer (list Byte.byte)) (written : list Byte.byte) :
    option (@CachedBufferB.CachedBuffer (list Byte.byte) * list Byte.byte) :=
  match spans with
  | [] => Some (b, written)
  | Data :: rest =>
      match CachedBufferB.Store BufferSize Data b written with
      | Some (true, b', written') => StoreAllB BufferSize rest b' written'
      | _ => None
      end
  end.

(** ** A concrete ring, after Test/DataStructure/TestCircularBuffer.cpp

    Three slots of integers.  [wrapped] has been filled, emptied by two and
    topped up, so that its tail has wrapped round to the front. *)

Module DemoRing.

Definition fresh : CircularBuffer Z := EmptyCircularBuffer 3.

Definition fill : list (QueueOp Z) :=
  [OpQueue 10; OpQueue 20; OpQueue 30; OpQueue 40; OpDequeue; OpDequeue; OpQueue 80].

Definition wrapped : CircularBuffer Z := (ring_run 3 fill fresh).2.

Definition wrapped_old : CircularBuffer Z := (CircularBufferOld.run 3 fill fresh).2.

Definition more : list (QueueOp Z) :=
  [OpSize; OpQueue 90; OpQueue 100; OpDequeue; OpDequeue; OpSize; OpDequeue;
   OpDequeue; OpQueue 7; OpSize].

End DemoRing.

(** ** More data for the eight-byte cache *)

Module DemoStream.

Definition two : list Byte.byte := [Byte.x0a; Byte.x0b].

Definition seven : list Byte.byte :=
  [Byte.x11; Byte.x12; Byte.x13; Byte.x14; Byte.x15; Byte.x16; Byte.x17].

Definition nine : list Byte.byte :=
  [Byte.x21; Byte.x22; Byte.x23; Byte.x24; Byte.x25; Byte.x26; Byte.x27;
   Byte.x28; Byte.x29].

(** Spans that fit, that force a flush, and that are larger than the cache. *)
Definition spans : list (list Byte.byte) :=
  [DemoCache.five; two; DemoCache.four; nine; []; seven; two].

End DemoStream.

(** ** Vocabulary for what a policy holds and what it has deleted *)

Section PolicyAccounting.

Context {Input ReturnType U P : Type} `{IStatePolicy P}.

(** The state objects whose [OnEnter] was called, in order. *)
Fixpoint entered (l : list (@Event Input)) : list nat :=
  match l with
  | [] => []
  | e :: l' =>
      match ev_call e with
      | CbOnEnter s => s :: entered l'
      | _ => entered l'
      end
  end.

(** A property of the policy and the call log. *)
Definition policy_calls_inv (K : P -> list (@Event Input) -> Prop)
    (w : @World Input U P) : Prop :=
  K (m_StatePolicy (fsm w)) (calls w).

(** A computation that keeps a property of the world, whenever it returns. *)
Definition keeps (I : @World Input U P -> Prop) {A} (m : @M Input U P A) : Prop :=
  forall w a w', m w = Some (a, w') -> I w -> I w'.

Definition api_keeps (I : @World Input U P -> Prop)
    (api : @Api Input ReturnType U P) : Prop :=
  (forall In, keeps I (api_Run api In)) /\
  (forall h, keeps I (api_EnterState api h)) /\
  (forall h, keeps I (api_EnterStateImmediate api h)).

End PolicyAccounting.

Section OwningAccounting.

Context {Input U : Type}.

(** The objects the owning policy has deleted so far, and the one it holds. *)
Definition freed (w : @World Input U OwningPolicy) : list nat :=
  deleted (m_StatePolicy (fsm w)).

Definition owned (w : @World Input U OwningPolicy) : list nat :=
  option_list (Storage (m_StatePolicy (fsm w))).

(** Since the point where the log was [cs0] and the deleted and held
    objects were [D0], the deleted and held objects have grown by the
    objects entered. *)
Definition accounts (cs0 : list (@Event Input)) (D0 : list nat)
    (p : OwningPolicy) (cs : list (@Event Input)) : Prop :=
  exists tl, cs = cs0 ++ tl /\
             deleted p ++ option_list (Storage p) = D0 ++ entered tl.

(** Deletions are never taken back: [L] is the beginning of the deleted
    objects. *)
Definition has_freed (L : list nat) (p : OwningPolicy)
    (cs : list (@Event Input)) : Prop :=
  exists tl, deleted p = L ++ tl.

End OwningAccounting.

(** ** The concrete machine with the owning policy, further on *)

Module DemoOwning.

(** After [EnterStateImmediate(1)]. *)
Definition w_B : @World Z unit OwningPolicy :=
  Demo.world_of (EnterStateImmediate Demo.states 0 (Some 1%nat) Demo.w_A).

End DemoOwning.

(** ** RNG: random values, vectors, bytes and strings

    The engine ([std::mt19937], seeded from [std::random_device]) and the
    distribution are the standard library's: [Engine] is the engine's
    state, and [uniform_int Min Max] is one draw of
    [std::uniform_int_distribution] constructed with [(Min, Max)], which
    returns the value and the engine advanced.  Constructing the
    distribution with [Max < Min] is undefined; the embedding returns
    [None] there. *)

Module RNG.

Module CharSet.
Definition Numeric : list Ascii.ascii := list_ascii_of_string "0123456789".
Definition AlphaLower : list Ascii.ascii :=
  list_ascii_of_string "abcdefghijklmnopqrstuvwxyz".
Definition AlphaUpper : list Ascii.ascii :=
  list_ascii_of_string "ABCDEFGHIJKLMNOPQRSTUVWXYZ".
Definition Alpha : list Ascii.ascii := AlphaLower ++ AlphaUpper.
Definition AlphaNumeric : list Ascii.ascii := Numeric ++ Alpha.
Definition Hex : list Ascii.ascii := Numeric ++ list_ascii_of_string "ABCDEF".
Definition Special : list Ascii.ascii :=
  list_ascii_of_string "!@#$%^&*()-_=+[]{}|;:',.<>/?~`".
End CharSet.

Section WithEngine.

Variable Engine : Type.
Variable uniform_int : Z -> Z -> Engine -> Z * Engine.

(** [Value<T>(Min, Max)] for an integral [T]. *)
Definition Value (Min Max : Z) (e : Engine) : option (Z * Engine) :=
  if Min <=? Max then Some (uniform_int Min Max e) else None.

(** [Value<uint8_t>]: drawn as [unsigned int], then cast. *)
Definition Value_uint8 (Min Max : Z) (e : Engine) : option (Z * Engine) :=
  if Min <=? Max
  then let r := uniform_int Min Max e in Some (u8 r.1, r.2)
  else None.

(** The loops, [n] iterations to go. *)
Fixpoint Vector_loop (n : nat) (Min Max : Z) (Result : list Z) (e : Engine) :
    option (list Z * Engine) :=
  match n with
  | O => Some (Result, e)
  | S n' =>
      match Value Min Max e with
      | Some (x, e') => Vector_loop n' Min Max (Result ++ [x]) e'
      | None => None
      end
  end.

Definition Vector (N Min Max : Z) (e : Engine) : option (list Z * Engine) :=
  Vector_loop (Z.to_nat N) Min Max [] e.

Fixpoint ByteVector_loop (n : nat) (Result : list Z) (e : Engine) :
    option (list Z * Engine) :=
  match n with
  | O => Some (Result, e)
  | S n' =>
      match Value_uint8 0 255 e with
      | Some (x, e') => ByteVector_loop n' (Result ++ [x]) e'
      | None => None
      end
  end.

Definition ByteVector (N : Z) (e : Engine) : option (list Z * Engine) :=
  ByteVector_loop (Z.to_nat N) [] e.

Fixpoint String_loop (n : nat) (Set_ : list Ascii.ascii)
    (Result : list Ascii.ascii) (e : Engine) :
    option (list Ascii.ascii * Engine) :=
  match n with
  | O => Some (Result, e)
  | S n' =>
      match Value 0 (Z.of_nat (length Set_) - 1) e with
      | Some (Index, e') =>
          match Set_ !! Z.to_nat Index with
          | Some c => if 0 <=? Index then String_loop n' Set_ (Result ++ [c]) e'
                      else None
          | None => None
          end
      | None => None
      end
  end.

Definition String (Length : Z) (Set_ : list Ascii.ascii) (e : Engine) :
    option (list Ascii.ascii * Engine) :=
  match Set_ with
  | [] => Some ([], e)
  | _ => String_loop (Z.to_nat Length) Set_ [] e
  end.

End WithEngine.

(** A distribution to run the definitions with: a linear congruential
    step, reduced to the range. *)
Definition lcg_uniform (Min Max : Z) (e : Z) : Z * Z :=
  (Min + e mod (Max - Min + 1), (e * 1103515245 + 12345) mod 2 ^ 31).

End RNG.

(** ** DataStructure/StateMachine/StateMachine.h: the earlier revision of the
    dynamic state machine

    Namespace [RA::Bricks::StateMachine].  The class has the policy as its
    only member: no [m_InProgress], no queue, no [EnterStateImmediate].
    Its operations are embedded on the same [World], of which they read and
    write the policy, the objects' data and the call log only; a callback
    that calls [EnterStateImmediate] has no meaning here.  [StateTransition]
    is the same code in both revisions. *)

Module StateMachineOld.
Section Machine.

Context {Input ReturnType U P : Type} `{IStatePolicy P}.
Variable states : nat -> @IDynamicState Input ReturnType U.

Definition Run_with (api : @Api Input ReturnType U P) (In : Input) :
    @M Input U P (option ReturnType) :=
  bind PolicyGet (fun pS =>
  match pS with
  | None => ret None
  | Some s =>
      bind (Invoke (CbUpdate s In)) (fun _ =>
      bind (exec api (Update (states s) In)) (fun r =>
      let ReturnVal := r.1 in
      let pNewState := r.2 in
      bind (if decide (pNewState = Some s) then ret tt
            else bind (Invoke (CbOnExit s)) (fun _ =>
                 bind (exec api (OnExit (states s))) (fun _ =>
                 bind (StateTransition states api pNewState) (fun _ =>
                 ret tt))))
           (fun _ => ret (Some ReturnVal))))
  end).

Definition EnterState_with (api : @Api Input ReturnType U P) (pState : Handle) :
    @M Input U P Handle :=
  StateTransition states api pState.

Definition GetState (m : @DynamicStateMachine P) : StateMachineStatus :=
  match Get (m_StatePolicy m) with
  | None => Halt
  | Some _ => Running
  end.

Fixpoint api_at (depth : nat) : @Api Input ReturnType U P :=
  match depth with
  | O => mkApi (fun _ _ => None) (fun _ _ => None) (fun _ _ => None)
  | S d => mkApi (Run_with (api_at d)) (EnterState_with (api_at d))
                 (fun _ _ => None)
  end.

Definition Run (depth : nat) (In : Input) : @M Input U P (option ReturnType) :=
  Run_with (api_at depth) In.

Definition EnterState (depth : nat) (pState : Handle) : @M Input U P Handle :=
  EnterState_with (api_at depth) pState.

End Machine.
End StateMachineOld.

(** ** The machine over the owning policy, with object lifetimes

    [DynamicStateMachine<Input, ReturnType, OwningPolicy>], the default
    instantiation.  The policy deletes the object it held whenever a handle
    is installed, so a pointer the machine or a caller still has may dangle.
    A virtual call through a pointer to a deleted object, and a second
    deletion of the same object, are undefined.  The operations below are
    the operations of the class again, line by line, with the virtual calls
    and [SetState] checked against the policy's record of deletions; they
    have no result ([None]) where the code is undefined.  What a callback
    itself does with its own deleted object is not followed. *)

Module OwningMachine.
Section Machine.

Context {Input ReturnType U : Type}.
Variable states : nat -> @IDynamicState Input ReturnType U.

Definition callee (c : @Callback Input) : nat :=
  match c with
  | CbOnEnter s => s
  | CbOnExit s => s
  | CbUpdate s _ => s
  end.

Definition is_deleted (s : nat) (w : @World Input U OwningPolicy) : bool :=
  existsb (Nat.eqb s) (deleted (m_StatePolicy (fsm w))).

(** [pS->OnEnter()], [pS->OnExit()], [pS->Update(In)]. *)
Definition VirtualCall (c : @Callback Input) : @M Input U OwningPolicy unit :=
  fun w => if is_deleted (callee c) w then None else Invoke c w.

(** [m_StatePolicy.SetState(pState)]: the move assignment deletes the
    object held. *)
Definition OwningSetState (NewState : Handle) : @M Input U OwningPolicy Handle :=
  fun w => match Storage (m_StatePolicy (fsm w)) with
           | Some old => if is_deleted old w then None
                         else PolicySetState NewState w
           | None => PolicySetState NewState w
           end.

Definition StateTransition (api : @Api Input ReturnType U OwningPolicy)
    (pState : Handle) : @M Input U OwningPolicy Handle :=
  bind (OwningSetState pState) (fun pS =>
  match pS with
  | Some s =>
      bind (VirtualCall (CbOnEnter s)) (fun _ =>
      bind (exec api (OnEnter (states s))) (fun _ =>
      ret pS))
  | None => ret pS
  end).

Definition Run_exit (api : @Api Input ReturnType U OwningPolicy) (s : nat)
    (pNewState : Handle) : @M Input U OwningPolicy unit :=
  if decide (pNewState = Some s) then ret tt
  else bind (VirtualCall (CbOnExit s)) (fun _ =>
       bind (exec api (OnExit (states s))) (fun _ =>
       bind (StateTransitionDeferred pNewState) (fun _ =>
       ret tt))).

Definition Run_drain (api : @Api Input ReturnType U OwningPolicy) :
    @M Input U OwningPolicy unit :=
  bind DeferredDequeue (fun NextQueuedState =>
  match NextQueuedState with
  | Some h => bind (StateTransition api h) (fun _ => ret tt)
  | None => ret tt
  end).

Definition Run_with (api : @Api Input ReturnType U OwningPolicy) (In : Input) :
    @M Input U OwningPolicy (option ReturnType) :=
  InProgressGuard
    (bind PolicyGet (fun pS =>
     match pS with
     | None => ret None
     | Some s =>
         bind (VirtualCall (CbUpdate s In)) (fun _ =>
         bind (exec api (Update (states s) In)) (fun r =>
         let ReturnVal := r.1 in
         let pNewState := r.2 in
         bind (Run_exit api s pNewState) (fun _ =>
         bind (Run_drain api) (fun _ =>
         ret (Some ReturnVal)))))
     end)).

Definition EnterState_with (api : @Api Input ReturnType U OwningPolicy)
    (pState : Handle) : @M Input U OwningPolicy Handle :=
  bind GetFlag (fun InProgress =>
  if InProgress then StateTransitionDeferred pState
  else InProgressGuard (StateTransition api pState)).

Definition EnterStateImmediate_with (api : @Api Input ReturnType U OwningPolicy)
    (pState : Handle) : @M Input U OwningPolicy Handle :=
  InProgressGuard (StateTransition api pState).

Fixpoint api_at (depth : nat) : @Api Input ReturnType U OwningPolicy :=
  match depth with
  | O => mkApi (fun _ _ => None) (fun _ _ => None) (fun _ _ => None)
  | S d => mkApi (Run_with (api_at d))
                 (EnterState_with (api_at d))
                 (EnterStateImmediate_with (api_at d))
  end.

Definition Run (depth : nat) (In : Input) :
    @M Input U OwningPolicy (option ReturnType) :=
  Run_with (api_at depth) In.

Definition EnterState (depth : nat) (pState : Handle) :
    @M Input U OwningPolicy Handle :=
  EnterState_with (api_at depth) pState.

Definition EnterStateImmediate (depth : nat) (pState : Handle) :
    @M Input U OwningPolicy Handle :=
  EnterStateImmediate_with (api_at depth) pState.

(** The handle can be installed without harm: the object held has not been
    deleted, and the handle is null or points to another object that has
    not been deleted either. *)
Definition installable (h : Handle) (w : @World Input U OwningPolicy) : Prop :=
  (forall old, Storage (m_StatePolicy (fsm w)) = Some old ->
               ~ In old (deleted (m_StatePolicy (fsm w)))) /\
  (forall t, h = Some t ->
             Storage (m_StatePolicy (fsm w)) <> Some t /\
             ~ In t (deleted (m_StatePolicy (fsm w)))).

End Machine.
End OwningMachine.

Section Refinement.

Context {Input ReturnType U P : Type} `{IStatePolicy P}.

(** Whatever [m'] returns, [m] returns too. *)
Definition refines {A} (m' m : @M Input U P A) : Prop :=
  forall w a w', m' w = Some (a, w') -> m w = Some (a, w').

Definition api_refines (api' api : @Api Input ReturnType U P) : Prop :=
  (forall In, refines (api_Run api' In) (api_Run api In)) /\
  (forall h, refines (api_EnterState api' h) (api_EnterState api h)) /\
  (forall h, refines (api_EnterStateImmediate api' h)
                     (api_EnterStateImmediate api h)).

End Refinement.

(** ** The concrete machine with the owning policy and lifetimes checked *)

Module DemoLive.

(** A fresh machine, then [EnterState(stateA)]. *)
Definition w_A : @World Z unit OwningPolicy :=
  Demo.world_of (OwningMachine.EnterState Demo.states 0 (Some 0%nat) Demo.w_fresh).

(** After [Run(8)], whose [Update] calls [EnterState(1)] and
    [EnterState(2)], both deferred, and then asks for state 3: state 1 is
    installed and state 0 deleted. *)
Definition w_three : @World Z unit OwningPolicy :=
  Demo.world_of (OwningMachine.Run Demo.states 1 8 w_A).

(** After one more [Run(1)], which stays and installs the pending state 2. *)
Definition w_four : @World Z unit OwningPolicy :=
  Demo.world_of (OwningMachine.Run Demo.states 1 1 w_three).

(** After [Run(9)] from state A, whose [Update] asks nine times for state 1
    behind a request for state 4, and one more [Run(1)]: state 1 is active
    and the oldest pending request is state 1 again. *)
Definition w_fill : @World Z unit OwningPolicy :=
  Demo.world_of (OwningMachine.Run Demo.states 1 9 w_A).

Definition w_again : @World Z unit OwningPolicy :=
  Demo.world_of (OwningMachine.Run Demo.states 1 1 w_fill).

End DemoLive.
Example SetVersion_1_2_3 : SetVersion 1 2 3 = Some 67239939.
Proof. reflexivity. Qed.

Example GetMinor_1_2_3 : GetMinor 67239939 = 2.
Proof. reflexivity. Qed.

Ltac divmod_arith :=
  change (2 ^ 26) with 67108864 in *; change (2 ^ 16) with 65536 in *;
  change (2 ^ 10) with 1024 in *; change (2 ^ 6) with 64 in *;
  Z.div_mod_to_equations; lia.

Section VersionFacts.

Lemma mask_values :
  version.MajorMask = Z.ones 6 /\ version.MinorMask = Z.ones 10 /\
  version.PatchMask = Z.ones 16.
Proof. repeat split; reflexivity. Qed.

Lemma SetVersion_in_range major minor patch :
  0 <= major <= 63 -> 0 <= minor <= 1023 -> 0 <= patch <= 65535 ->
  SetVersion major minor patch =
    Some (Z.lor (Z.lor (major * 2 ^ 26) (minor * 2 ^ 16)) patch).
Proof.
    intros Hma Hmi Hpa. unfold SetVersion.
    change version.MajorMask with 63. change version.MinorMask with 1023.
    change version.PatchMask with 65535.
    destruct (Z.leb_spec major 63); [|lia].
    destruct (Z.leb_spec minor 1023); [|lia].
    destruct (Z.leb_spec patch 65535); [|lia].
    cbn [negb]. f_equal.
    change version.MajorShift with 26. change version.MinorShift with 16.
    change 65535 with (Z.ones 16).
    rewrite Z.land_ones by lia.
    rewrite !Z.shiftl_mul_pow2 by lia.
    unfold u32.
    rewrite (Z.mod_small major), (Z.mod_small minor), (Z.mod_small patch) by lia.
    rewrite (Z.mod_small (major * 2 ^ 26)), (Z.mod_small (minor * 2 ^ 16)),
      (Z.mod_small patch) by lia.
    reflexivity.
Qed.

End VersionFacts.

(** C9. Decoding a packed version recovers the three fields: for major in
    0..63, minor in 0..1023 and patch in 0..65535, [SetVersion] succeeds and
    [GetMajor], [GetMinor], [GetPatch] of its result are the inputs. *)
Theorem version_roundtrip (major minor patch : Z) :
  0 <= major <= 63 -> 0 <= minor <= 1023 -> 0 <= patch <= 65535 ->
  exists v, SetVersion major minor patch = Some v /\
            GetMajor v = major /\ GetMinor v = minor /\ GetPatch v = patch.
Proof.
  intros Hma Hmi Hpa. eexists. split.
  { apply SetVersion_in_range; assumption. }
  unfold GetMajor, GetMinor, GetPatch.
  destruct mask_values as (-> & -> & ->).
  change version.MajorShift with 26. change version.MinorShift with 16.
  rewrite !Z.shiftr_lor, !Z.land_lor_distr_l, !Z.land_ones by lia.
  rewrite !Z.shiftr_div_pow2 by lia.
  unfold u8, u16.
  assert (E1 : major * 2 ^ 26 / 2 ^ 26 mod 2 ^ 6 = major) by (clear -Hma; divmod_arith).
  assert (E2 : minor * 2 ^ 16 / 2 ^ 26 mod 2 ^ 6 = 0) by (clear -Hmi; divmod_arith).
  assert (E3 : patch / 2 ^ 26 mod 2 ^ 6 = 0) by (clear -Hpa; divmod_arith).
  assert (E4 : major * 2 ^ 26 / 2 ^ 16 mod 2 ^ 10 = 0) by (clear -Hma; divmod_arith).
  assert (E5 : minor * 2 ^ 16 / 2 ^ 16 mod 2 ^ 10 = minor) by (clear -Hmi; divmod_arith).
  assert (E6 : patch / 2 ^ 16 mod 2 ^ 10 = 0) by (clear -Hpa; divmod_arith).
  assert (E7 : (major * 2 ^ 26) mod 2 ^ 16 = 0) by (clear -Hma; divmod_arith).
  assert (E8 : (minor * 2 ^ 16) mod 2 ^ 16 = 0) by (clear -Hmi; divmod_arith).
  assert (E9 : patch mod 2 ^ 16 = patch) by (clear -Hpa; divmod_arith).
  rewrite E1, E2, E3, E4, E5, E6, E7, E8, E9.
  rewrite !Z.lor_0_r, !Z.lor_0_l.
  repeat split; apply Z.mod_small; lia.
Qed.

Lemma version_roundtrip_witness :
  exists v, SetVersion 63 1023 65535 = Some v /\
            GetMajor v = 63 /\ GetMinor v = 1023 /\ GetPatch v = 65535.
Proof. apply (version_roundtrip 63 1023 65535); lia. Defined.

(** * The ring buffer refines a FIFO list *)

Section CircularBufferFacts.

Context {T : Type} `{Inhabited T}.
Variable BuffSize : Z.
Hypothesis BuffSize_range : 0 < BuffSize < 2 ^ 32.


Lemma Advance_one (p : Z) :
  0 <= p < BuffSize -> Advance BuffSize p 1 = (p + 1) mod BuffSize.
Proof.
  intros Hp. unfold Advance, u32. rewrite (Z.mod_small (p + 1)); [done|lia].
Qed.

Lemma Advance_range (p : Z) :
  0 <= p < BuffSize -> 0 <= Advance BuffSize p 1 < BuffSize.
Proof.
  intros Hp. rewrite Advance_one by done. apply Z.mod_pos_bound. lia.
Qed.

Lemma mod_add_distinct (a j k : Z) :
  0 <= j < k -> k < BuffSize ->
  (a + j) mod BuffSize <> (a + k) mod BuffSize.
Proof.
  intros Hj Hk E.
  assert (D : ((a + k) - (a + j)) mod BuffSize = 0).
  { rewrite Zminus_mod, E, Z.sub_diag. apply Z.mod_0_l. lia. }
  replace (a + k - (a + j)) with (k - j) in D by lia.
  rewrite Z.mod_small in D; lia.
Qed.

Lemma contents_from_length (buf : list T) (pos : Z) (n : nat) :
  length (contents_from BuffSize buf pos n) = n.
Proof.
  revert pos. induction n as [|n IH]; intros pos; simpl; [done|].
  by rewrite IH.
Qed.

Lemma contents_from_S (buf : list T) (pos : Z) (n : nat) :
  contents_from BuffSize buf pos (S n) =
  buf !!! Z.to_nat pos :: contents_from BuffSize buf (Advance BuffSize pos 1) n.
Proof. reflexivity. Qed.

Lemma contents_from_snoc (buf : list T) (n : nat) : forall pos,
  0 <= pos < BuffSize ->
  contents_from BuffSize buf pos (S n) =
  contents_from BuffSize buf pos n ++ [buf !!! Z.to_nat ((pos + Z.of_nat n) mod BuffSize)].
Proof.
  induction n as [|n IH]; intros pos Hpos.
  - simpl. rewrite Z.add_0_r, Z.mod_small by lia. done.
  - rewrite (contents_from_S buf pos (S n)), IH by (by apply Advance_range).
    rewrite (contents_from_S buf pos n).
    assert (E : (Advance BuffSize pos 1 + Z.of_nat n) mod BuffSize =
                (pos + Z.of_nat (S n)) mod BuffSize).
    { rewrite Advance_one, Zplus_mod_idemp_l by done. f_equal. lia. }
    rewrite E. reflexivity.
Qed.

Lemma contents_from_insert_other (buf : list T) (t : Z) (x : T) (n : nat) :
  forall pos,
  0 <= pos < BuffSize -> 0 <= t ->
  (forall j, 0 <= j < Z.of_nat n -> (pos + j) mod BuffSize <> t) ->
  contents_from BuffSize (<[Z.to_nat t := x]> buf) pos n = contents_from BuffSize buf pos n.
Proof.
  induction n as [|n IH]; intros pos Hpos Ht Hne; simpl; [done|].
  f_equal.
  - apply list_lookup_total_insert_ne.
    specialize (Hne 0). rewrite Z.add_0_r, Z.mod_small in Hne by lia.
    assert (pos <> t) by (apply Hne; lia). lia.
  - apply IH; [by apply Advance_range | done |].
    intros j Hj. rewrite Advance_one by done.
    rewrite Zplus_mod_idemp_l.
    replace (pos + 1 + j) with (pos + (j + 1)) by lia.
    apply Hne. lia.
Qed.

Lemma contents_length (b : CircularBuffer T) :
  length (contents BuffSize b) = Z.to_nat (m_Size b).
Proof. apply contents_from_length. Qed.

Lemma EmptyCircularBuffer_wf : cb_wf BuffSize (EmptyCircularBuffer (T:=T) BuffSize).
Proof.
  unfold cb_wf, EmptyCircularBuffer; simpl.
  rewrite length_replicate. repeat split; lia.
Qed.

Lemma EmptyCircularBuffer_contents : contents BuffSize (EmptyCircularBuffer (T:=T) BuffSize) = [].
Proof. done. Qed.

(** A full ring rejects the item and is left as it was. *)
Lemma Queue_full (x : T) (b : CircularBuffer T) :
  m_Size b = BuffSize -> Queue BuffSize x b = (false, b).
Proof. intros E. unfold Queue. by rewrite E, Z.eqb_refl. Qed.

Lemma Queue_not_full (x : T) (b : CircularBuffer T) :
  m_Size b <> BuffSize ->
  Queue BuffSize x b =
    (true, mkCircularBuffer (<[Z.to_nat (m_Tail b) := x]> (m_Buffer b))
                            (m_Head b) (Advance BuffSize (m_Tail b) 1)
                            (u32 (m_Size b + 1))).
Proof.
  intros E. unfold Queue. destruct (Z.eqb_spec (m_Size b) BuffSize); done.
Qed.

Lemma Queue_wf (x : T) (b : CircularBuffer T) :
  cb_wf BuffSize b -> cb_wf BuffSize (Queue BuffSize x b).2.
Proof.
  intros (Hlen & Hhead & Hsize & Htail).
  destruct (Z.eq_dec (m_Size b) BuffSize) as [E|E].
  - rewrite Queue_full by done. done.
  - rewrite Queue_not_full by done. unfold cb_wf; simpl.
    rewrite length_insert. unfold u32.
    rewrite (Z.mod_small (m_Size b + 1)) by lia.
    repeat split; try lia.
    rewrite Advance_one by (rewrite Htail; apply Z.mod_pos_bound; lia).
    rewrite Htail, Zplus_mod_idemp_l. f_equal. lia.
Qed.

Lemma Queue_contents (x : T) (b : CircularBuffer T) :
  cb_wf BuffSize b -> m_Size b < BuffSize ->
  Queue BuffSize x b = (true, (Queue BuffSize x b).2) /\
  contents BuffSize (Queue BuffSize x b).2 = contents BuffSize b ++ [x].
Proof.
  intros (Hlen & Hhead & Hsize & Htail) Hlt.
  rewrite Queue_not_full by lia. split; [done|]. simpl.
  unfold contents; simpl. unfold u32.
  rewrite (Z.mod_small (m_Size b + 1)) by lia.
  replace (Z.to_nat (m_Size b + 1)) with (S (Z.to_nat (m_Size b))) by lia.
  assert (Ht : 0 <= m_Tail b < BuffSize).
  { rewrite Htail. apply Z.mod_pos_bound. lia. }
  rewrite contents_from_snoc by done.
  rewrite Z2Nat.id, <- Htail by lia.
  rewrite list_lookup_total_insert_eq by lia.
  f_equal. apply contents_from_insert_other; [done | lia |].
  intros j Hj. rewrite Htail.
  apply mod_add_distinct; lia.
Qed.

Lemma Queue_contents_full (x : T) (b : CircularBuffer T) :
  m_Size b = BuffSize -> contents BuffSize (Queue BuffSize x b).2 = contents BuffSize b.
Proof. intros E. by rewrite Queue_full. Qed.

Lemma Dequeue_empty (b : CircularBuffer T) :
  m_Size b = 0 -> Dequeue BuffSize b = (None, b).
Proof. intros E. unfold Dequeue. by rewrite E. Qed.

Lemma Dequeue_wf (b : CircularBuffer T) :
  cb_wf BuffSize b -> cb_wf BuffSize (Dequeue BuffSize b).2.
Proof.
  intros (Hlen & Hhead & Hsize & Htail). unfold Dequeue.
  destruct (Z.eqb_spec (m_Size b) 0) as [E|E]; [done|].
  unfold cb_wf; simpl. unfold u32.
  rewrite (Z.mod_small (m_Size b - 1)) by lia.
  pose proof (Advance_range (m_Head b) Hhead).
  repeat split; try lia.
  rewrite Advance_one, Zplus_mod_idemp_l, Htail by done. f_equal. lia.
Qed.

Lemma Dequeue_contents (b : CircularBuffer T) :
  cb_wf BuffSize b ->
  match contents BuffSize b with
  | [] => Dequeue BuffSize b = (None, b)
  | x :: rest => (Dequeue BuffSize b).1 = Some x /\ contents BuffSize (Dequeue BuffSize b).2 = rest
  end.
Proof.
  intros (Hlen & Hhead & Hsize & Htail).
  unfold contents, Dequeue.
  destruct (Z.eqb_spec (m_Size b) 0) as [E|E].
  - rewrite E. done.
  - destruct (Z.to_nat (m_Size b)) as [|n] eqn:En; [lia|]. simpl.
    split; [done|]. unfold u32. rewrite (Z.mod_small (m_Size b - 1)) by lia.
    replace (Z.to_nat (m_Size b - 1)) with n by lia. done.
Qed.

Lemma contents_nil_size (b : CircularBuffer T) :
  cb_wf BuffSize b -> contents BuffSize b = [] -> m_Size b = 0.
Proof.
  intros (_ & _ & Hsize & _) E.
  apply (f_equal length) in E. rewrite contents_length in E. simpl in E. lia.
Qed.

Lemma size_contents (b : CircularBuffer T) :
  cb_wf BuffSize b -> m_Size b = Z.of_nat (length (contents BuffSize b)).
Proof. intros (_ & _ & Hsize & _). rewrite contents_length. lia. Qed.

End CircularBufferFacts.

(** * The ownership policies obey the laws the machine relies on *)

#[export] Instance NonOwning_laws : StatePolicyLaws NonOwningPolicy.
Proof. split; reflexivity. Qed.

#[export] Instance Owning_laws : StatePolicyLaws OwningPolicy.
Proof.
  split; try reflexivity.
  - intros h [[old|] d]; reflexivity.
  - intros h [[old|] d]; reflexivity.
  - intros [[old|] d]; reflexivity.
Qed.

(** * Invariants of the machine under arbitrary callbacks *)

Section StateMachineInvariants.

Context {Input ReturnType U P : Type} `{IStatePolicy P}.
Variable states : nat -> @IDynamicState Input ReturnType U.

Local Abbreviation World := (@World Input U P).
Local Abbreviation M := (@M Input U P).
Local Abbreviation Api := (@Api Input ReturnType U P).

Lemma DeferredCapacity_range : 0 < DeferredCapacity < 2 ^ 32.
Proof. unfold DeferredCapacity. lia. Qed.

Lemma count_calls_app (p : @Event Input -> bool) (l1 l2 : list Event) :
  count_calls p (l1 ++ l2) = (count_calls p l1 + count_calls p l2)%nat.
Proof. induction l1 as [|e l1 IH]; simpl; [done|]. rewrite IH. lia. Qed.

Lemma evolves_refl (w : World) : evolves 0 w w.
Proof. unfold evolves. split; [auto | split; [auto | lia]]. Qed.

Lemma evolves_trans (d1 d2 : Z) (w1 w2 w3 : World) :
  evolves d1 w1 w2 -> evolves d2 w2 w3 -> evolves (d1 + d2) w1 w3.
Proof.
  intros (Hw1 & Hf1 & Hs1) (Hw2 & Hf2 & Hs2). unfold evolves.
  split; [auto | split; [auto | lia]].
Qed.

Lemma evolves_weaken (d d' : Z) (w w' : World) :
  d' <= d -> evolves d w w' -> evolves d' w w'.
Proof. intros Hd (Hw & Hf & Hs). split; [auto | split; [auto | lia]]. Qed.

Lemma respects_weaken {A} (d d' : Z) (m : M A) :
  d' <= d -> respects d m -> respects d' m.
Proof. intros Hd Hm w a w' E. eapply evolves_weaken; eauto. Qed.

Lemma respects_ret {A} (a : A) : respects 0 (ret a : M A).
Proof. intros w a' w' E. injection E as <- <-. apply evolves_refl. Qed.

Lemma respects_bind {A B} (d1 d2 d : Z) (m : M A) (k : A -> M B) :
  d <= d1 + d2 ->
  respects d1 m -> (forall a, respects d2 (k a)) -> respects d (bind m k).
Proof.
  intros Hd Hm Hk w b w' E. unfold bind in E.
  destruct (m w) as [[a w1]|] eqn:E1; [|done].
  eapply evolves_weaken; [exact Hd|].
  eapply evolves_trans; [eapply Hm | eapply Hk]; eauto.
Qed.

Lemma respects_bind0 {A B} (m : M A) (k : A -> M B) :
  respects 0 m -> (forall a, respects 0 (k a)) -> respects 0 (bind m k).
Proof. apply respects_bind. lia. Qed.

Lemma respects_SetFlag (b : bool) : respects 0 (SetFlag b : M unit).
Proof.
  intros w a w' E. injection E as <- <-.
  unfold evolves, deferred_wf, fifo_inv, slack, pending; simpl.
  split; [auto | split; [auto | lia]].
Qed.

Lemma respects_GetFlag : respects 0 (GetFlag : M bool).
Proof. intros w a w' E. injection E as <- <-. apply evolves_refl. Qed.

Lemma respects_PolicyGet : respects 0 (PolicyGet : M Handle).
Proof. intros w a w' E. injection E as <- <-. apply evolves_refl. Qed.

Lemma respects_PolicySetState (h : Handle) :
  respects 0 (PolicySetState h : M Handle).
Proof.
  intros w a w' E. injection E as <- <-.
  unfold evolves, deferred_wf, fifo_inv, slack, pending; simpl.
  split; [auto | split; [auto | lia]].
Qed.

Lemma respects_SetHeap (u : U) : respects 0 (SetHeap u : M unit).
Proof.
  intros w a w' E. injection E as <- <-.
  unfold evolves, deferred_wf, fifo_inv, slack, pending; simpl.
  split; [auto | split; [auto | lia]].
Qed.

Lemma respects_Invoke (c : Callback) : respects 0 (Invoke c : M unit).
Proof.
  intros w a w' E. injection E as <- <-.
  unfold evolves, deferred_wf, fifo_inv, slack, pending; simpl.
  split; [auto | split; [auto | rewrite count_calls_app; simpl; lia]].
Qed.

Lemma respects_Invoke_Update (s : nat) (In : Input) :
  respects 1 (Invoke (CbUpdate s In) : M unit).
Proof.
  intros w a w' E. injection E as <- <-.
  unfold evolves, deferred_wf, fifo_inv, slack, pending; simpl.
  split; [auto | split; [auto | rewrite count_calls_app; simpl; lia]].
Qed.

Lemma respects_DeferredQueue (h : Handle) :
  respects 0 (DeferredQueue h : M bool).
Proof.
  intros w a w' E. injection E as <- <-.
  unfold evolves, deferred_wf, fifo_inv, slack, pending; simpl.
  split; [|split; [|lia]].
  - apply Queue_wf, DeferredCapacity_range.
  - intros Hwf Hfifo.
    destruct (Z.eq_dec (m_Size (m_DeferredState (fsm w))) DeferredCapacity) as [E|E].
    + rewrite Queue_full by done. done.
    + destruct (Queue_contents DeferredCapacity DeferredCapacity_range h
                  (m_DeferredState (fsm w)) Hwf) as [E1 E2].
      { destruct Hwf as (_ & _ & ? & _). lia. }
      rewrite E2. rewrite E1 at 1. simpl. rewrite Hfifo, app_assoc. done.
Qed.

Lemma respects_DeferredDequeue : respects (-1) (DeferredDequeue : M (option Handle)).
Proof.
  intros w a w' E. injection E as <- <-.
  unfold evolves, deferred_wf, fifo_inv, slack, pending; simpl.
  split; [|split].
  - apply Dequeue_wf, DeferredCapacity_range.
  - intros Hwf Hfifo.
    pose proof (Dequeue_contents DeferredCapacity DeferredCapacity_range
                  (m_DeferredState (fsm w)) Hwf) as D.
    destruct (contents DeferredCapacity (m_DeferredState (fsm w)))
      as [|x rest] eqn:Ec.
    + rewrite D. simpl. rewrite Ec. done.
    + destruct D as [D1 D2]. rewrite D1, D2, Hfifo, <- app_assoc. done.
  - destruct (Dequeue DeferredCapacity (m_DeferredState (fsm w))).1;
      rewrite ?length_app; simpl; lia.
Qed.

Section WithApi.

Variable api : Api.
Hypothesis api_ok : api_respects api.

Lemma respects_exec {R} (s : Script R) : respects 0 (exec api s).
Proof.
  destruct api_ok as (HRun & HEnter & HImm).
  induction s as [r | f k IH | In k IH | h k IH | h k IH | k IH].
  - apply respects_ret.
  - intros w a w' E. simpl in E.
    eapply (respects_bind0 (SetHeap (f (heap w))) (fun _ => exec api (k (f (heap w)))));
      [apply respects_SetHeap | intros _; apply IH | exact E].
  - simpl. apply respects_bind0; auto.
  - simpl. apply respects_bind0; auto.
  - simpl. apply respects_bind0; auto.
  - intros w a w' E. simpl in E. eapply IH; eauto.
Qed.

Lemma respects_InProgressGuard {A} (d : Z) (body : M A) :
  respects d body -> respects d (InProgressGuard body).
Proof.
  intros Hb. unfold InProgressGuard.
  apply (respects_bind 0 d); [lia | apply respects_SetFlag | intros _].
  apply (respects_bind d 0); [lia | exact Hb | intros a].
  apply respects_bind0; [apply respects_SetFlag | intros _; apply respects_ret].
Qed.

Lemma respects_StateTransitionDeferred (h : Handle) :
  respects 0 (StateTransitionDeferred h : M Handle).
Proof.
  unfold StateTransitionDeferred.
  apply respects_bind0; [apply respects_DeferredQueue | intros _].
  apply respects_PolicyGet.
Qed.

Lemma respects_StateTransition (h : Handle) :
  respects 0 (StateTransition states api h).
Proof.
  unfold StateTransition.
  apply respects_bind0; [apply respects_PolicySetState | intros [s|]].
  - apply respects_bind0; [apply respects_Invoke | intros _].
    apply respects_bind0; [apply respects_exec | intros _; apply respects_ret].
  - apply respects_ret.
Qed.

Lemma respects_Run_exit (s : nat) (next : Handle) :
  respects 0 (Run_exit states api s next).
Proof.
  unfold Run_exit. destruct (decide (next = Some s)); [apply respects_ret|].
  apply respects_bind0; [apply respects_Invoke | intros _].
  apply respects_bind0; [apply respects_exec | intros _].
  apply respects_bind0; [apply respects_StateTransitionDeferred | intros _].
  apply respects_ret.
Qed.

Lemma respects_Run_drain : respects (-1) (Run_drain states api).
Proof.
  unfold Run_drain.
  apply (respects_bind (-1) 0); [lia | apply respects_DeferredDequeue | intros q].
  destruct q as [h|]; [|apply respects_ret].
  apply respects_bind0; [apply respects_StateTransition | intros _; apply respects_ret].
Qed.

Lemma respects_Run_with (In : Input) : respects 0 (Run_with states api In).
Proof.
  unfold Run_with. apply respects_InProgressGuard.
  apply respects_bind0; [apply respects_PolicyGet | intros [s|]];
    [|apply respects_ret].
  apply (respects_bind 1 (-1)); [lia | apply respects_Invoke_Update | intros _].
  apply (respects_bind 0 (-1)); [lia | apply respects_exec | intros r].
  apply (respects_bind 0 (-1)); [lia | apply respects_Run_exit | intros _].
  apply (respects_bind (-1) 0); [lia | apply respects_Run_drain | intros _].
  apply respects_ret.
Qed.

Lemma respects_EnterStateImmediate_with (h : Handle) :
  respects 0 (EnterStateImmediate_with states api h).
Proof. apply respects_InProgressGuard, respects_StateTransition. Qed.

Lemma respects_EnterState_with (h : Handle) :
  respects 0 (EnterState_with states api h).
Proof.
  unfold EnterState_with.
  apply respects_bind0; [apply respects_GetFlag | intros [|]].
  - apply respects_StateTransitionDeferred.
  - apply respects_InProgressGuard, respects_StateTransition.
Qed.

End WithApi.

Lemma api_at_respects (depth : nat) : api_respects (api_at states depth).
Proof.
  induction depth as [|d IH].
  - split; [|split]; intros x w a w' E; discriminate E.
  - split; [|split]; intros x; simpl.
    + by apply respects_Run_with.
    + by apply respects_EnterState_with.
    + by apply respects_EnterStateImmediate_with.
Qed.

Lemma WorldInit_invariants (u : U) :
  deferred_wf (WorldInit u : World) /\ fifo_inv (WorldInit u : World).
Proof.
  split.
  - apply (EmptyCircularBuffer_wf (T:=Handle) DeferredCapacity DeferredCapacity_range).
  - reflexivity.
Qed.

End StateMachineInvariants.

(** * Callbacks that never call [Run] *)

Section StateMachineQuiet.

Context {Input ReturnType U P : Type} `{IStatePolicy P}.
Variable states : nat -> @IDynamicState Input ReturnType U.
Hypothesis states_ok : states_no_CallRun states.

Local Abbreviation World := (@World Input U P).
Local Abbreviation M := (@M Input U P).
Local Abbreviation Api := (@Api Input ReturnType U P).

Lemma grows_trans (nu1 nd1 nu2 nd2 : nat) (w1 w2 w3 : World) :
  grows nu1 nd1 w1 w2 -> grows nu2 nd2 w2 w3 ->
  grows (nu1 + nu2) (nd1 + nd2) w1 w3.
Proof.
  intros [(cs1 & A1 & B1) (ds1 & C1 & D1)] [(cs2 & A2 & B2) (ds2 & C2 & D2)].
  split.
  - exists (cs1 ++ cs2). rewrite A2, A1, app_assoc, count_calls_app.
    split; [reflexivity | lia].
  - exists (ds1 ++ ds2). rewrite C2, C1, app_assoc, length_app.
    split; [reflexivity | lia].
Qed.

Lemma grows_refl (w : World) : grows 0 0 w w.
Proof. split; exists []; rewrite app_nil_r; split; (reflexivity || simpl; lia). Qed.

Lemma grows_calls (nu : nat) (w w' : World) (cs : list Event) :
  calls w' = calls w ++ cs -> (count_calls is_update cs <= nu)%nat ->
  dequeued w' = dequeued w -> grows nu 0 w w'.
Proof.
  intros A B C. split; [exists cs; done|].
  exists []. rewrite app_nil_r. split; [done | simpl; lia].
Qed.

Lemma grows_same (w w' : World) :
  calls w' = calls w -> dequeued w' = dequeued w -> grows 0 0 w w'.
Proof.
  intros A B. split; exists []; rewrite app_nil_r; split; (done || simpl; lia).
Qed.

Lemma bind_Some {A B} (m : M A) (k : A -> M B) (w w' : World) (b : B) :
  bind m k w = Some (b, w') ->
  exists a w1, m w = Some (a, w1) /\ k a w1 = Some (b, w').
Proof.
  unfold bind. destruct (m w) as [[a w1]|]; [|done]. intros E. eauto.
Qed.

Lemma quiet_ret {A} (a : A) : quiet (ret a : M A).
Proof. intros w a' w' E. injection E as <- <-. by apply grows_same. Qed.

Lemma quiet_bind {A B} (m : M A) (k : A -> M B) :
  quiet m -> (forall a, quiet (k a)) -> quiet (bind m k).
Proof.
  intros Hm Hk w b w' E. unfold bind in E.
  destruct (m w) as [[a w1]|] eqn:E1; [|done].
  apply (grows_trans 0 0 0 0 w w1 w'); [eapply Hm | eapply Hk]; eauto.
Qed.

Lemma quiet_SetFlag (b : bool) : quiet (SetFlag b : M unit).
Proof. intros w a w' E. injection E as <- <-. by apply grows_same. Qed.

Lemma quiet_GetFlag : quiet (GetFlag : M bool).
Proof. intros w a w' E. injection E as <- <-. by apply grows_same. Qed.

Lemma quiet_PolicyGet : quiet (PolicyGet : M Handle).
Proof. intros w a w' E. injection E as <- <-. by apply grows_same. Qed.

Lemma quiet_PolicySetState (h : Handle) : quiet (PolicySetState h : M Handle).
Proof. intros w a w' E. injection E as <- <-. by apply grows_same. Qed.

Lemma quiet_SetHeap (u : U) : quiet (SetHeap u : M unit).
Proof. intros w a w' E. injection E as <- <-. by apply grows_same. Qed.

Lemma quiet_DeferredQueue (h : Handle) : quiet (DeferredQueue h : M bool).
Proof. intros w a w' E. injection E as <- <-. by apply grows_same. Qed.

Lemma quiet_Invoke_OnEnter (s : nat) : quiet (Invoke (CbOnEnter s) : M unit).
Proof.
  intros w a w' E. injection E as <- <-.
  eapply grows_calls; [reflexivity | simpl; lia | reflexivity].
Qed.

Lemma quiet_Invoke_OnExit (s : nat) : quiet (Invoke (CbOnExit s) : M unit).
Proof.
  intros w a w' E. injection E as <- <-.
  eapply grows_calls; [reflexivity | simpl; lia | reflexivity].
Qed.

Section WithApi.

Variable api : Api.
Hypothesis api_ok : api_quiet api.

Lemma quiet_exec {R} (s : Script R) : no_CallRun s -> quiet (exec api s).
Proof.
  destruct api_ok as (HEnter & HImm).
  induction s as [r | f k IH | In k IH | h k IH | h k IH | k IH]; simpl; intros Hs.
  - apply quiet_ret.
  - intros w a w' E.
    eapply (quiet_bind (SetHeap (f (heap w))) (fun _ => exec api (k (f (heap w)))));
      [apply quiet_SetHeap | intros _; apply IH, Hs | exact E].
  - destruct Hs.
  - apply quiet_bind; auto.
  - apply quiet_bind; auto.
  - intros w a w' E. eapply IH; eauto.
Qed.

Lemma quiet_InProgressGuard {A} (body : M A) :
  quiet body -> quiet (InProgressGuard body).
Proof.
  intros Hb. unfold InProgressGuard.
  apply quiet_bind; [apply quiet_SetFlag | intros _].
  apply quiet_bind; [exact Hb | intros a].
  apply quiet_bind; [apply quiet_SetFlag | intros _; apply quiet_ret].
Qed.

Lemma quiet_StateTransitionDeferred (h : Handle) :
  quiet (StateTransitionDeferred h : M Handle).
Proof.
  unfold StateTransitionDeferred.
  apply quiet_bind; [apply quiet_DeferredQueue | intros _; apply quiet_PolicyGet].
Qed.

Lemma quiet_StateTransition (h : Handle) : quiet (StateTransition states api h).
Proof.
  unfold StateTransition.
  apply quiet_bind; [apply quiet_PolicySetState | intros [s|]];
    [|apply quiet_ret].
  apply quiet_bind; [apply quiet_Invoke_OnEnter | intros _].
  apply quiet_bind; [apply quiet_exec, states_ok | intros _; apply quiet_ret].
Qed.

Lemma quiet_EnterStateImmediate_with (h : Handle) :
  quiet (EnterStateImmediate_with states api h).
Proof. apply quiet_InProgressGuard, quiet_StateTransition. Qed.

Lemma quiet_EnterState_with (h : Handle) : quiet (EnterState_with states api h).
Proof.
  unfold EnterState_with.
  apply quiet_bind; [apply quiet_GetFlag | intros [|]].
  - apply quiet_StateTransitionDeferred.
  - apply quiet_InProgressGuard, quiet_StateTransition.
Qed.

Lemma quiet_Run_exit (s : nat) (next : Handle) :
  quiet (Run_exit states api s next).
Proof.
  unfold Run_exit. destruct (decide (next = Some s)); [apply quiet_ret|].
  apply quiet_bind; [apply quiet_Invoke_OnExit | intros _].
  apply quiet_bind; [apply quiet_exec, states_ok | intros _].
  apply quiet_bind; [apply quiet_StateTransitionDeferred | intros _].
  apply quiet_ret.
Qed.

Lemma Run_drain_grows (w w' : World) r :
  Run_drain states api w = Some (r, w') -> grows 0 1 w w'.
Proof.
  unfold Run_drain. intros E.
  apply bind_Some in E as (q & w1 & Edq & E).
  apply (grows_trans 0 1 0 0 w w1 w').
  { injection Edq as <- <-. split; simpl.
    - exists []. rewrite app_nil_r. split; [reflexivity | simpl; lia].
    - destruct (Dequeue DeferredCapacity (m_DeferredState (fsm w))).1 as [h|].
      + exists [h]. split; [reflexivity | simpl; lia].
      + exists []. rewrite app_nil_r. split; [reflexivity | simpl; lia]. }
  destruct q as [h|].
  - revert E.
    apply (quiet_bind (StateTransition states api h));
      [apply quiet_StateTransition | intros _; apply quiet_ret].
  - injection E as <- <-. apply grows_refl.
Qed.

(** One [Run]: a single [Update] and a single [Dequeue], the rest is quiet. *)
Lemma Run_with_grows_by_one (In : Input) (w w' : World) r :
  Run_with states api In w = Some (r, w') -> grows 1 1 w w'.
Proof.
  unfold Run_with, InProgressGuard. intros E.
  apply bind_Some in E as (? & w0 & E0 & E).
  apply bind_Some in E as (a & w1 & Ebody & E).
  apply bind_Some in E as (? & w2 & E2 & E). injection E as <- <-.
  apply quiet_SetFlag in E0, E2.
  apply (grows_trans 0 0 1 1 w w0 w2); [exact E0|].
  apply (grows_trans 1 1 0 0 w0 w1 w2); [|exact E2].
  clear E0 E2 w w2.
  apply bind_Some in Ebody as (pS & w & Eg & Ebody).
  apply quiet_PolicyGet in Eg.
  apply (grows_trans 0 0 1 1 w0 w w1); [exact Eg|]. clear Eg w0.
  destruct pS as [s|].
  2:{ injection Ebody as <- <-. apply (grows_trans 0 0 1 1 w w w); apply grows_refl || idtac.
      split; exists []; rewrite app_nil_r; split; (reflexivity || simpl; lia). }
  apply bind_Some in Ebody as (? & w2 & Einv & Ebody).
  apply bind_Some in Ebody as (r1 & w3 & Eupd & Ebody). cbv zeta in Ebody.
  apply bind_Some in Ebody as (? & w4 & Eexit & Ebody).
  apply bind_Some in Ebody as (? & w5 & Edrain & Ebody).
  injection Ebody as <- <-.
  apply (grows_trans 1 0 0 1 w w2 w5).
  { injection Einv as <- <-.
    eapply grows_calls; [reflexivity | simpl; lia | reflexivity]. }
  apply (grows_trans 0 0 0 1 w2 w3 w5).
  { revert Eupd. apply quiet_exec, states_ok. }
  apply (grows_trans 0 0 0 1 w3 w4 w5).
  { revert Eexit. apply quiet_Run_exit. }
  revert Edrain. apply Run_drain_grows.
Qed.

End WithApi.

Lemma api_at_quiet (depth : nat) : api_quiet (api_at states depth).
Proof.
  induction depth as [|d IH].
  - split; intros x w a w' E; discriminate E.
  - split; intros x; simpl.
    + by apply quiet_EnterState_with.
    + by apply quiet_EnterStateImmediate_with.
Qed.

End StateMachineQuiet.

(** * The operations on callbacks that do not call the machine *)

Section StateMachineCallFree.

Context {Input ReturnType U P : Type} `{IStatePolicy P} `{!StatePolicyLaws P}.
Variable states : nat -> @IDynamicState Input ReturnType U.

Local Abbreviation World := (@World Input U P).
Local Abbreviation Api := (@Api Input ReturnType U P).

Lemma exec_run_member (api : Api) {R} (s : Script R) :
  forall f u c q d r u',
  run_member s u = Some (r, u') ->
  exec api s (mkWorld f u c q d) = Some (r, mkWorld f u' c q d).
Proof.
  induction s as [r0 | g k IH | In k IH | h k IH | h k IH | k IH];
    intros f u c q d r u' E; simpl in E; try discriminate E.
  - injection E as <- <-. reflexivity.
  - simpl. unfold bind, SetHeap. simpl. apply IH. exact E.
Qed.

Lemma pending_length_full (w : World) :
  deferred_wf w ->
  (Z.of_nat (length (pending w)) =? DeferredCapacity) =
  (m_Size (m_DeferredState (fsm w)) =? DeferredCapacity).
Proof.
  intros Hwf. unfold pending.
  rewrite <- (size_contents DeferredCapacity _ Hwf). done.
Qed.

(** [StateTransitionDeferred]: the request is stored unless the queue is
    full; the active handle is returned and stays. *)
Lemma StateTransitionDeferred_spec (h : Handle) (w : World) :
  deferred_wf w ->
  exists w',
    StateTransitionDeferred h w = Some (active w, w') /\
    m_InProgress (fsm w') = m_InProgress (fsm w) /\
    m_StatePolicy (fsm w') = m_StatePolicy (fsm w) /\
    deferred_wf w' /\
    pending w' = pending w ++ stored w h /\
    heap w' = heap w /\ calls w' = calls w /\
    queued w' = queued w ++ stored w h /\ dequeued w' = dequeued w.
Proof.
  intros Hwf. unfold StateTransitionDeferred, bind, DeferredQueue, PolicyGet.
  eexists. split; [reflexivity|]. simpl.
  unfold stored. rewrite pending_length_full by done.
  unfold deferred_wf, pending in *. simpl.
  split; [done|]. split; [done|].
  split; [apply Queue_wf; [apply DeferredCapacity_range | done]|].
  destruct (Z.eqb_spec (m_Size (m_DeferredState (fsm w))) DeferredCapacity) as [E|E].
  - rewrite Queue_full by done. simpl. rewrite !app_nil_r. done.
  - destruct (Queue_contents DeferredCapacity DeferredCapacity_range h
                (m_DeferredState (fsm w)) Hwf) as [E1 E2].
    { destruct Hwf as (_ & _ & ? & _). lia. }
    rewrite E2. rewrite E1. simpl. done.
Qed.

(** [StateTransition]: store the handle, call [OnEnter] on it unless null. *)
Lemma StateTransition_spec (api : Api) (h : Handle) (w : World) (u1 : U) :
  run_member (enter_script states h) (heap w) = Some (tt, u1) ->
  exists w',
    StateTransition states api h w = Some (h, w') /\
    m_InProgress (fsm w') = m_InProgress (fsm w) /\
    active w' = h /\
    m_DeferredState (fsm w') = m_DeferredState (fsm w) /\
    heap w' = u1 /\
    calls w' = calls w ++
               map (fun c => mkEvent c (m_InProgress (fsm w))) (enter_calls h) /\
    queued w' = queued w /\ dequeued w' = dequeued w.
Proof.
  intros Hrun. destruct w as [[ip pol buf] u c q d]. simpl in *.
  unfold StateTransition, bind, PolicySetState, active. simpl.
  rewrite SetState_returns.
  destruct h as [t|]; simpl in *.
  - unfold Invoke. simpl.
    rewrite (exec_run_member api _ _ _ _ _ _ _ _ Hrun). simpl.
    eexists. split; [reflexivity|]. simpl.
    rewrite Get_SetState. done.
  - injection Hrun as <-.
    eexists. split; [reflexivity|]. simpl.
    rewrite Get_SetState, app_nil_r. done.
Qed.

Lemma EnterStateImmediate_call_free (depth : nat) (h : Handle) (w : World) (u1 : U) :
  run_member (enter_script states h) (heap w) = Some (tt, u1) ->
  exists w',
    EnterStateImmediate states depth h w = Some (h, w') /\
    m_InProgress (fsm w') = false /\
    active w' = h /\
    m_DeferredState (fsm w') = m_DeferredState (fsm w) /\
    heap w' = u1 /\
    calls w' = calls w ++ in_progress (enter_calls h) /\
    queued w' = queued w /\ dequeued w' = dequeued w.
Proof.
  intros Hrun.
  unfold EnterStateImmediate, EnterStateImmediate_with, InProgressGuard.
  unfold bind at 1. simpl. unfold bind at 1.
  match goal with
  | |- context [StateTransition states ?api h ?w0] =>
      destruct (StateTransition_spec api h w0 u1 Hrun)
        as (w1 & E & Hip & Hact & Hq & Hheap & Hcalls & Hqd & Hdq)
  end.
  rewrite E. simpl in *. unfold bind, SetFlag, ret. simpl.
  eexists. split; [reflexivity|]. simpl. unfold active in *. simpl.
  repeat (split; [assumption || reflexivity|]). assumption.
Qed.

Lemma EnterState_idle_call_free (depth : nat) (h : Handle) (w : World) (u1 : U) :
  m_InProgress (fsm w) = false ->
  run_member (enter_script states h) (heap w) = Some (tt, u1) ->
  exists w',
    EnterState states depth h w = Some (h, w') /\
    m_InProgress (fsm w') = false /\
    active w' = h /\
    m_DeferredState (fsm w') = m_DeferredState (fsm w) /\
    heap w' = u1 /\
    calls w' = calls w ++ in_progress (enter_calls h) /\
    queued w' = queued w /\ dequeued w' = dequeued w.
Proof.
  intros Hidle Hrun.
  unfold EnterState, EnterState_with. unfold bind at 1, GetFlag.
  rewrite Hidle.
  apply (EnterStateImmediate_call_free depth h w u1 Hrun).
Qed.

Lemma EnterState_in_progress (depth : nat) (h : Handle) (w : World) :
  m_InProgress (fsm w) = true -> deferred_wf w ->
  exists w',
    EnterState states depth h w = Some (active w, w') /\
    m_InProgress (fsm w') = true /\
    m_StatePolicy (fsm w') = m_StatePolicy (fsm w) /\
    deferred_wf w' /\
    pending w' = pending w ++ stored w h /\
    heap w' = heap w /\ calls w' = calls w /\
    queued w' = queued w ++ stored w h /\ dequeued w' = dequeued w.
Proof.
  intros Hbusy Hwf.
  unfold EnterState, EnterState_with. unfold bind at 1, GetFlag.
  rewrite Hbusy.
  destruct (StateTransitionDeferred_spec h w Hwf)
    as (w' & E & Hip & rest).
  exists w'. split; [exact E|]. split; [congruence|]. exact rest.
Qed.

(** The exit branch of [Run]. *)
Lemma Run_exit_spec (api : Api) (s : nat) (next : Handle) (w : World) (u2 : U) :
  deferred_wf w ->
  run_member (exit_script states s next) (heap w) = Some (tt, u2) ->
  exists w',
    Run_exit states api s next w = Some (tt, w') /\
    m_InProgress (fsm w') = m_InProgress (fsm w) /\
    m_StatePolicy (fsm w') = m_StatePolicy (fsm w) /\
    deferred_wf w' /\
    pending w' = pending w ++ pushed w s next /\
    heap w' = u2 /\
    calls w' = calls w ++
               map (fun c => mkEvent c (m_InProgress (fsm w))) (exit_calls s next) /\
    queued w' = queued w ++ pushed w s next /\ dequeued w' = dequeued w.
Proof.
  intros Hwf Hexit. unfold Run_exit, exit_script, exit_calls, pushed in *.
  destruct (decide (next = Some s)) as [E|E].
  - simpl in Hexit. injection Hexit as <-.
    exists w. rewrite !app_nil_r. done.
  - destruct w as [[ip pol buf] u c q d]. simpl in *.
    unfold bind at 1. simpl. unfold bind at 1.
    rewrite (exec_run_member _ _ _ _ _ _ _ _ _ Hexit).
    unfold bind at 1.
    match goal with
    | |- context [StateTransitionDeferred next ?w0] =>
        destruct (StateTransitionDeferred_spec next w0 Hwf)
          as (w1 & E1 & Hip & Hpol & Hwf1 & Hpend & Hheap & Hcalls & Hq & Hd)
    end.
    rewrite E1. exists w1. split; [reflexivity|].
    unfold stored, pending in *. simpl in *.
    done.
Qed.

(** The block of [Run] that takes one request out of the queue. *)
Lemma Run_drain_spec (api : Api) (w : World) (u3 : U) :
  deferred_wf w ->
  run_member (enter_script states (default None (head (pending w)))) (heap w)
    = Some (tt, u3) ->
  exists w',
    Run_drain states api w = Some (tt, w') /\
    m_InProgress (fsm w') = m_InProgress (fsm w) /\
    active w' = default (active w) (head (pending w)) /\
    deferred_wf w' /\
    pending w' = tail (pending w) /\
    heap w' = u3 /\
    calls w' = calls w ++
               map (fun c => mkEvent c (m_InProgress (fsm w)))
                   (enter_calls (default None (head (pending w)))) /\
    queued w' = queued w /\
    dequeued w' = dequeued w ++ option_list (head (pending w)).
Proof.
  intros Hwf Henter.
  pose proof (Dequeue_contents DeferredCapacity DeferredCapacity_range
                (m_DeferredState (fsm w)) Hwf) as D.
  pose proof (Dequeue_wf DeferredCapacity DeferredCapacity_range
                (m_DeferredState (fsm w)) Hwf) as Hwf'.
  unfold Run_drain. unfold bind at 1, DeferredDequeue. unfold pending in *.
  destruct (contents DeferredCapacity (m_DeferredState (fsm w)))
    as [|h rest] eqn:Ec; simpl in *.
  - rewrite D. simpl. injection Henter as <-.
    destruct w as [[ip pol buf] u c q d]. simpl in *.
    eexists. split; [reflexivity|]. simpl. rewrite !app_nil_r.
    unfold deferred_wf, active. simpl. done.
  - destruct D as [D1 D2]. rewrite D1. unfold bind at 1.
    match goal with
    | |- context [StateTransition states api h ?w0] =>
        destruct (StateTransition_spec api h w0 u3 Henter)
          as (w1 & E1 & Hip & Hact & Hbuf & Hheap & Hcalls & Hq & Hd)
    end.
    rewrite E1. simpl in *. exists w1. split; [reflexivity|].
    unfold deferred_wf. rewrite Hbuf, D2.
    done.
Qed.

Lemma Run_call_free (depth : nat) (In : Input) (w : World) (s : nat)
    (out : ReturnType) (next : Handle) (u1 u2 u3 : U) :
  deferred_wf w -> active w = Some s ->
  run_member (Update (states s) In) (heap w) = Some ((out, next), u1) ->
  run_member (exit_script states s next) u1 = Some (tt, u2) ->
  run_member (enter_script states (default None (head (pending w ++ pushed w s next)))) u2
    = Some (tt, u3) ->
  exists w',
    Run states depth In w = Some (Some out, w') /\
    m_InProgress (fsm w') = false /\
    active w' = default (Some s) (head (pending w ++ pushed w s next)) /\
    deferred_wf w' /\
    pending w' = tail (pending w ++ pushed w s next) /\
    heap w' = u3 /\
    calls w' = calls w ++
      in_progress ([CbUpdate s In] ++ exit_calls s next ++
                   enter_calls (default None (head (pending w ++ pushed w s next)))) /\
    queued w' = queued w ++ pushed w s next /\
    dequeued w' = dequeued w ++ option_list (head (pending w ++ pushed w s next)).
Proof.
  intros Hwf Hact Hupd Hexit Henter.
  destruct w as [[ip pol buf] u c q d].
  unfold active in Hact. simpl in Hact, Hupd.
  unfold Run, Run_with, InProgressGuard.
  unfold bind at 1. simpl. unfold bind at 1. unfold bind at 1. simpl.
  rewrite Hact.
  unfold bind at 1. simpl. unfold bind at 1.
  rewrite (exec_run_member _ _ _ _ _ _ _ _ _ Hupd). simpl.
  unfold bind at 1.
  match goal with
  | |- context [Run_exit states _ s next ?w0] =>
      destruct (Run_exit_spec (api_at states depth) s next w0 u2 Hwf Hexit)
        as (w1 & E1 & Hip1 & Hpol1 & Hwf1 & Hpend1 & Hheap1 & Hcalls1 & Hq1 & Hd1)
  end.
  rewrite E1.
  change (pending _ ++ pushed _ s next)
    with (pending (mkWorld (mkFSM ip pol buf) u c q d) ++
          pushed (mkWorld (mkFSM ip pol buf) u c q d) s next) in Hpend1.
  rewrite <- Hpend1, <- Hheap1 in Henter.
  unfold bind at 1.
  destruct (Run_drain_spec (api_at states depth) w1 u3 Hwf1 Henter)
    as (w2 & E2 & Hip2 & Hact2 & Hwf2 & Hpend2 & Hheap2 & Hcalls2 & Hq2 & Hd2).
  rewrite E2. unfold bind, SetFlag, ret. simpl.
  eexists. split; [reflexivity|]. simpl.
  unfold active, deferred_wf, in_progress, pending in *. simpl in *.
  rewrite Hpol1, Hact in Hact2. rewrite Hip1 in *.
  rewrite Hcalls2, Hcalls1, Hd2, Hd1, Hq2, Hq1, Hpend2, Hact2, Hheap2.
  rewrite Hpend1.
  rewrite !map_app, <- !app_assoc. simpl.
  split; [done|]. split; [done|]. split; [done|]. split; [done|].
  split; [done|]. split; [done|]. split; [reflexivity|]. done.
Qed.

(** [Run] on an active state, put together from its blocks; the callbacks
    may call back into the machine. *)
Lemma Run_blocks (api : Api) (In : Input) (w : World) (s : nat)
    (out : ReturnType) (next : Handle) (w1 w2 w3 : World) :
  active w = Some s ->
  exec api (Update (states s) In) (update_called s In w) = Some ((out, next), w1) ->
  Run_exit states api s next w1 = Some (tt, w2) ->
  Run_drain states api w2 = Some (tt, w3) ->
  Run_with states api In w = Some (Some out, clear_flag w3).
Proof.
  intros Hact Hupd Hexit Hdrain.
  unfold Run_with, InProgressGuard.
  unfold bind at 1. simpl. unfold bind at 1. unfold bind at 1. simpl.
  unfold active in Hact. rewrite Hact.
  unfold bind at 1. simpl. unfold bind at 1.
  unfold update_called in Hupd. rewrite Hupd. simpl.
  unfold bind at 1. rewrite Hexit.
  unfold bind at 1. rewrite Hdrain. reflexivity.
Qed.

Lemma Run_exit_other (api : Api) (s : nat) (next a : Handle) (w1 w1' w2 : World) :
  next <> Some s ->
  exec api (OnExit (states s)) (exit_called s w1) = Some (tt, w1') ->
  StateTransitionDeferred next w1' = Some (a, w2) ->
  Run_exit states api s next w1 = Some (tt, w2).
Proof.
  intros Hne Hexit Hpush. unfold Run_exit.
  destruct (decide (next = Some s)); [done|].
  unfold bind at 1. simpl. unfold bind at 1.
  unfold exit_called in Hexit. rewrite Hexit.
  unfold bind at 1. rewrite Hpush. reflexivity.
Qed.

Lemma update_called_wf (s : nat) (In : Input) (w : World) :
  deferred_wf w -> deferred_wf (update_called s In w).
Proof. done. Qed.

Lemma exit_called_wf (s : nat) (w : World) :
  deferred_wf w -> deferred_wf (exit_called s w).
Proof. done. Qed.

End StateMachineCallFree.

(** * Facts about the three public operations *)

Section StateMachineOperations.

Context {Input ReturnType U P : Type} `{IStatePolicy P} `{!StatePolicyLaws P}.
Variable states : nat -> @IDynamicState Input ReturnType U.

Local Abbreviation World := (@World Input U P).

Lemma Run_evolves (depth : nat) (In : Input) (w w' : World) r :
  Run states depth In w = Some (r, w') -> evolves 0 w w'.
Proof. apply respects_Run_with, api_at_respects. Qed.

Lemma EnterState_evolves (depth : nat) (h : Handle) (w w' : World) r :
  EnterState states depth h w = Some (r, w') -> evolves 0 w w'.
Proof. apply respects_EnterState_with, api_at_respects. Qed.

Lemma EnterStateImmediate_evolves (depth : nat) (h : Handle) (w w' : World) r :
  EnterStateImmediate states depth h w = Some (r, w') -> evolves 0 w w'.
Proof. apply respects_EnterStateImmediate_with, api_at_respects. Qed.

Lemma deferred_wf_size (w : World) :
  deferred_wf w -> Size (m_DeferredState (fsm w)) <= DeferredCapacity.
Proof. intros (_ & _ & ? & _). unfold Size. lia. Qed.

Lemma Run_halted (depth : nat) (In : Input) (w : World) :
  active w = None -> Run states depth In w = Some (None, clear_flag w).
Proof.
  intros Hact. unfold Run, Run_with, InProgressGuard.
  unfold bind at 1. simpl. unfold bind at 1. unfold bind at 1. simpl.
  unfold active in Hact. rewrite Hact. reflexivity.
Qed.

Lemma RunAll_halted (depth : nat) (ins : list Input) : forall w : World,
  active w = None ->
  exists w',
    RunAll states depth ins w = Some (map (fun _ => None) ins, w') /\
    m_StatePolicy (fsm w') = m_StatePolicy (fsm w) /\
    m_DeferredState (fsm w') = m_DeferredState (fsm w) /\
    heap w' = heap w /\ calls w' = calls w /\
    queued w' = queued w /\ dequeued w' = dequeued w.
Proof.
  induction ins as [|In ins IH]; intros w Hact; simpl.
  - exists w. done.
  - rewrite Run_halted by done.
    destruct (IH (clear_flag w)) as (w' & E & rest); [exact Hact|].
    rewrite E. exists w'. split; [reflexivity|]. exact rest.
Qed.

Lemma pushed_nil_if_full (w : World) (s : nat) (next : Handle) :
  Z.of_nat (length (pending w)) = DeferredCapacity -> pushed w s next = [].
Proof.
  intros E. unfold pushed. rewrite E, Z.eqb_refl. by destruct (decide _).
Qed.

Lemma pushed_other (w : World) (s : nat) (next : Handle) :
  next <> Some s -> Z.of_nat (length (pending w)) <> DeferredCapacity ->
  pushed w s next = [next].
Proof.
  intros E1 E2. unfold pushed. destruct (decide _); [done|].
  by destruct (Z.eqb_spec (Z.of_nat (length (pending w))) DeferredCapacity).
Qed.

Lemma pushed_same (w : World) (s : nat) : pushed w s (Some s) = [].
Proof. unfold pushed. by destruct (decide _). Qed.

Lemma exit_script_other (s : nat) (next : Handle) :
  next <> Some s -> exit_script states s next = OnExit (states s).
Proof. intros E. unfold exit_script. by destruct (decide _). Qed.

Lemma exit_script_same (s : nat) : exit_script states s (Some s) = Ret tt.
Proof. unfold exit_script. by destruct (decide _). Qed.

Lemma exit_calls_other (s : nat) (next : Handle) :
  next <> Some s -> @exit_calls Input s next = [CbOnExit s].
Proof. intros E. unfold exit_calls. by destruct (decide _). Qed.

Lemma exit_calls_same (s : nat) : @exit_calls Input s (Some s) = [].
Proof. unfold exit_calls. by destruct (decide _). Qed.

Lemma calls_since_app (w w' : World) (cs : list (@Event Input)) :
  calls w' = calls w ++ cs -> calls_since w w' = cs.
Proof. intros E. unfold calls_since. rewrite E. by rewrite drop_app_length. Qed.

End StateMachineOperations.

(** * The specification's claims about the state machine *)

Section StateMachineClaims.

Context {Input ReturnType U P : Type} `{IStatePolicy P} `{!StatePolicyLaws P}.
Variable states : nat -> @IDynamicState Input ReturnType U.

Local Abbreviation World := (@World Input U P).

(** C2 (as amended). When [Update], [OnExit] of the outgoing state and
    [OnEnter] of the incoming state make no call into the machine, and
    [Update] returns a different non-null handle while the deferred queue is
    empty, [Run] calls [OnExit] once on the outgoing state and then
    [OnEnter] once on the incoming state, nothing in between.
    [EnterStateImmediate], and [EnterState] while not in progress, given a
    handle other than the active one whose [OnEnter] makes no call into the
    machine, call [OnEnter] on the incoming state and make no other call,
    whatever is pending: the outgoing state gets no [OnExit]. *)
Theorem transition_lifecycle_calls
    (depth : nat) (In : Input) (w : World) (a b : nat) (out : ReturnType)
    (u1 u2 u3 : U) :
  deferred_wf w -> pending w = [] -> active w = Some a -> a <> b ->
  run_member (Update (states a) In) (heap w) = Some ((out, Some b), u1) ->
  run_member (OnExit (states a)) u1 = Some (tt, u2) ->
  run_member (OnEnter (states b)) u2 = Some (tt, u3) ->
  (exists w',
     Run states depth In w = Some (Some out, w') /\ active w' = Some b /\
     calls w' = calls w ++ in_progress [CbUpdate a In; CbOnExit a; CbOnEnter b] /\
     lifecycle_calls (calls_since w w') = [CbOnExit a; CbOnEnter b]) /\
  (forall (v : World) (t : nat) (u : U),
     active v <> Some t ->
     run_member (OnEnter (states t)) (heap v) = Some (tt, u) ->
     (exists v',
        EnterStateImmediate states depth (Some t) v = Some (Some t, v') /\
        active v' = Some t /\
        calls v' = calls v ++ in_progress [CbOnEnter t] /\
        lifecycle_calls (calls_since v v') = [CbOnEnter t]) /\
     (m_InProgress (fsm v) = false ->
      exists v',
        EnterState states depth (Some t) v = Some (Some t, v') /\
        active v' = Some t /\
        calls v' = calls v ++ in_progress [CbOnEnter t] /\
        lifecycle_calls (calls_since v v') = [CbOnEnter t])).
Proof.
  intros Hwf Hpend Hact Hab Hupd Hexit Henter.
  assert (Hne : Some b <> Some a) by congruence.
  assert (Hpush : pushed w a (Some b) = [Some b]).
  { apply pushed_other; [done|]. rewrite Hpend. unfold DeferredCapacity. simpl. lia. }
  split.
  - destruct (Run_call_free states depth In w a out (Some b) u1 u2 u3)
      as (w' & E & _ & Hact' & _ & _ & _ & Hcalls & _); try done.
    + by rewrite exit_script_other.
    + by rewrite Hpend, Hpush.
    + exists w'. rewrite Hpend, Hpush in *. rewrite exit_calls_other in Hcalls by done.
      split; [done|]. split; [done|]. split; [done|].
      by rewrite (calls_since_app w w' _ Hcalls).
  - intros v t u _ Hent. split.
    + destruct (EnterStateImmediate_call_free states depth (Some t) v u Hent)
        as (v' & E & _ & Hact' & _ & _ & Hcalls & _).
      exists v'. split; [done|]. split; [done|]. split; [done|].
      by rewrite (calls_since_app v v' _ Hcalls).
    + intros Hidle.
      destruct (EnterState_idle_call_free states depth (Some t) v u Hidle Hent)
        as (v' & E & _ & Hact' & _ & _ & Hcalls & _).
      exists v'. split; [done|]. split; [done|]. split; [done|].
      by rewrite (calls_since_app v v' _ Hcalls).
Qed.

(** C3. Requests leave the deferred queue in the order in which they were
    stored, whatever the callbacks do: after [Run], [EnterState] or
    [EnterStateImmediate] the requests taken out so far followed by those
    still pending are the requests stored so far.  A [Run] takes out at most
    one request for each [Update] it runs, itself and the [Run] calls nested
    in it together; when no callback calls [Run], that is at most one
    request per [Run], and [EnterState] and [EnterStateImmediate] take out
    none.  [EnterState] called while in progress stores its request behind
    the pending ones.  A [Run] whose callbacks make no call into the machine
    returns, stores the handle [Update] asked for behind the pending
    requests, takes out the oldest request only and installs it; the others
    stay pending. *)
Theorem deferred_requests_fifo (depth : nat) (w : World) :
  deferred_wf w -> fifo_inv w ->
  (forall In r w',
     Run states depth In w = Some (r, w') ->
     deferred_wf w' /\ fifo_inv w' /\ slack w <= slack w' /\
     (states_no_CallRun states ->
      exists ds, dequeued w' = dequeued w ++ ds /\ (length ds <= 1)%nat)) /\
  (forall h r w',
     EnterState states depth h w = Some (r, w') ->
     deferred_wf w' /\ fifo_inv w' /\
     (states_no_CallRun states -> dequeued w' = dequeued w)) /\
  (forall h r w',
     EnterStateImmediate states depth h w = Some (r, w') ->
     deferred_wf w' /\ fifo_inv w' /\
     (states_no_CallRun states -> dequeued w' = dequeued w)) /\
  (forall h,
     m_InProgress (fsm w) = true ->
     exists w',
       EnterState states depth h w = Some (active w, w') /\
       pending w' = pending w ++ stored w h /\
       queued w' = queued w ++ stored w h /\ dequeued w' = dequeued w) /\
  (forall In s out next u1 u2 u3,
     active w = Some s ->
     run_member (Update (states s) In) (heap w) = Some ((out, next), u1) ->
     run_member (exit_script states s next) u1 = Some (tt, u2) ->
     run_member (enter_script states
                   (default None (head (pending w ++ pushed w s next)))) u2
       = Some (tt, u3) ->
     exists w',
       Run states depth In w = Some (Some out, w') /\
       queued w' = queued w ++ pushed w s next /\
       dequeued w' = dequeued w ++ option_list (head (pending w ++ pushed w s next)) /\
       active w' = default (Some s) (head (pending w ++ pushed w s next)) /\
       pending w' = tail (pending w ++ pushed w s next)).
Proof.
  intros Hwf Hfifo. split; [|split; [|split; [|split]]].
  - intros In r w' E.
    destruct (Run_evolves states depth In w w' r E) as (A & B & C).
    split; [auto|]. split; [auto|]. split; [lia|].
    intros Hok.
    destruct (Run_with_grows_by_one states Hok (api_at states depth)
                (api_at_quiet states Hok depth) In w w' r E) as [_ G].
    exact G.
  - intros h r w' E.
    destruct (EnterState_evolves states depth h w w' r E) as (A & B & C).
    split; [auto|]. split; [auto|].
    intros Hok.
    destruct (quiet_EnterState_with states Hok (api_at states depth)
                (api_at_quiet states Hok depth) h w r w' E)
      as [_ (ds & G1 & G2)].
    destruct ds; [by rewrite app_nil_r in G1 | simpl in G2; lia].
  - intros h r w' E.
    destruct (EnterStateImmediate_evolves states depth h w w' r E) as (A & B & C).
    split; [auto|]. split; [auto|].
    intros Hok.
    destruct (quiet_EnterStateImmediate_with states Hok (api_at states depth)
                (api_at_quiet states Hok depth) h w r w' E)
      as [_ (ds & G1 & G2)].
    destruct ds; [by rewrite app_nil_r in G1 | simpl in G2; lia].
  - intros h Hbusy.
    destruct (EnterState_in_progress states depth h w Hbusy Hwf)
      as (w' & E & _ & _ & _ & Hpend & _ & _ & Hq & Hd).
    exists w'. done.
  - intros In s out next u1 u2 u3 Hact Hupd Hexit Henter.
    destruct (Run_call_free states depth In w s out next u1 u2 u3)
      as (w' & E & _ & Hact' & _ & Hpend & _ & _ & Hq & Hd); try done.
    exists w'. done.
Qed.

(** C5. A request made while the deferred queue holds its full capacity is
    dropped without a signal.  Let [Update] of the active state return
    [(out, next)] with [next] another handle, and let the queue be full when
    [OnExit] has returned (the callbacks may have called back into the
    machine).  Then [Queue] returns [false] and leaves the ring as it was;
    the push made by [Run] changes neither the ring, nor the pending
    requests, nor the active handle; [Run] still returns [out]; and
    [EnterState] called there while in progress returns the active handle
    and changes nothing either.  After any [Run], [EnterState] or
    [EnterStateImmediate], whatever the callbacks do, the queue holds at
    most its capacity. *)
Theorem full_queue_drops_request
    (depth : nat) (In : Input) (h : Handle) (w : World) (s : nat)
    (out : ReturnType) (next a : Handle) (w1 w1' w2 w3 : World) :
  deferred_wf w -> active w = Some s ->
  exec (api_at states depth) (Update (states s) In) (update_called s In w)
    = Some ((out, next), w1) ->
  next <> Some s ->
  exec (api_at states depth) (OnExit (states s)) (exit_called s w1)
    = Some (tt, w1') ->
  Z.of_nat (length (pending w1')) = DeferredCapacity ->
  StateTransitionDeferred next w1' = Some (a, w2) ->
  Run_drain states (api_at states depth) w2 = Some (tt, w3) ->
  Queue DeferredCapacity next (m_DeferredState (fsm w1'))
    = (false, m_DeferredState (fsm w1')) /\
  (a = active w1' /\ active w2 = active w1' /\
   m_DeferredState (fsm w2) = m_DeferredState (fsm w1') /\
   pending w2 = pending w1' /\ queued w2 = queued w1') /\
  Run states depth In w = Some (Some out, clear_flag w3) /\
  (m_InProgress (fsm w1') = true ->
   exists w',
     EnterState states depth h w1' = Some (active w1', w') /\
     active w' = active w1' /\ pending w' = pending w1' /\
     queued w' = queued w1' /\ calls w' = calls w1') /\
  (forall In' r w',
     Run states depth In' w = Some (r, w') ->
     Size (m_DeferredState (fsm w')) <= DeferredCapacity) /\
  (forall h' r w',
     EnterState states depth h' w = Some (r, w') ->
     Size (m_DeferredState (fsm w')) <= DeferredCapacity) /\
  (forall h' r w',
     EnterStateImmediate states depth h' w = Some (r, w') ->
     Size (m_DeferredState (fsm w')) <= DeferredCapacity).
Proof.
  intros Hwf Hact Hupd Hne Hexit Hfull Hpush Hdrain.
  assert (Hwf1 : deferred_wf w1).
  { apply (respects_exec (api_at states depth) (api_at_respects states depth)
             _ _ _ _ Hupd). by apply update_called_wf. }
  assert (Hwf1' : deferred_wf w1').
  { apply (respects_exec (api_at states depth) (api_at_respects states depth)
             _ _ _ _ Hexit). by apply exit_called_wf. }
  assert (Hsize : m_Size (m_DeferredState (fsm w1')) = DeferredCapacity).
  { rewrite (size_contents DeferredCapacity _ Hwf1'). exact Hfull. }
  split; [|split; [|split; [|split; [|split; [|split]]]]].
  - apply Queue_full, Hsize.
  - revert Hpush. unfold StateTransitionDeferred, bind, DeferredQueue, PolicyGet.
    rewrite Queue_full by done. simpl. intros E. injection E as <- <-.
    unfold active, pending. simpl. done.
  - unfold Run. eapply Run_blocks; eauto.
    eapply Run_exit_other; eauto.
  - intros Hbusy.
    destruct (EnterState_in_progress states depth h w1' Hbusy Hwf1')
      as (w' & E & _ & Hpol & _ & Hpend & _ & Hcalls & Hq & _).
    exists w'. unfold stored in *. rewrite Hfull, Z.eqb_refl, app_nil_r in *.
    unfold active. rewrite Hpol. done.
  - intros In' r w' E. apply deferred_wf_size.
    by apply (Run_evolves states depth In' w w' r E).
  - intros h' r w' E. apply deferred_wf_size.
    by apply (EnterState_evolves states depth h' w w' r E).
  - intros h' r w' E. apply deferred_wf_size.
    by apply (EnterStateImmediate_evolves states depth h' w w' r E).
Qed.

(** C6. When the request [Run] takes out of the deferred queue is the null
    handle, the policy's handle is cleared, no [OnEnter] is called, and the
    machine is halted: [GetFSM_State] says [Halt], every later [Run] returns
    no output and changes nothing, until [EnterState] or
    [EnterStateImmediate] installs a state.  [Update] and [OnExit] may have
    called back into the machine: [w1] is the world [Update] leaves, [w2]
    the one the exit block leaves, with the null request at the head of the
    queue. *)
Theorem null_request_halts
    (depth : nat) (In : Input) (w : World) (s : nat)
    (out : ReturnType) (next : Handle) (w1 w2 : World) :
  deferred_wf w -> active w = Some s ->
  exec (api_at states depth) (Update (states s) In) (update_called s In w)
    = Some ((out, next), w1) ->
  Run_exit states (api_at states depth) s next w1 = Some (tt, w2) ->
  head (pending w2) = Some None ->
  exists w',
    Run states depth In w = Some (Some out, w') /\
    active w' = None /\
    GetFSM_State (fsm w') = Halt /\
    calls w' = calls w2 /\
    pending w' = tail (pending w2) /\
    (forall depth' ins, exists w'',
       RunAll states depth' ins w' = Some (map (fun _ => None) ins, w'') /\
       active w'' = None /\ calls w'' = calls w' /\ pending w'' = pending w') /\
    (forall depth' t u3,
       run_member (OnEnter (states t)) (heap w') = Some (tt, u3) ->
       (exists w'', EnterState states depth' (Some t) w' = Some (Some t, w'') /\
                    active w'' = Some t /\ GetFSM_State (fsm w'') = Running) /\
       (exists w'', EnterStateImmediate states depth' (Some t) w' = Some (Some t, w'') /\
                    active w'' = Some t /\ GetFSM_State (fsm w'') = Running)).
Proof.
  intros Hwf Hact Hupd Hexit Hhead.
  assert (Hwf1 : deferred_wf w1).
  { apply (respects_exec (api_at states depth) (api_at_respects states depth)
             _ _ _ _ Hupd). by apply update_called_wf. }
  assert (Hwf2 : deferred_wf w2).
  { by apply (respects_Run_exit states (api_at states depth)
                (api_at_respects states depth) _ _ _ _ _ Hexit). }
  destruct (Run_drain_spec states (api_at states depth) w2 (heap w2) Hwf2)
    as (w3 & E3 & _ & Hact3 & _ & Hpend3 & _ & Hcalls3 & _).
  { by rewrite Hhead. }
  rewrite Hhead in *. simpl in *. rewrite app_nil_r in Hcalls3.
  exists (clear_flag w3).
  assert (Hact' : active (clear_flag w3) = None) by exact Hact3.
  split; [unfold Run; eapply Run_blocks; eauto|].
  split; [done|].
  split; [unfold GetFSM_State; unfold active in Hact'; by rewrite Hact'|].
  split; [done|]. split; [done|].
  split.
  - intros depth' ins.
    destruct (RunAll_halted states depth' ins (clear_flag w3) Hact')
      as (w'' & E' & Hpol & Hbuf & _ & Hc & _).
    exists w''. unfold active, pending in *. rewrite Hpol, Hbuf. done.
  - intros depth' t u3 Hent. split.
    + destruct (EnterState_idle_call_free states depth' (Some t) (clear_flag w3)
                  u3 eq_refl Hent) as (w'' & E' & _ & Hact'' & _).
      exists w''. unfold GetFSM_State. unfold active in Hact''. by rewrite Hact''.
    + destruct (EnterStateImmediate_call_free states depth' (Some t)
                  (clear_flag w3) u3 Hent) as (w'' & E' & _ & Hact'' & _).
      exists w''. unfold GetFSM_State. unfold active in Hact''. by rewrite Hact''.
Qed.

(** C7 (as amended). In [Run], when [Update] returns a different handle and
    the queue is full once [OnExit] has returned, the push fails and leaves
    the policy's handle alone, but the same [Run] then takes the oldest
    pending request out of the queue and installs it.  When that request is
    not the handle of the old state itself and its [OnEnter] makes no call
    into the machine, the active handle after the call is that request, the
    machine is halted if it is null, and it is not in the old state.
    ([Update] and [OnExit] may have called back into the machine; [w1] and
    [w1'] are the worlds they leave.) *)
Theorem full_queue_Run_installs_oldest
    (depth : nat) (In : Input) (w : World) (s : nat)
    (out : ReturnType) (next oldest : Handle) (rest : list Handle)
    (w1 w1' : World) (u3 : U) :
  deferred_wf w -> active w = Some s ->
  exec (api_at states depth) (Update (states s) In) (update_called s In w)
    = Some ((out, next), w1) ->
  next <> Some s ->
  exec (api_at states depth) (OnExit (states s)) (exit_called s w1)
    = Some (tt, w1') ->
  pending w1' = oldest :: rest ->
  Z.of_nat (length (pending w1')) = DeferredCapacity ->
  oldest <> Some s ->
  run_member (enter_script states oldest) (heap w1') = Some (tt, u3) ->
  (exists w2,
     StateTransitionDeferred next w1' = Some (active w1', w2) /\
     active w2 = active w1' /\ pending w2 = pending w1' /\
     queued w2 = queued w1') /\
  exists w',
    Run states depth In w = Some (Some out, w') /\
    active w' = oldest /\
    active w' <> Some s /\
    GetFSM_State (fsm w') = match oldest with Some _ => Running | None => Halt end /\
    pending w' = rest /\
    queued w' = queued w1' /\
    calls w' = calls w1' ++
               map (fun c => mkEvent c (m_InProgress (fsm w1'))) (enter_calls oldest).
Proof.
  intros Hwf Hact Hupd Hne Hexit Hpend Hfull Hother Henter.
  assert (Hwf1 : deferred_wf w1).
  { apply (respects_exec (api_at states depth) (api_at_respects states depth)
             _ _ _ _ Hupd). by apply update_called_wf. }
  assert (Hwf1' : deferred_wf w1').
  { apply (respects_exec (api_at states depth) (api_at_respects states depth)
             _ _ _ _ Hexit). by apply exit_called_wf. }
  destruct (StateTransitionDeferred_spec next w1' Hwf1')
    as (w2 & E2 & Hip2 & Hpol2 & Hwf2 & Hpend2 & Hheap2 & Hcalls2 & Hq2 & Hd2).
  unfold stored in *. rewrite Hfull, Z.eqb_refl, app_nil_r in *.
  split.
  { exists w2. unfold active. rewrite Hpol2. done. }
  destruct (Run_drain_spec states (api_at states depth) w2 u3 Hwf2)
    as (w3 & E3 & Hip3 & Hact3 & _ & Hpend3 & _ & Hcalls3 & Hq3 & _).
  { by rewrite Hpend2, Hpend, Hheap2. }
  rewrite Hpend2, Hpend in *. simpl in *.
  exists (clear_flag w3).
  split.
  { unfold Run. eapply Run_blocks; eauto. eapply Run_exit_other; eauto. }
  assert (Hact' : active (clear_flag w3) = oldest) by exact Hact3.
  split; [done|].
  split; [by rewrite Hact'|].
  split; [unfold GetFSM_State; unfold active in Hact'; by rewrite Hact'|].
  split; [done|]. split; [simpl; congruence|].
  simpl. rewrite Hcalls3, Hcalls2, Hip2. done.
Qed.

(** C8. [Run] on a halted machine returns no output before it reaches the
    deferred queue: the ring, its size, the pending requests and the logs
    are as before, the machine is still halted, and so it stays over any
    number of such calls. *)
Theorem halted_Run_keeps_queue (depth : nat) (w : World) :
  active w = None ->
  (forall In, exists w',
     Run states depth In w = Some (None, w') /\
     m_DeferredState (fsm w') = m_DeferredState (fsm w) /\
     Size (m_DeferredState (fsm w')) = Size (m_DeferredState (fsm w)) /\
     pending w' = pending w /\
     queued w' = queued w /\ dequeued w' = dequeued w /\ calls w' = calls w /\
     active w' = None) /\
  (forall ins, exists w',
     RunAll states depth ins w = Some (map (fun _ => None) ins, w') /\
     m_DeferredState (fsm w') = m_DeferredState (fsm w) /\
     pending w' = pending w /\
     queued w' = queued w /\ dequeued w' = dequeued w /\ calls w' = calls w /\
     active w' = None).
Proof.
  intros Hact. split.
  - intros In. exists (clear_flag w).
    split; [by apply Run_halted|]. done.
  - intros ins.
    destruct (RunAll_halted states depth ins w Hact)
      as (w' & E & Hpol & Hbuf & _ & Hc & Hq & Hd).
    exists w'. unfold active, pending in *. rewrite Hpol, Hbuf. done.
Qed.

End StateMachineClaims.

(** * The claims on the concrete machine *)

Section DemoFacts.

Import Demo.

Ltac compute_world :=
  eexists; split; [vm_compute; reflexivity|]; vm_compute;
  repeat match goal with
         | |- _ /\ _ => split
         | |- _ = _ => reflexivity
         | |- _ <> _ => discriminate
         | |- _ -> False => discriminate
         end.

Ltac compute_wf :=
  unfold deferred_wf, cb_wf; vm_compute;
  repeat match goal with
         | |- _ /\ _ => split
         | |- _ = _ => reflexivity
         | |- _ -> False => discriminate
         end.

Lemma v_A_wf : deferred_wf v_A.
Proof. compute_wf. Qed.

Lemma v_full_wf : deferred_wf v_full.
Proof. compute_wf. Qed.

(** The scenario of the test [TransitionAndLifecycleWithMocks]. *)
Example test_TransitionAndLifecycle :
  exists w',
    RunAll states 0 [5; 20; 0] w_A
      = Some ([Some "Stay A"%string; Some "To B"%string; Some "Terminate"%string], w') /\
    GetFSM_State (fsm w') = Halt /\
    map ev_call (calls w') =
      [CbOnEnter 0; CbUpdate 0 5; CbUpdate 0 20; CbOnExit 0; CbOnEnter 1;
       CbUpdate 1 0; CbOnExit 1] /\
    deleted (m_StatePolicy (fsm w')) = [0%nat; 1%nat].
Proof. compute_world. Qed.

(** C1 (the code departs from it). A [Run] on state 0 whose [Update] calls
    [EnterStateImmediate(1)] and then returns handle 2: the destructor of the
    nested guard stores [false], so the rest of the enclosing [Run] executes
    with [m_InProgress] false: [OnExit] of state 0 and [OnEnter] of state 2
    are called with the flag cleared. *)
Theorem nested_immediate_clears_flag :
  exists w',
    Run states 1 7 v_A = Some (Some "Nested"%string, w') /\
    m_InProgress (fsm v_A) = false /\
    calls_since v_A w' =
      [mkEvent (CbUpdate 0 7) true; mkEvent (CbOnEnter 1) true;
       mkEvent (CbOnExit 0) false; mkEvent (CbOnEnter 2) false].
Proof. compute_world. Qed.

(** A consequence: after the nested [EnterStateImmediate(1)], the
    [EnterState(2)] and [EnterState(3)] made by the same [Update] are not
    deferred; they are applied on the spot, inside [Update]. *)
Example nested_immediate_disables_deferral :
  exists w',
    Run states 1 12 v_A = Some (Some "Late"%string, w') /\
    map ev_call (calls_since v_A w') =
      [CbUpdate 0 12; CbOnEnter 1; CbOnEnter 2; CbOnEnter 3; CbOnExit 0;
       CbOnEnter 3] /\
    queued w' = [Some 3%nat].
Proof. compute_world. Qed.

Lemma transition_lifecycle_calls_witness :
  (deferred_wf v_A /\ pending v_A = [] /\ active v_A = Some 0%nat /\ 0%nat <> 1%nat /\
   run_member (Update (states 0) 20) (heap v_A) = Some (("To B"%string, Some 1%nat), tt) /\
   run_member (OnExit (states 0)) tt = Some (tt, tt) /\
   run_member (OnEnter (states 1)) tt = Some (tt, tt)) /\
  (exists w',
     Run states 0 20 v_A = Some (Some "To B"%string, w') /\ active w' = Some 1%nat /\
     calls w' = calls v_A ++
                in_progress [CbUpdate 0 20; CbOnExit 0; CbOnEnter 1] /\
     lifecycle_calls (calls_since v_A w') = [CbOnExit 0; CbOnEnter 1]) /\
  (forall (v : @World Z unit NonOwningPolicy) (t : nat) (u : unit),
     active v <> Some t ->
     run_member (OnEnter (states t)) (heap v) = Some (tt, u) ->
     (exists v',
        EnterStateImmediate states 0 (Some t) v = Some (Some t, v') /\
        active v' = Some t /\
        calls v' = calls v ++ in_progress [CbOnEnter t] /\
        lifecycle_calls (calls_since v v') = [CbOnEnter t]) /\
     (m_InProgress (fsm v) = false ->
      exists v',
        EnterState states 0 (Some t) v = Some (Some t, v') /\
        active v' = Some t /\
        calls v' = calls v ++ in_progress [CbOnEnter t] /\
        lifecycle_calls (calls_since v v') = [CbOnEnter t])).
Proof.
  split; [split; [compute_wf | repeat split; (reflexivity || discriminate)]|].
  apply (transition_lifecycle_calls states 0 20 v_A 0 1 "To B"%string tt tt tt);
    try reflexivity; [compute_wf | lia].
Defined.

(** C2 fails for [EnterState]: with state 0 active and the machine idle,
    [EnterState(1)] installs state 1 and calls [OnEnter] on it, and state 0
    never gets its [OnExit]. *)
Lemma EnterState_skips_OnExit :
  exists w',
    EnterState states 0 (Some 1%nat) v_A = Some (Some 1%nat, w') /\
    m_InProgress (fsm v_A) = false /\
    active v_A = Some 0%nat /\ active w' = Some 1%nat /\
    lifecycle_calls (calls_since v_A w') = [CbOnEnter 1] /\
    count_calls (is_exit_of 0) (calls_since v_A w') = 0%nat /\
    lifecycle_calls (calls_since v_A w') <> [CbOnExit 0; CbOnEnter 1].
Proof. compute_world. Qed.

(** With the non-owning policy [EnterState] given the handle that is already
    active calls [OnEnter] on that state once more. *)
Example EnterState_same_handle_calls_OnEnter :
  exists w',
    EnterState states 0 (Some 0%nat) v_A = Some (Some 0%nat, w') /\
    m_InProgress (fsm v_A) = false /\
    active v_A = Some 0%nat /\ active w' = Some 0%nat /\
    lifecycle_calls (calls_since v_A w') = [CbOnEnter 0] /\
    count_calls is_enter (calls_since v_A w') <> 0%nat.
Proof. compute_world. Qed.

Lemma demo_states_no_CallRun : states_no_CallRun states.
Proof.
  intros s. split; [|split].
  - destruct s as [|[|[|[|[|s]]]]]; simpl; auto.
  - destruct s as [|[|[|[|[|s]]]]]; simpl; auto.
  - intros In. destruct s as [|[|[|[|[|s]]]]]; simpl;
      unfold UpdateA, UpdateOther;
      repeat match goal with
             | |- context [if ?c then _ else _] => destruct c
             end; simpl; auto.
Qed.

Lemma deferred_requests_fifo_witness :
  (deferred_wf v_A /\ fifo_inv v_A) /\
  (forall In r w',
     Run states 1 In v_A = Some (r, w') ->
     deferred_wf w' /\ fifo_inv w' /\ slack v_A <= slack w' /\
     (states_no_CallRun states ->
      exists ds, dequeued w' = dequeued v_A ++ ds /\ (length ds <= 1)%nat)) /\
  (forall h r w',
     EnterState states 1 h v_A = Some (r, w') ->
     deferred_wf w' /\ fifo_inv w' /\
     (states_no_CallRun states -> dequeued w' = dequeued v_A)) /\
  (forall h r w',
     EnterStateImmediate states 1 h v_A = Some (r, w') ->
     deferred_wf w' /\ fifo_inv w' /\
     (states_no_CallRun states -> dequeued w' = dequeued v_A)) /\
  (forall h,
     m_InProgress (fsm v_A) = true ->
     exists w',
       EnterState states 1 h v_A = Some (active v_A, w') /\
       pending w' = pending v_A ++ stored v_A h /\
       queued w' = queued v_A ++ stored v_A h /\ dequeued w' = dequeued v_A) /\
  (forall In s out next u1 u2 u3,
     active v_A = Some s ->
     run_member (Update (states s) In) (heap v_A) = Some ((out, next), u1) ->
     run_member (exit_script states s next) u1 = Some (tt, u2) ->
     run_member (enter_script states
                   (default None (head (pending v_A ++ pushed v_A s next)))) u2
       = Some (tt, u3) ->
     exists w',
       Run states 1 In v_A = Some (Some out, w') /\
       queued w' = queued v_A ++ pushed v_A s next /\
       dequeued w' = dequeued v_A ++
                     option_list (head (pending v_A ++ pushed v_A s next)) /\
       active w' = default (Some s) (head (pending v_A ++ pushed v_A s next)) /\
       pending w' = tail (pending v_A ++ pushed v_A s next)).
Proof.
  split; [split; [compute_wf | reflexivity]|].
  apply (deferred_requests_fifo states 1 v_A); [compute_wf | reflexivity].
Defined.

(** Three requests submitted in one [Update] (two by [EnterState], the third
    by its return value) are applied one per [Run], in that order. *)
Example three_requests_one_per_Run :
  exists w1 w2 w3,
    Run states 1 8 v_A = Some (Some "Three"%string, w1) /\
    queued w1 = [Some 1%nat; Some 2%nat; Some 3%nat] /\
    active w1 = Some 1%nat /\ pending w1 = [Some 2%nat; Some 3%nat] /\
    Run states 1 1 w1 = Some (Some "Stay"%string, w2) /\
    active w2 = Some 2%nat /\ pending w2 = [Some 3%nat] /\
    Run states 1 1 w2 = Some (Some "Stay"%string, w3) /\
    active w3 = Some 3%nat /\ pending w3 = [] /\
    dequeued w3 = [Some 1%nat; Some 2%nat; Some 3%nat].
Proof.
  do 3 eexists.
  split; [vm_compute; reflexivity|].
  split; [reflexivity|]. split; [reflexivity|]. split; [reflexivity|].
  split; [vm_compute; reflexivity|].
  split; [reflexivity|]. split; [reflexivity|].
  split; [vm_compute; reflexivity|].
  repeat split; reflexivity.
Qed.

Ltac compute_hyps :=
  first [ compute_wf | vm_compute; reflexivity | discriminate ].

Lemma full_queue_drops_request_witness :
  (deferred_wf v_full /\ active v_full = Some 4%nat /\
   exec (api_at states 1) (Update (states 4) 0) (update_called 4 0 v_full)
     = Some (("Terminate"%string, None), v_full_update) /\
   exec (api_at states 1) (OnExit (states 4)) (exit_called 4 v_full_update)
     = Some (tt, v_full_exit) /\
   Z.of_nat (length (pending v_full_exit)) = DeferredCapacity /\
   StateTransitionDeferred None v_full_exit = Some (Some 4%nat, v_full_push) /\
   Run_drain states (api_at states 1) v_full_push = Some (tt, v_full_drain)) /\
  Queue DeferredCapacity None (m_DeferredState (fsm v_full_exit))
    = (false, m_DeferredState (fsm v_full_exit)) /\
  (Some 4%nat = active v_full_exit /\ active v_full_push = active v_full_exit /\
   m_DeferredState (fsm v_full_push) = m_DeferredState (fsm v_full_exit) /\
   pending v_full_push = pending v_full_exit /\
   queued v_full_push = queued v_full_exit) /\
  Run states 1 0 v_full = Some (Some "Terminate"%string, clear_flag v_full_drain) /\
  (m_InProgress (fsm v_full_exit) = true ->
   exists w',
     EnterState states 1 (Some 3%nat) v_full_exit = Some (active v_full_exit, w') /\
     active w' = active v_full_exit /\ pending w' = pending v_full_exit /\
     queued w' = queued v_full_exit /\ calls w' = calls v_full_exit) /\
  (forall In' r w',
     Run states 1 In' v_full = Some (r, w') ->
     Size (m_DeferredState (fsm w')) <= DeferredCapacity) /\
  (forall h' r w',
     EnterState states 1 h' v_full = Some (r, w') ->
     Size (m_DeferredState (fsm w')) <= DeferredCapacity) /\
  (forall h' r w',
     EnterStateImmediate states 1 h' v_full = Some (r, w') ->
     Size (m_DeferredState (fsm w')) <= DeferredCapacity).
Proof.
  split; [repeat (split; [compute_hyps|]); compute_hyps|].
  apply (full_queue_drops_request states 1 0 (Some 3%nat) v_full 4
           "Terminate"%string None (Some 4%nat)
           v_full_update v_full_exit v_full_push v_full_drain);
    compute_hyps.
Defined.

Lemma null_request_halts_witness :
  (deferred_wf v_A /\ active v_A = Some 0%nat /\
   exec (api_at states 1) (Update (states 0) 11) (update_called 0 11 v_A)
     = Some (("Halt"%string, Some 0%nat), v_A_update) /\
   Run_exit states (api_at states 1) 0 (Some 0%nat) v_A_update = Some (tt, v_A_exit) /\
   pending v_A_exit = [None; Some 1%nat]) /\
  exists w',
    Run states 1 11 v_A = Some (Some "Halt"%string, w') /\
    active w' = None /\
    GetFSM_State (fsm w') = Halt /\
    calls w' = calls v_A_exit /\
    pending w' = tail (pending v_A_exit) /\
    (forall depth' ins, exists w'',
       RunAll states depth' ins w' = Some (map (fun _ => None) ins, w'') /\
       active w'' = None /\ calls w'' = calls w' /\ pending w'' = pending w') /\
    (forall depth' t u3,
       run_member (OnEnter (states t)) (heap w') = Some (tt, u3) ->
       (exists w'', EnterState states depth' (Some t) w' = Some (Some t, w'') /\
                    active w'' = Some t /\ GetFSM_State (fsm w'') = Running) /\
       (exists w'', EnterStateImmediate states depth' (Some t) w' = Some (Some t, w'') /\
                    active w'' = Some t /\ GetFSM_State (fsm w'') = Running)).
Proof.
  split; [repeat (split; [compute_hyps|]); compute_hyps|].
  apply (null_request_halts states 1 11 v_A 0 "Halt"%string (Some 0%nat)
           v_A_update v_A_exit);
    compute_hyps.
Defined.

Lemma full_queue_Run_installs_oldest_witness :
  (deferred_wf v_full /\ active v_full = Some 4%nat /\
   exec (api_at states 1) (Update (states 4) 0) (update_called 4 0 v_full)
     = Some (("Terminate"%string, None), v_full_update) /\
   exec (api_at states 1) (OnExit (states 4)) (exit_called 4 v_full_update)
     = Some (tt, v_full_exit) /\
   pending v_full_exit = Some 1%nat :: tail (pending v_full_exit) /\
   Z.of_nat (length (pending v_full_exit)) = DeferredCapacity /\
   Some 1%nat <> Some 4%nat) /\
  (exists w2,
     StateTransitionDeferred None v_full_exit = Some (active v_full_exit, w2) /\
     active w2 = active v_full_exit /\ pending w2 = pending v_full_exit /\
     queued w2 = queued v_full_exit) /\
  exists w',
    Run states 1 0 v_full = Some (Some "Terminate"%string, w') /\
    active w' = Some 1%nat /\
    active w' <> Some 4%nat /\
    GetFSM_State (fsm w') = Running /\
    pending w' = tail (pending v_full_exit) /\
    queued w' = queued v_full_exit /\
    calls w' = calls v_full_exit ++
               map (fun c => mkEvent c (m_InProgress (fsm v_full_exit)))
                   (enter_calls (Some 1%nat)).
Proof.
  split; [repeat (split; [compute_hyps|]); compute_hyps|].
  apply (full_queue_Run_installs_oldest states 1 0 v_full 4 "Terminate"%string
           None (Some 1%nat) (tail (pending v_full_exit))
           v_full_update v_full_exit tt);
    compute_hyps.
Defined.

(** C7 fails: state 4 is active, the queue is full, [Update] asks to
    terminate; the request is dropped, and the [Run] ends with state 1
    active, the oldest pending request, not with state 4. *)
Lemma full_queue_Run_changes_state :
  exists w',
    Run states 1 0 v_full = Some (Some "Terminate"%string, w') /\
    active v_full = Some 4%nat /\
    Size (m_DeferredState (fsm v_full)) = DeferredCapacity /\
    queued w' = queued v_full /\
    count_calls (is_exit_of 4) (calls_since v_full w') = 1%nat /\
    active w' = Some 1%nat /\
    active w' <> active v_full.
Proof. compute_world. Qed.

Lemma v_halted_active : active v_halted = None /\ pending v_halted = [Some 1%nat].
Proof. split; reflexivity. Qed.

Lemma halted_Run_keeps_queue_witness :
  active v_halted = None /\
  (forall In, exists w',
     Run states 1 In v_halted = Some (None, w') /\
     m_DeferredState (fsm w') = m_DeferredState (fsm v_halted) /\
     Size (m_DeferredState (fsm w')) = Size (m_DeferredState (fsm v_halted)) /\
     pending w' = pending v_halted /\
     queued w' = queued v_halted /\ dequeued w' = dequeued v_halted /\
     calls w' = calls v_halted /\
     active w' = None) /\
  (forall ins, exists w',
     RunAll states 1 ins v_halted = Some (map (fun _ => None) ins, w') /\
     m_DeferredState (fsm w') = m_DeferredState (fsm v_halted) /\
     pending w' = pending v_halted /\
     queued w' = queued v_halted /\ dequeued w' = dequeued v_halted /\
     calls w' = calls v_halted /\
     active w' = None).
Proof.
  split; [reflexivity|].
  apply (halted_Run_keeps_queue states 1 v_halted). reflexivity.
Defined.

End DemoFacts.

(** * The byte cache *)

Section CachedBufferFacts.

Context {Args : Type}.
Variable BufferSize : Z.

Lemma u64_small (x : Z) : 0 <= x < 2 ^ 32 -> u64 x = x.
Proof. intros Hx. unfold u64. apply Z.mod_small. lia. Qed.

Lemma memcpy_prefix (dst src buf : list Byte.byte) (to : Z) :
  memcpy dst to src = Some buf ->
  take (Z.to_nat to) buf = take (Z.to_nat to) dst /\
  length buf = length dst /\
  0 <= to /\ to + Z.of_nat (length src) <= Z.of_nat (length dst).
Proof.
  unfold memcpy.
  destruct (Z.leb_spec 0 to); [|done].
  destruct (Z.leb_spec (to + Z.of_nat (length src)) (Z.of_nat (length dst))); [|done].
  simpl. intros E. injection E as <-.
  split; [|split; [|lia]].
  - rewrite take_app_le by (rewrite length_take; lia).
    rewrite take_take. f_equal. lia.
  - rewrite !length_app, length_take, length_drop. lia.
Qed.

Lemma memcpy_front_prefix (buf buf' : list Byte.byte) (from n : Z) :
  0 <= from -> 0 <= n ->
  memcpy_front buf from n = Some buf' ->
  take (Z.to_nat n) buf' = take (Z.to_nat n) (drop (Z.to_nat from) buf) /\
  length buf' = length buf.
Proof.
  intros Hfrom Hn. unfold memcpy_front.
  destruct (Z.leb_spec (from + n) (Z.of_nat (length buf))); [|done].
  destruct ((n <=? from) || (n =? 0)); [|done]. simpl.
  unfold memcpy.
  set (src := take (Z.to_nat n) (drop (Z.to_nat from) buf)).
  assert (Hlen : length src = Z.to_nat n).
  { unfold src. rewrite length_take, length_drop. lia. }
  destruct (Z.leb_spec 0 0); [|lia].
  destruct (Z.leb_spec (0 + Z.of_nat (length src)) (Z.of_nat (length buf))); [|lia].
  simpl. intros E. injection E as <-.
  split.
  - rewrite take_app_le by lia. rewrite take_ge by lia. done.
  - rewrite length_app, length_drop. lia.
Qed.

(** C10 (as amended). A flush that writes nothing fails the [Store]: in the
    first revision, when the callback reports any count other than the
    cached length, and in the second, when it reports zero, [Store] returns
    [false] and the cache, bytes and count, is as before.  In the second
    revision a callback that reports only [n] of the cached bytes written,
    [0 < n], is not a failure: [Store] goes on with the new data, and
    whenever it completes the cached bytes after the first [n] are still in
    the cache, in order, at its front. *)
Theorem failed_flush_keeps_cache
    (Data : list Byte.byte) (a : Args)
    (bA : @CachedBufferA.CachedBuffer Args)
    (bB : @CachedBufferB.CachedBuffer Args) :
  CachedBufferA.wf BufferSize bA -> CachedBufferB.wf BufferSize bB ->
  0 < CachedBufferA.m_BufferOffset bA -> 0 < CachedBufferB.m_BufferOffset bB ->
  BufferSize - CachedBufferA.m_BufferOffset bA < Z.of_nat (length Data) ->
  BufferSize - CachedBufferB.m_BufferOffset bB < Z.of_nat (length Data) ->
  let rA := CachedBufferA.m_Callback bA (CachedBufferA.cached bA) a in
  let rB := CachedBufferB.m_Callback bB (CachedBufferB.cached bB) a in
  (u32 rA.1 <> CachedBufferA.m_BufferOffset bA ->
   CachedBufferA.Store BufferSize Data bA a = Some (false, bA, rA.2)) /\
  (u32 rB.1 = 0 ->
   CachedBufferB.Store BufferSize Data bB a = Some (false, bB, rB.2)) /\
  (0 < u32 rB.1 < CachedBufferB.m_BufferOffset bB ->
   forall res b' a',
     CachedBufferB.Store BufferSize Data bB a = Some (res, b', a') ->
     take (Z.to_nat (CachedBufferB.m_BufferOffset bB - u32 rB.1))
          (CachedBufferB.m_Buffer b')
       = drop (Z.to_nat (u32 rB.1)) (CachedBufferB.cached bB) /\
     CachedBufferB.m_BufferOffset bB - u32 rB.1 <= CachedBufferB.m_BufferOffset b').
Proof.
  intros (HlenA & HoffA & HcapA) (HlenB & HoffB & HcapB) HposA HposB HflushA HflushB rA rB.
  split; [|split].
  - intros Hfail.
    assert (E : CachedBufferA.EmptyBufferCache bA a = (false, bA, rA.2)).
    { unfold CachedBufferA.EmptyBufferCache.
      destruct (Z.eqb_spec (CachedBufferA.m_BufferOffset bA) 0) as [E0|E0]; [lia|].
      fold (CachedBufferA.cached bA). fold rA.
      destruct (Z.eqb_spec (u32 rA.1) (CachedBufferA.m_BufferOffset bA)); [done|].
      destruct (Z.eqb_spec (CachedBufferA.m_BufferOffset bA) 0); [lia|done]. }
    unfold CachedBufferA.Store.
    destruct (Z.gtb_spec (Z.of_nat (length Data)) BufferSize).
    + by rewrite E.
    + rewrite u64_small by lia.
      destruct (Z.gtb_spec (Z.of_nat (length Data))
                  (BufferSize - CachedBufferA.m_BufferOffset bA)); [|lia].
      by rewrite E.
  - intros Hzero.
    assert (E : CachedBufferB.EmptyBufferCache bB a = Some (false, bB, rB.2)).
    { unfold CachedBufferB.EmptyBufferCache.
      destruct (Z.eqb_spec (CachedBufferB.m_BufferOffset bB) 0) as [E0|E0]; [lia|].
      fold (CachedBufferB.cached bB). fold rB. by rewrite Hzero. }
    unfold CachedBufferB.Store.
    destruct (Z.gtb_spec (Z.of_nat (length Data)) BufferSize).
    + by rewrite E.
    + rewrite u64_small by lia.
      destruct (Z.gtb_spec (Z.of_nat (length Data))
                  (BufferSize - CachedBufferB.m_BufferOffset bB)); [|lia].
      by rewrite E.
  - intros Hpart res b' a' HStore.
    set (n := u32 rB.1) in *.
    set (off := CachedBufferB.m_BufferOffset bB) in *.
    assert (Hflush : forall ok b1 a1,
      CachedBufferB.EmptyBufferCache bB a = Some (ok, b1, a1) ->
      ok = true /\
      take (Z.to_nat (off - n)) (CachedBufferB.m_Buffer b1)
        = drop (Z.to_nat n) (CachedBufferB.cached bB) /\
      CachedBufferB.m_BufferOffset b1 = off - n /\
      length (CachedBufferB.m_Buffer b1) = length (CachedBufferB.m_Buffer bB)).
    { intros ok b1 a1. unfold CachedBufferB.EmptyBufferCache.
      fold off. destruct (Z.eqb_spec off 0) as [E0|E0]; [lia|].
      change (CachedBufferB.m_Callback bB
                (take (Z.to_nat off) (CachedBufferB.m_Buffer bB)) a) with rB.
      change (u32 rB.1) with n.
      destruct (Z.eqb_spec n 0) as [En|En]; [lia|].
      rewrite u64_small by lia.
      destruct (memcpy_front (CachedBufferB.m_Buffer bB) n (off - n))
        as [buf|] eqn:Em; [|done].
      intros E. injection E as <- <- <-. simpl.
      assert (Hn0 : 0 <= n) by lia. assert (Hl0 : 0 <= off - n) by lia.
      destruct (memcpy_front_prefix _ _ _ _ Hn0 Hl0 Em) as [P1 P2].
      split; [done|]. split; [|done].
      rewrite P1. unfold CachedBufferB.cached. fold off.
      rewrite take_drop_commute. do 2 f_equal. lia. }
    unfold CachedBufferB.Store in HStore. fold off in HStore.
    assert (Happend : forall b1 a1,
      take (Z.to_nat (off - n)) (CachedBufferB.m_Buffer b1)
        = drop (Z.to_nat n) (CachedBufferB.cached bB) ->
      CachedBufferB.m_BufferOffset b1 = off - n ->
      length (CachedBufferB.m_Buffer b1) = length (CachedBufferB.m_Buffer bB) ->
      CachedBufferB.Append Data b1 a1 = Some (res, b', a') ->
      take (Z.to_nat (off - n)) (CachedBufferB.m_Buffer b')
        = drop (Z.to_nat n) (CachedBufferB.cached bB) /\
      off - n <= CachedBufferB.m_BufferOffset b').
    { intros b1 a1 Hb1 Ho1 Hl1. unfold CachedBufferB.Append. rewrite Ho1.
      destruct (memcpy (CachedBufferB.m_Buffer b1) (off - n) Data)
        as [buf|] eqn:Em; [|done].
      intros E. injection E as <- <- <-. simpl.
      destruct (memcpy_prefix _ _ _ _ Em) as (P1 & P2 & P3 & P4).
      rewrite P1. split; [done|].
      rewrite u64_small by lia. lia. }
    destruct (Z.gtb_spec (Z.of_nat (length Data)) BufferSize).
    + destruct (CachedBufferB.EmptyBufferCache bB a) as [[[ok b1] a1]|] eqn:E;
        [|done].
      destruct (Hflush ok b1 a1 eq_refl) as (-> & H1 & H2 & H3).
      injection HStore as <- <- <-. split; [done|lia].
    + rewrite u64_small in HStore by lia.
      destruct (Z.gtb_spec (Z.of_nat (length Data)) (BufferSize - off)); [|lia].
      destruct (CachedBufferB.EmptyBufferCache bB a) as [[[ok b1] a1]|] eqn:E;
        [|done].
      destruct (Hflush ok b1 a1 eq_refl) as (-> & H1 & H2 & H3).
      by apply (Happend b1 a1).
Qed.

End CachedBufferFacts.

Section DemoCacheFacts.

Import DemoCache.

Lemma failed_flush_keeps_cache_witness :
  (CachedBufferA.wf 8 (cacheA take_three) /\
   CachedBufferB.wf 8 (cacheB take_three) /\
   CachedBufferB.cached (cacheB take_three) = five /\
   0 < u32 (take_three five []).1 < CachedBufferB.m_BufferOffset (cacheB take_three)) /\
  (CachedBufferA.Store 8 four (cacheA take_three) []
     = Some (false, cacheA take_three, [five])) /\
  (forall res b' a',
     CachedBufferB.Store 8 four (cacheB take_three) [] = Some (res, b', a') ->
     take 2 (CachedBufferB.m_Buffer b') = [Byte.x04; Byte.x05] /\
     2 <= CachedBufferB.m_BufferOffset b').
Proof.
  assert (WA : CachedBufferA.wf 8 (cacheA take_three)).
  { unfold CachedBufferA.wf. vm_compute. repeat split; discriminate. }
  assert (WB : CachedBufferB.wf 8 (cacheB take_three)).
  { unfold CachedBufferB.wf. vm_compute. repeat split; discriminate. }
  split.
  { split; [exact WA|]. split; [exact WB|]. split; [reflexivity|].
    vm_compute. split; reflexivity. }
  destruct (failed_flush_keeps_cache 8 four [] (cacheA take_three)
              (cacheB take_three) WA WB) as (HA & _ & HB);
    try (vm_compute; reflexivity).
  split.
  - apply HA. vm_compute. discriminate.
  - intros res b' a' E. apply (HB ltac:(vm_compute; split; reflexivity) res b' a' E).
Defined.

(** C10 fails in the second revision: five bytes are cached, four more do
    not fit, the callback writes only three of the five; [Store] returns
    [true], not [false].  (The two unwritten bytes are kept, before the new
    four.) *)
Lemma partial_flush_Store_returns_true :
  exists b',
    CachedBufferB.cached (cacheB take_three) = five /\
    (take_three five []).1 = 3 /\
    CachedBufferB.Store 8 four (cacheB take_three) [] = Some (true, b', [five]) /\
    CachedBufferB.cached b' = [Byte.x04; Byte.x05] ++ four.
Proof.
  eexists. split; [vm_compute; reflexivity|]. split; [reflexivity|].
  split; [vm_compute; reflexivity|]. vm_compute. reflexivity.
Qed.

(** The test [StoreFailure_DoesNotModifyBuffer], on both revisions: eight
    bytes fill the cache without a flush, and a [Flush] the callback refuses
    leaves all eight cached. *)
Example test_StoreFailure_DoesNotModifyBuffer :
  let Data := five ++ [Byte.x06; Byte.x07; Byte.x08] in
  (exists b,
     CachedBufferA.Store 8 Data (CachedBufferA.Create 8 refuse) []
       = Some (true, b, []) /\
     CachedBufferA.Size (CachedBufferA.Flush b []).1 = 8) /\
  (exists b b',
     CachedBufferB.Store 8 Data (CachedBufferB.Create 8 refuse) []
       = Some (true, b, []) /\
     CachedBufferB.Flush b [] = Some (b', [Data]) /\
     CachedBufferB.Size b' = 8).
Proof.
  split.
  - eexists. split; [vm_compute; reflexivity|]. vm_compute. reflexivity.
  - do 2 eexists. split; [vm_compute; reflexivity|].
    split; [vm_compute; reflexivity|]. vm_compute. reflexivity.
Qed.

End DemoCacheFacts.

(** * More about the ring buffer *)

Section CircularBufferMoreFacts.

Context {T : Type} `{Inhabited T} `{EqDecision T}.
Variable BuffSize : Z.
Hypothesis BuffSize_range : 0 < BuffSize < 2 ^ 32.

Lemma ring_step_refines (op : QueueOp T) (b : CircularBuffer T) :
  cb_wf BuffSize b ->
  (ring_step BuffSize op b).1 = (queue_step BuffSize op (contents BuffSize b)).1 /\
  contents BuffSize (ring_step BuffSize op b).2
    = (queue_step BuffSize op (contents BuffSize b)).2 /\
  cb_wf BuffSize (ring_step BuffSize op b).2.
Proof.
  intros Hwf. destruct op as [x| |]; simpl.
  - rewrite <- (size_contents BuffSize b Hwf).
    destruct (Z.eqb_spec (m_Size b) BuffSize) as [E|E].
    + rewrite Queue_full by done. done.
    + destruct (Queue_contents BuffSize BuffSize_range x b Hwf) as [E1 E2].
      { destruct Hwf as (_ & _ & ? & _). lia. }
      rewrite E2. rewrite E1 at 1. simpl.
      split; [done|]. split; [done|]. by apply Queue_wf.
  - pose proof (Dequeue_contents BuffSize BuffSize_range b Hwf) as D.
    pose proof (Dequeue_wf BuffSize BuffSize_range b Hwf) as W.
    destruct (contents BuffSize b) as [|x rest] eqn:Ec.
    + rewrite D. simpl. rewrite Ec. done.
    + destruct D as [D1 D2]. rewrite D1, D2. done.
  - unfold Size. rewrite <- (size_contents BuffSize b Hwf). done.
Qed.

Lemma ring_run_refines (ops : list (QueueOp T)) : forall b : CircularBuffer T,
  cb_wf BuffSize b ->
  (ring_run BuffSize ops b).1 = (queue_run BuffSize ops (contents BuffSize b)).1 /\
  contents BuffSize (ring_run BuffSize ops b).2
    = (queue_run BuffSize ops (contents BuffSize b)).2 /\
  cb_wf BuffSize (ring_run BuffSize ops b).2.
Proof.
  induction ops as [|op ops IH]; intros b Hwf; simpl; [done|].
  destruct (ring_step_refines op b Hwf) as (E1 & E2 & W).
  destruct (IH _ W) as (I1 & I2 & I3).
  rewrite E1, I1, I2, E2. done.
Qed.

(** X1. Any run of [Queue], [Dequeue] and [Size] calls on a well-formed ring
    gives the results of the same calls on a list that holds the pending
    items oldest first and refuses an item when it holds [BuffSize] of them;
    the pending items agree afterwards and the ring is still well formed,
    wherever its indices have wrapped to.  A default-constructed ring is
    well formed and holds nothing. *)
Theorem ring_refines_queue (ops : list (QueueOp T)) (b : CircularBuffer T) :
  cb_wf BuffSize b ->
  (ring_run BuffSize ops b).1 = (queue_run BuffSize ops (contents BuffSize b)).1 /\
  contents BuffSize (ring_run BuffSize ops b).2
    = (queue_run BuffSize ops (contents BuffSize b)).2 /\
  cb_wf BuffSize (ring_run BuffSize ops b).2 /\
  cb_wf BuffSize (EmptyCircularBuffer (T:=T) BuffSize) /\
  contents BuffSize (EmptyCircularBuffer (T:=T) BuffSize) = [].
Proof.
  intros Hwf. destruct (ring_run_refines ops b Hwf) as (E1 & E2 & W).
  split; [done|]. split; [done|]. split; [done|].
  split; [by apply EmptyCircularBuffer_wf | by apply EmptyCircularBuffer_contents].
Qed.

(** X2. On a well-formed ring the observers read the pending items: [Peek]
    is the oldest one, the one [Dequeue] would return, [Empty] says whether
    there is none, [Size] is their number and never exceeds [MaxCapacity]. *)
Theorem ring_observers (b : CircularBuffer T) :
  cb_wf BuffSize b ->
  Peek b = head (contents BuffSize b) /\
  Peek b = (Dequeue BuffSize b).1 /\
  Empty b = bool_decide (contents BuffSize b = []) /\
  Size b = Z.of_nat (length (contents BuffSize b)) /\
  Size b <= MaxCapacity BuffSize b.
Proof.
  intros Hwf. pose proof (size_contents BuffSize b Hwf) as Hs.
  destruct Hwf as (Hlen & Hhead & Hsize & Htail).
  assert (HP : Peek b = (Dequeue BuffSize b).1).
  { unfold Peek, Dequeue. by destruct (m_Size b =? 0). }
  split; [|split; [done|split; [|split]]].
  - unfold Peek, contents.
    destruct (Z.eqb_spec (m_Size b) 0) as [E|E].
    + by rewrite E.
    + destruct (Z.to_nat (m_Size b)) as [|n] eqn:En; [lia|]. done.
  - unfold Empty. destruct (Z.eqb_spec (m_Size b) 0) as [E|E].
    + rewrite E in Hs. destruct (contents BuffSize b); [done|simpl in Hs; lia].
    + destruct (contents BuffSize b) eqn:Ec; [simpl in Hs; lia|].
      symmetry. by apply bool_decide_eq_false.
  - exact Hs.
  - unfold Size, MaxCapacity. lia.
Qed.

(** X3. The move constructor hands the pending items to the new buffer and
    leaves its source an empty ring that works like a fresh one: any run of
    calls on it gives the results of the same calls on the empty list. *)
Theorem MoveConstruct_transfers (Other : CircularBuffer T) (ops : list (QueueOp T)) :
  cb_wf BuffSize Other ->
  cb_wf BuffSize (MoveConstruct Other).1 /\
  contents BuffSize (MoveConstruct Other).1 = contents BuffSize Other /\
  cb_wf BuffSize (MoveConstruct Other).2 /\
  Dequeue BuffSize (MoveConstruct Other).2 = (None, (MoveConstruct Other).2) /\
  (ring_run BuffSize ops (MoveConstruct Other).2).1 = (queue_run BuffSize ops []).1.
Proof.
  intros Hwf.
  assert (W2 : cb_wf BuffSize (MoveConstruct Other).2).
  { destruct Hwf as (Hlen & _). unfold cb_wf. simpl.
    split; [done|]. split; [lia|]. split; [lia|]. done. }
  split; [exact Hwf|]. split; [done|]. split; [exact W2|]. split; [done|].
  destruct (ring_run_refines ops _ W2) as (E & _). exact E.
Qed.

(** X4. [operator==] compares the arrays and not the indices: a ring
    compares equal to what [Dequeue] leaves of it, although the pending
    items differ whenever there was one. *)
Theorem CircularBuffer_eq_ignores_indices (b : CircularBuffer T) :
  cb_wf BuffSize b -> contents BuffSize b <> [] ->
  CircularBuffer_eq b (Dequeue BuffSize b).2 = true /\
  contents BuffSize (Dequeue BuffSize b).2 <> contents BuffSize b.
Proof.
  intros Hwf Hne. split.
  - unfold CircularBuffer_eq, Dequeue. apply bool_decide_eq_true.
    by destruct (m_Size b =? 0).
  - pose proof (Dequeue_contents BuffSize BuffSize_range b Hwf) as D.
    destruct (contents BuffSize b) as [|x rest] eqn:Ec; [done|].
    destruct D as [_ D2]. rewrite D2. intros E.
    apply (f_equal length) in E. simpl in E. lia.
Qed.

(** The earlier revision. *)

Lemma Old_Queue_spec (x : T) (b : CircularBuffer T) :
  cb_wf BuffSize b ->
  cb_wf BuffSize (CircularBufferOld.Queue BuffSize x b).2 /\
  (CircularBufferOld.Queue BuffSize x b).1 = negb (m_Size b =? BuffSize) /\
  CircularBufferOld.contents BuffSize (CircularBufferOld.Queue BuffSize x b).2
    = CircularBufferOld.contents BuffSize b ++
      (if m_Size b =? BuffSize then [] else [x]).
Proof.
  intros Hwf.
  unfold CircularBufferOld.Queue, CircularBufferOld.NextWriteIndex.
  destruct (Z.eqb_spec (m_Size b) BuffSize) as [E|E]; simpl.
  { rewrite app_nil_r. done. }
  destruct Hwf as (Hlen & Hhead & Hsize & Htail).
  assert (Ht : 0 <= m_Tail b < BuffSize).
  { rewrite Htail. apply Z.mod_pos_bound. lia. }
  fold (Advance BuffSize (m_Tail b) 1).
  pose proof (Advance_range BuffSize BuffSize_range _ Ht) as Ht'.
  pose proof (Advance_range BuffSize BuffSize_range _ Hhead) as Hh'.
  assert (Et : Advance BuffSize (m_Tail b) 1
               = (Advance BuffSize (m_Head b) 1 + m_Size b) mod BuffSize).
  { rewrite !Advance_one by done. rewrite Htail, !Zplus_mod_idemp_l.
    f_equal. lia. }
  split.
  - unfold cb_wf; simpl. rewrite length_insert. unfold u32.
    rewrite (Z.mod_small (m_Size b + 1)) by lia.
    split; [done|]. split; [done|]. split; [lia|].
    rewrite Et, Advance_one, Zplus_mod_idemp_l by done.
    rewrite Z.add_assoc. f_equal. lia.
  - split; [done|].
    unfold CircularBufferOld.contents; simpl. unfold u32.
    rewrite (Z.mod_small (m_Size b + 1)) by lia.
    replace (Z.to_nat (m_Size b + 1)) with (S (Z.to_nat (m_Size b))) by lia.
    rewrite (contents_from_snoc BuffSize BuffSize_range) by done.
    rewrite Z2Nat.id, <- Et by lia.
    rewrite list_lookup_total_insert_eq by lia.
    f_equal. apply (contents_from_insert_other BuffSize BuffSize_range); [done | lia |].
    intros j Hj. rewrite Et.
    apply (mod_add_distinct BuffSize BuffSize_range); lia.
Qed.

Lemma Old_Dequeue_spec (b : CircularBuffer T) :
  cb_wf BuffSize b ->
  cb_wf BuffSize (CircularBufferOld.Dequeue BuffSize b).2 /\
  (CircularBufferOld.Dequeue BuffSize b).1 = head (CircularBufferOld.contents BuffSize b) /\
  CircularBufferOld.contents BuffSize (CircularBufferOld.Dequeue BuffSize b).2
    = tail (CircularBufferOld.contents BuffSize b).
Proof.
  intros (Hlen & Hhead & Hsize & Htail).
  unfold CircularBufferOld.Dequeue, CircularBufferOld.HasData,
    CircularBufferOld.contents.
  destruct (Z.eqb_spec (m_Size b) 0) as [E|E]; simpl.
  { rewrite E. simpl. split; [unfold cb_wf; auto|done]. }
  fold (Advance BuffSize (m_Head b) 1).
  pose proof (Advance_range BuffSize BuffSize_range _ Hhead) as Hh'.
  split.
  - unfold cb_wf; simpl. unfold u32.
    rewrite (Z.mod_small (m_Size b - 1)) by lia.
    split; [done|]. split; [done|]. split; [lia|].
    rewrite Advance_one, Zplus_mod_idemp_l, Htail by done. f_equal. lia.
  - unfold u32. rewrite (Z.mod_small (m_Size b - 1)) by lia.
    destruct (Z.to_nat (m_Size b)) as [|n] eqn:En; [lia|].
    replace (Z.to_nat (m_Size b - 1)) with n by lia. done.
Qed.

(** X5. The earlier revision of the ring, which writes and reads one slot
    after its indices, is the same queue: any run of [Queue], [Dequeue] and
    [Size] calls gives the results of the same calls on the reference
    list. *)
Theorem old_ring_refines_queue (ops : list (QueueOp T)) :
  forall b : CircularBuffer T,
  cb_wf BuffSize b ->
  (CircularBufferOld.run BuffSize ops b).1
    = (queue_run BuffSize ops (CircularBufferOld.contents BuffSize b)).1 /\
  CircularBufferOld.contents BuffSize (CircularBufferOld.run BuffSize ops b).2
    = (queue_run BuffSize ops (CircularBufferOld.contents BuffSize b)).2 /\
  cb_wf BuffSize (CircularBufferOld.run BuffSize ops b).2.
Proof.
  induction ops as [|op ops IH]; intros b Hwf; simpl; [done|].
  assert (Hs : m_Size b = Z.of_nat (length (CircularBufferOld.contents BuffSize b))).
  { unfold CircularBufferOld.contents.
    rewrite contents_from_length. destruct Hwf as (_ & _ & ? & _). lia. }
  assert (S1 : (CircularBufferOld.step BuffSize op b).1
               = (queue_step BuffSize op (CircularBufferOld.contents BuffSize b)).1 /\
               CircularBufferOld.contents BuffSize (CircularBufferOld.step BuffSize op b).2
               = (queue_step BuffSize op (CircularBufferOld.contents BuffSize b)).2 /\
               cb_wf BuffSize (CircularBufferOld.step BuffSize op b).2).
  { destruct op as [x| |]; simpl.
    - destruct (Old_Queue_spec x b Hwf) as (W & R & C).
      rewrite R, C, <- Hs.
      destruct (m_Size b =? BuffSize); simpl; rewrite ?app_nil_r; done.
    - destruct (Old_Dequeue_spec b Hwf) as (W & R & C).
      rewrite R, C.
      destruct (CircularBufferOld.contents BuffSize b); done.
    - unfold CircularBufferOld.Size. rewrite <- Hs. done. }
  destruct S1 as (E1 & E2 & W).
  destruct (IH _ W) as (I1 & I2 & I3).
  rewrite E1, I1, I2, E2. done.
Qed.

End CircularBufferMoreFacts.

Ltac ring_wf :=
  unfold cb_wf; vm_compute;
  repeat match goal with
         | |- _ /\ _ => split
         | |- _ = _ => reflexivity
         | |- _ -> False => discriminate
         end.

Example DemoRing_wrapped_state :
  m_Head DemoRing.wrapped = 2 /\ m_Tail DemoRing.wrapped = 1 /\
  contents 3 DemoRing.wrapped = [30; 80] /\
  m_Head DemoRing.wrapped_old = 2 /\ m_Tail DemoRing.wrapped_old = 1 /\
  CircularBufferOld.contents 3 DemoRing.wrapped_old = [30; 80].
Proof. vm_compute. done. Qed.

Lemma ring_refines_queue_witness :
  cb_wf 3 DemoRing.wrapped /\
  (ring_run 3 DemoRing.more DemoRing.wrapped).1
    = (queue_run 3 DemoRing.more (contents 3 DemoRing.wrapped)).1 /\
  contents 3 (ring_run 3 DemoRing.more DemoRing.wrapped).2
    = (queue_run 3 DemoRing.more (contents 3 DemoRing.wrapped)).2 /\
  cb_wf 3 (ring_run 3 DemoRing.more DemoRing.wrapped).2 /\
  cb_wf 3 (EmptyCircularBuffer (T:=Z) 3) /\
  contents 3 (EmptyCircularBuffer (T:=Z) 3) = [].
Proof.
  split; [ring_wf|].
  apply (ring_refines_queue 3); [lia | ring_wf].
Defined.

Lemma ring_observers_witness :
  cb_wf 3 DemoRing.wrapped /\
  Peek DemoRing.wrapped = head (contents 3 DemoRing.wrapped) /\
  Peek DemoRing.wrapped = (Dequeue 3 DemoRing.wrapped).1 /\
  Empty DemoRing.wrapped = bool_decide (contents 3 DemoRing.wrapped = []) /\
  Size DemoRing.wrapped = Z.of_nat (length (contents 3 DemoRing.wrapped)) /\
  Size DemoRing.wrapped <= MaxCapacity 3 DemoRing.wrapped.
Proof.
  split; [ring_wf|].
  apply (ring_observers 3); [lia | ring_wf].
Defined.

Lemma MoveConstruct_transfers_witness :
  cb_wf 3 DemoRing.wrapped /\
  cb_wf 3 (MoveConstruct DemoRing.wrapped).1 /\
  contents 3 (MoveConstruct DemoRing.wrapped).1 = contents 3 DemoRing.wrapped /\
  cb_wf 3 (MoveConstruct DemoRing.wrapped).2 /\
  Dequeue 3 (MoveConstruct DemoRing.wrapped).2
    = (None, (MoveConstruct DemoRing.wrapped).2) /\
  (ring_run 3 DemoRing.more (MoveConstruct DemoRing.wrapped).2).1
    = (queue_run 3 DemoRing.more []).1.
Proof.
  split; [ring_wf|].
  apply (MoveConstruct_transfers 3); [lia | ring_wf].
Defined.

Lemma CircularBuffer_eq_ignores_indices_witness :
  (cb_wf 3 DemoRing.wrapped /\ contents 3 DemoRing.wrapped <> []) /\
  CircularBuffer_eq DemoRing.wrapped (Dequeue 3 DemoRing.wrapped).2 = true /\
  contents 3 (Dequeue 3 DemoRing.wrapped).2 <> contents 3 DemoRing.wrapped.
Proof.
  split; [split; [ring_wf | vm_compute; discriminate]|].
  apply (CircularBuffer_eq_ignores_indices 3);
    [lia | ring_wf | vm_compute; discriminate].
Defined.

Lemma old_ring_refines_queue_witness :
  cb_wf 3 DemoRing.wrapped_old /\
  (CircularBufferOld.run 3 DemoRing.more DemoRing.wrapped_old).1
    = (queue_run 3 DemoRing.more (CircularBufferOld.contents 3 DemoRing.wrapped_old)).1 /\
  CircularBufferOld.contents 3 (CircularBufferOld.run 3 DemoRing.more DemoRing.wrapped_old).2
    = (queue_run 3 DemoRing.more (CircularBufferOld.contents 3 DemoRing.wrapped_old)).2 /\
  cb_wf 3 (CircularBufferOld.run 3 DemoRing.more DemoRing.wrapped_old).2.
Proof.
  split; [ring_wf|].
  apply (old_ring_refines_queue 3); [lia | ring_wf].
Defined.

(** * More about the version number *)

Lemma lor_shifted_add (a b k : Z) :
  0 <= k -> 0 <= b < 2 ^ k -> Z.lor (a * 2 ^ k) b = a * 2 ^ k + b.
Proof.
  intros Hk Hb. rewrite <- Z.add_lor_land.
  assert (E : Z.land (a * 2 ^ k) b = 0).
  { assert (Eb : b = Z.land (Z.ones k) b).
    { rewrite Z.land_comm, Z.land_ones by lia. symmetry. apply Z.mod_small. lia. }
    rewrite Eb, Z.land_assoc, Z.land_ones by lia.
    rewrite Z.mod_mul by lia. apply Z.land_0_l. }
  rewrite E. lia.
Qed.

Lemma SetVersion_arith (major minor patch : Z) :
  0 <= major <= 63 -> 0 <= minor <= 1023 -> 0 <= patch <= 65535 ->
  SetVersion major minor patch
    = Some (major * 2 ^ 26 + minor * 2 ^ 16 + patch).
Proof.
  intros Hma Hmi Hpa. rewrite SetVersion_in_range by done. f_equal.
  rewrite (lor_shifted_add major (minor * 2 ^ 16) 26) by lia.
  replace (major * 2 ^ 26 + minor * 2 ^ 16)
    with ((major * 2 ^ 10 + minor) * 2 ^ 16) by lia.
  apply lor_shifted_add; lia.
Qed.

Lemma Get_arith (v : Z) :
  0 <= v < 2 ^ 32 ->
  GetMajor v = v / 2 ^ 26 /\
  GetMinor v = (v / 2 ^ 16) mod 2 ^ 10 /\
  GetPatch v = v mod 2 ^ 16.
Proof.
  intros Hv. unfold GetMajor, GetMinor, GetPatch.
  destruct mask_values as (-> & -> & ->).
  change version.MajorShift with 26. change version.MinorShift with 16.
  rewrite !Z.land_ones, !Z.shiftr_div_pow2 by lia.
  unfold u8, u16.
  assert (B1 : 0 <= v / 2 ^ 26 < 2 ^ 6).
  { split; [apply Z.div_pos; lia|]. apply Z.div_lt_upper_bound; lia. }
  assert (B2 : 0 <= (v / 2 ^ 16) mod 2 ^ 10 < 2 ^ 10) by (apply Z.mod_pos_bound; lia).
  assert (B3 : 0 <= v mod 2 ^ 16 < 2 ^ 16) by (apply Z.mod_pos_bound; lia).
  rewrite (Z.mod_small (v / 2 ^ 26) (2 ^ 6)) by lia.
  rewrite (Z.mod_small (v / 2 ^ 26) (2 ^ 8)) by lia.
  rewrite (Z.mod_small ((v / 2 ^ 16) mod 2 ^ 10) (2 ^ 16)) by lia.
  rewrite (Z.mod_small (v mod 2 ^ 16) (2 ^ 16)) by lia. done.
Qed.

(** X6. Every 32-bit value is the packed form of the fields read from it:
    the fields are within their ranges (6, 10 and 16 bits), [SetVersion]
    accepts them and gives the value back. *)
Theorem version_decode_encode (v : Z) :
  0 <= v < 2 ^ 32 ->
  0 <= GetMajor v <= 63 /\ 0 <= GetMinor v <= 1023 /\ 0 <= GetPatch v <= 65535 /\
  SetVersion (GetMajor v) (GetMinor v) (GetPatch v) = Some v.
Proof.
  intros Hv. destruct (Get_arith v Hv) as (-> & -> & ->).
  assert (B1 : 0 <= v / 2 ^ 26 <= 63).
  { split; [apply Z.div_pos; lia|].
    apply Z.lt_succ_r. apply Z.div_lt_upper_bound; lia. }
  assert (B2 : 0 <= (v / 2 ^ 16) mod 2 ^ 10 < 2 ^ 10) by (apply Z.mod_pos_bound; lia).
  assert (B3 : 0 <= v mod 2 ^ 16 < 2 ^ 16) by (apply Z.mod_pos_bound; lia).
  split; [done|]. split; [lia|]. split; [lia|].
  rewrite SetVersion_arith by lia. f_equal.
  clear B1 B2 B3. divmod_arith.
Qed.

Lemma version_decode_encode_witness :
  0 <= 67239939 < 2 ^ 32 /\
  0 <= GetMajor 67239939 <= 63 /\ 0 <= GetMinor 67239939 <= 1023 /\
  0 <= GetPatch 67239939 <= 65535 /\
  SetVersion (GetMajor 67239939) (GetMinor 67239939) (GetPatch 67239939)
    = Some 67239939.
Proof. split; [lia | apply (version_decode_encode 67239939); lia]. Defined.

(** X7. Packed versions compare as unsigned integers the way their fields
    compare, major first, then minor, then patch; in particular two
    versions pack to the same value only if all three fields agree. *)
Theorem version_order
    (major1 minor1 patch1 major2 minor2 patch2 v1 v2 : Z) :
  0 <= major1 <= 63 -> 0 <= minor1 <= 1023 -> 0 <= patch1 <= 65535 ->
  0 <= major2 <= 63 -> 0 <= minor2 <= 1023 -> 0 <= patch2 <= 65535 ->
  SetVersion major1 minor1 patch1 = Some v1 ->
  SetVersion major2 minor2 patch2 = Some v2 ->
  (v1 < v2 <-> version_lt (major1, minor1, patch1) (major2, minor2, patch2)) /\
  (v1 = v2 <-> major1 = major2 /\ minor1 = minor2 /\ patch1 = patch2).
Proof.
  intros A1 B1 C1 A2 B2 C2 E1 E2.
  rewrite SetVersion_arith in E1, E2 by done.
  injection E1 as <-. injection E2 as <-.
  unfold version_lt. simpl.
  change (2 ^ 26) with 67108864. change (2 ^ 16) with 65536.
  split; split; lia.
Qed.

Lemma version_order_witness :
  (SetVersion 1 2 3 = Some 67239939 /\ SetVersion 1 3 0 = Some 67305472) /\
  (67239939 < 67305472 <-> version_lt (1, 2, 3) (1, 3, 0)) /\
  (67239939 = 67305472 <-> 1 = 1 /\ 2 = 3 /\ 3 = 0).
Proof.
  split; [split; reflexivity|].
  apply (version_order 1 2 3 1 3 0); try lia; reflexivity.
Defined.

(** X8. For arguments of the declared types ([uint8_t], [uint16_t],
    [uint16_t]) [SetVersion] stops at an assertion exactly when the major
    number exceeds 63 or the minor number exceeds 1023; the assertion on the
    patch number can never fail. *)
Theorem SetVersion_asserts (major minor patch : Z) :
  0 <= major < 2 ^ 8 -> 0 <= minor < 2 ^ 16 -> 0 <= patch < 2 ^ 16 ->
  (SetVersion major minor patch = None <-> 63 < major \/ 1023 < minor).
Proof.
  intros Hma Hmi Hpa. unfold SetVersion.
  change version.MajorMask with 63. change version.MinorMask with 1023.
  change version.PatchMask with 65535.
  destruct (Z.leb_spec major 63); simpl; [|split; [lia|done]].
  destruct (Z.leb_spec minor 1023); simpl; [|split; [lia|done]].
  destruct (Z.leb_spec patch 65535); simpl; [|lia].
  split; [done|lia].
Qed.

Lemma SetVersion_asserts_witness :
  (0 <= 64 < 2 ^ 8 /\ 0 <= 0 < 2 ^ 16 /\ 0 <= 65535 < 2 ^ 16) /\
  (SetVersion 64 0 65535 = None <-> 63 < 64 \/ 1023 < 0).
Proof. split; [lia | apply (SetVersion_asserts 64 0 65535); lia]. Defined.

(** * More about the byte cache *)

Section CachedBufferMoreFacts.

Context {Args : Type}.
Variable BufferSize : Z.

Lemma memcpy_fits (dst src : list Byte.byte) (to : Z) :
  0 <= to -> to + Z.of_nat (length src) <= Z.of_nat (length dst) ->
  exists buf,
    memcpy dst to src = Some buf /\
    length buf = length dst /\
    take (Z.to_nat to + length src) buf = take (Z.to_nat to) dst ++ src.
Proof.
  intros H0 H1. unfold memcpy.
  destruct (Z.leb_spec 0 to); [|lia].
  destruct (Z.leb_spec (to + Z.of_nat (length src)) (Z.of_nat (length dst))); [|lia].
  simpl. eexists. split; [reflexivity|]. split.
  - rewrite !length_app, length_take, length_drop. lia.
  - rewrite app_assoc.
    rewrite take_app_le by (rewrite length_app, length_take; lia).
    rewrite take_ge by (rewrite length_app, length_take; lia). done.
Qed.

Lemma AppendA_fits (Data : list Byte.byte) (a : Args)
    (b : @CachedBufferA.CachedBuffer Args) :
  CachedBufferA.wf BufferSize b ->
  Z.of_nat (length Data) <= BufferSize - CachedBufferA.m_BufferOffset b ->
  exists b',
    CachedBufferA.Append Data b a = Some (true, b', a) /\
    CachedBufferA.wf BufferSize b' /\
    CachedBufferA.cached b' = CachedBufferA.cached b ++ Data /\
    CachedBufferA.m_Callback b' = CachedBufferA.m_Callback b.
Proof.
  intros (Hlen & Hoff & Hcap) Hfit. unfold CachedBufferA.Append.
  destruct (memcpy_fits (CachedBufferA.m_Buffer b) Data (CachedBufferA.m_BufferOffset b))
    as (buf & E & L & Tk); [lia | lia |].
  rewrite E. eexists. split; [reflexivity|].
  unfold CachedBufferA.wf, CachedBufferA.cached. simpl.
  rewrite u64_small by lia.
  split; [split; [lia|split; [lia|done]]|]. split; [|done].
  rewrite <- Tk. f_equal. lia.
Qed.

Lemma AppendB_fits (Data : list Byte.byte) (a : Args)
    (b : @CachedBufferB.CachedBuffer Args) :
  CachedBufferB.wf BufferSize b ->
  Z.of_nat (length Data) <= BufferSize - CachedBufferB.m_BufferOffset b ->
  exists b',
    CachedBufferB.Append Data b a = Some (true, b', a) /\
    CachedBufferB.wf BufferSize b' /\
    CachedBufferB.cached b' = CachedBufferB.cached b ++ Data /\
    CachedBufferB.m_Callback b' = CachedBufferB.m_Callback b.
Proof.
  intros (Hlen & Hoff & Hcap) Hfit. unfold CachedBufferB.Append.
  destruct (memcpy_fits (CachedBufferB.m_Buffer b) Data (CachedBufferB.m_BufferOffset b))
    as (buf & E & L & Tk); [lia | lia |].
  rewrite E. eexists. split; [reflexivity|].
  unfold CachedBufferB.wf, CachedBufferB.cached. simpl.
  rewrite u64_small by lia.
  split; [split; [lia|split; [lia|done]]|]. split; [|done].
  rewrite <- Tk. f_equal. lia.
Qed.

(** X9. In both revisions a [Store] of data that fits in the space left
    does not call the callback: it returns [true], the cached bytes are the
    old ones followed by the data, and the cache stays within its
    capacity. *)
Theorem Store_fits_appends (Data : list Byte.byte) (a : Args)
    (bA : @CachedBufferA.CachedBuffer Args)
    (bB : @CachedBufferB.CachedBuffer Args) :
  CachedBufferA.wf BufferSize bA -> CachedBufferB.wf BufferSize bB ->
  Z.of_nat (length Data) <= BufferSize - CachedBufferA.m_BufferOffset bA ->
  Z.of_nat (length Data) <= BufferSize - CachedBufferB.m_BufferOffset bB ->
  (exists b',
     CachedBufferA.Store BufferSize Data bA a = Some (true, b', a) /\
     CachedBufferA.cached b' = CachedBufferA.cached bA ++ Data /\
     CachedBufferA.Size b' = CachedBufferA.Size bA + Z.of_nat (length Data) /\
     CachedBufferA.wf BufferSize b') /\
  (exists b',
     CachedBufferB.Store BufferSize Data bB a = Some (true, b', a) /\
     CachedBufferB.cached b' = CachedBufferB.cached bB ++ Data /\
     CachedBufferB.Size b' = CachedBufferB.Size bB + Z.of_nat (length Data) /\
     CachedBufferB.wf BufferSize b').
Proof.
  intros WA WB FA FB. split.
  - destruct (AppendA_fits Data a bA WA FA) as (b' & E & W & C & _).
    destruct WA as (Hlen & Hoff & Hcap).
    exists b'. unfold CachedBufferA.Store.
    destruct (Z.gtb_spec (Z.of_nat (length Data)) BufferSize); [lia|].
    rewrite u64_small by lia.
    destruct (Z.gtb_spec (Z.of_nat (length Data))
                (BufferSize - CachedBufferA.m_BufferOffset bA)); [lia|].
    split; [done|]. split; [done|]. split; [|done].
    unfold CachedBufferA.Append in E.
    destruct (memcpy _ _ _); [|done]. injection E as <-. simpl.
    unfold CachedBufferA.Size. apply u64_small. lia.
  - destruct (AppendB_fits Data a bB WB FB) as (b' & E & W & C & _).
    destruct WB as (Hlen & Hoff & Hcap).
    exists b'. unfold CachedBufferB.Store.
    destruct (Z.gtb_spec (Z.of_nat (length Data)) BufferSize); [lia|].
    rewrite u64_small by lia.
    destruct (Z.gtb_spec (Z.of_nat (length Data))
                (BufferSize - CachedBufferB.m_BufferOffset bB)); [lia|].
    split; [done|]. split; [done|]. split; [|done].
    unfold CachedBufferB.Append in E.
    destruct (memcpy _ _ _); [|done]. injection E as <-. simpl.
    unfold CachedBufferB.Size. apply u64_small. lia.
Qed.

Lemma EmptyBufferCacheA_spec (a : Args) (b : @CachedBufferA.CachedBuffer Args) :
  CachedBufferA.wf BufferSize b ->
  match CachedBufferA.EmptyBufferCache b a with
  | (true, b', _) =>
      CachedBufferA.m_BufferOffset b' = 0 /\ CachedBufferA.wf BufferSize b' /\
      CachedBufferA.m_Callback b' = CachedBufferA.m_Callback b
  | (false, b', _) => b' = b
  end.
Proof.
  intros (Hlen & Hoff & Hcap). unfold CachedBufferA.EmptyBufferCache.
  destruct (Z.eqb_spec (CachedBufferA.m_BufferOffset b) 0) as [E|E].
  { unfold CachedBufferA.wf. rewrite E. split; [done|]. split; [|done].
    split; [done|]. split; [lia|done]. }
  destruct (u32 _ =? CachedBufferA.m_BufferOffset b); simpl.
  - unfold CachedBufferA.wf. simpl. split; [done|]. split; [|done].
    split; [done|]. split; [lia|done].
  - destruct (Z.eqb_spec (CachedBufferA.m_BufferOffset b) 0); [lia|done].
Qed.

(** X10. In the first revision [Store] on a cache within its capacity is
    always defined, whatever the callback reports: it never copies outside
    the array, and it leaves the cache within its capacity. *)
Theorem StoreA_stays_in_bounds (Data : list Byte.byte) (a : Args)
    (b : @CachedBufferA.CachedBuffer Args) :
  CachedBufferA.wf BufferSize b ->
  exists ok b' a',
    CachedBufferA.Store BufferSize Data b a = Some (ok, b', a') /\
    CachedBufferA.wf BufferSize b' /\
    0 <= CachedBufferA.Size b' <= BufferSize.
Proof.
  intros W. pose proof W as (Hlen & Hoff & Hcap).
  assert (Fin : forall (ok : bool) (b' : @CachedBufferA.CachedBuffer Args) (a' : Args),
            CachedBufferA.wf BufferSize b' ->
            exists ok0 b0 a0,
              Some (ok, b', a') = Some (ok0, b0, a0) /\
              CachedBufferA.wf BufferSize b0 /\
              0 <= CachedBufferA.Size b0 <= BufferSize).
  { intros ok b' a' W'. exists ok, b', a'. split; [done|]. split; [done|].
    destruct W' as (_ & ? & _). done. }
  unfold CachedBufferA.Store.
  pose proof (EmptyBufferCacheA_spec a b W) as HE.
  destruct (Z.gtb_spec (Z.of_nat (length Data)) BufferSize).
  - destruct (CachedBufferA.EmptyBufferCache b a) as [[[|] b1] a1].
    + apply Fin. tauto.
    + subst b1. by apply Fin.
  - rewrite u64_small by lia.
    destruct (Z.gtb_spec (Z.of_nat (length Data))
                (BufferSize - CachedBufferA.m_BufferOffset b)).
    + destruct (CachedBufferA.EmptyBufferCache b a) as [[[|] b1] a1].
      * destruct HE as (Hz & W1 & _).
        destruct (AppendA_fits Data a1 b1 W1) as (b' & E & W' & _); [lia|].
        rewrite E. by apply Fin.
      * subst b1. by apply Fin.
    + destruct (AppendA_fits Data a b W) as (b' & E & W' & _); [lia|].
      rewrite E. by apply Fin.
Qed.

(** X11. In the second revision, when the callback writes only part of the
    cache and the bytes left over and the new data together exceed the
    capacity, [Store] copies past the end of the array: the call is
    undefined. *)
Theorem StoreB_overruns_after_partial_flush (Data : list Byte.byte) (a : Args)
    (b : @CachedBufferB.CachedBuffer Args) :
  CachedBufferB.wf BufferSize b ->
  Z.of_nat (length Data) <= BufferSize ->
  let n := u32 (CachedBufferB.m_Callback b (CachedBufferB.cached b) a).1 in
  0 < n < CachedBufferB.m_BufferOffset b ->
  BufferSize < CachedBufferB.m_BufferOffset b - n + Z.of_nat (length Data) ->
  CachedBufferB.Store BufferSize Data b a = None.
Proof.
  intros (Hlen & Hoff & Hcap) Hsmall n Hn Hover.
  unfold CachedBufferB.Store.
  destruct (Z.gtb_spec (Z.of_nat (length Data)) BufferSize); [lia|].
  rewrite u64_small by lia.
  destruct (Z.gtb_spec (Z.of_nat (length Data))
              (BufferSize - CachedBufferB.m_BufferOffset b)); [|lia].
  unfold CachedBufferB.EmptyBufferCache.
  destruct (Z.eqb_spec (CachedBufferB.m_BufferOffset b) 0); [lia|].
  fold (CachedBufferB.cached b). fold n.
  destruct (Z.eqb_spec n 0); [lia|].
  rewrite u64_small by lia.
  destruct (memcpy_front (CachedBufferB.m_Buffer b) n
              (CachedBufferB.m_BufferOffset b - n)) as [buf|] eqn:Em; [|done].
  assert (Hn0 : 0 <= n) by lia.
  assert (Hl0 : 0 <= CachedBufferB.m_BufferOffset b - n) by lia.
  destruct (memcpy_front_prefix _ _ _ _ Hn0 Hl0 Em) as [_ L].
  unfold CachedBufferB.Append. simpl. unfold memcpy.
  destruct (Z.leb_spec 0 (CachedBufferB.m_BufferOffset b - n)); [|lia].
  destruct (Z.leb_spec (CachedBufferB.m_BufferOffset b - n + Z.of_nat (length Data))
              (Z.of_nat (length buf))); [lia|]. done.
Qed.

End CachedBufferMoreFacts.

(** * The byte cache in front of a callback that writes everything *)

Section CachedBufferStream.

Variable BufferSize : Z.
Hypothesis BufferSize_range : 0 <= BufferSize < 2 ^ 32.

Lemma u32_small (x : Z) : 0 <= x < 2 ^ 32 -> u32 x = x.
Proof. intros Hx. unfold u32. apply Z.mod_small. lia. Qed.

Lemma CreateA_wf (cb : @CachedBufferA.StoreCallback (list Byte.byte)) :
  CachedBufferA.wf BufferSize (CachedBufferA.Create BufferSize cb).
Proof.
  unfold CachedBufferA.wf, CachedBufferA.Create. simpl.
  rewrite length_replicate. lia.
Qed.

Lemma CreateB_wf (cb : @CachedBufferB.StoreCallback (list Byte.byte)) :
  CachedBufferB.wf BufferSize (CachedBufferB.Create BufferSize cb).
Proof.
  unfold CachedBufferB.wf, CachedBufferB.Create. simpl.
  rewrite length_replicate. lia.
Qed.

Lemma EmptyBufferCacheA_accept_all (b : @CachedBufferA.CachedBuffer (list Byte.byte))
    (written : list Byte.byte) :
  CachedBufferA.wf BufferSize b ->
  CachedBufferA.m_Callback b = accept_all ->
  exists b',
    CachedBufferA.EmptyBufferCache b written =
      (true, b', written ++ CachedBufferA.cached b) /\
    CachedBufferA.wf BufferSize b' /\
    CachedBufferA.m_BufferOffset b' = 0 /\
    CachedBufferA.m_Callback b' = accept_all.
Proof.
  intros (Hlen & Hoff & Hcap) Hcb.
  unfold CachedBufferA.EmptyBufferCache, CachedBufferA.cached.
  destruct (Z.eqb_spec (CachedBufferA.m_BufferOffset b) 0) as [E|E].
  - exists b. rewrite E. simpl. rewrite app_nil_r.
    split; [done|]. split; [|done]. unfold CachedBufferA.wf. lia.
  - rewrite Hcb. unfold accept_all at 1 2. simpl.
    rewrite length_take, Nat.min_l by lia.
    rewrite Z2Nat.id, u32_small by lia. rewrite Z.eqb_refl. simpl.
    eexists. split; [reflexivity|]. unfold CachedBufferA.wf. simpl.
    split; [lia|done].
Qed.

Lemma EmptyBufferCacheB_accept_all (b : @CachedBufferB.CachedBuffer (list Byte.byte))
    (written : list Byte.byte) :
  CachedBufferB.wf BufferSize b ->
  CachedBufferB.m_Callback b = accept_all ->
  exists b',
    CachedBufferB.EmptyBufferCache b written =
      Some (true, b', written ++ CachedBufferB.cached b) /\
    CachedBufferB.wf BufferSize b' /\
    CachedBufferB.m_BufferOffset b' = 0 /\
    CachedBufferB.m_Callback b' = accept_all.
Proof.
  intros (Hlen & Hoff & Hcap) Hcb.
  unfold CachedBufferB.EmptyBufferCache, CachedBufferB.cached.
  destruct (Z.eqb_spec (CachedBufferB.m_BufferOffset b) 0) as [E|E].
  - exists b. rewrite E. simpl. rewrite app_nil_r.
    split; [done|]. split; [|done]. unfold CachedBufferB.wf. lia.
  - rewrite Hcb. unfold accept_all at 1 2 3. simpl.
    rewrite length_take, Nat.min_l by lia.
    rewrite Z2Nat.id, u32_small by lia.
    destruct (Z.eqb_spec (CachedBufferB.m_BufferOffset b) 0); [lia|].
    rewrite Z.sub_diag. change (u64 0) with 0.
    destruct (memcpy_front (CachedBufferB.m_Buffer b)
                (CachedBufferB.m_BufferOffset b) 0) as [buf|] eqn:Em.
    + destruct (memcpy_front_prefix _ _ _ _ (proj1 Hoff) (Z.le_refl 0) Em) as [_ L].
      eexists. split; [reflexivity|]. unfold CachedBufferB.wf. simpl.
      split; [lia|done].
    + exfalso. revert Em. unfold memcpy_front, memcpy.
      destruct (Z.leb_spec (CachedBufferB.m_BufferOffset b + 0)
                  (Z.of_nat (length (CachedBufferB.m_Buffer b)))); [|lia].
      destruct (Z.leb_spec 0 (CachedBufferB.m_BufferOffset b)); [|lia].
      simpl.
      destruct (Z.leb_spec (0 + Z.of_nat 0)
                  (Z.of_nat (length (CachedBufferB.m_Buffer b)))); [|lia].
      done.
Qed.

Lemma StoreA_accept_all (Data : list Byte.byte)
    (b : @CachedBufferA.CachedBuffer (list Byte.byte)) (written : list Byte.byte) :
  CachedBufferA.wf BufferSize b ->
  CachedBufferA.m_Callback b = accept_all ->
  Z.of_nat (length Data) < 2 ^ 32 ->
  exists b' written',
    CachedBufferA.Store BufferSize Data b written = Some (true, b', written') /\
    CachedBufferA.wf BufferSize b' /\
    CachedBufferA.m_Callback b' = accept_all /\
    written' ++ CachedBufferA.cached b' =
      written ++ CachedBufferA.cached b ++ Data.
Proof.
  intros W Hcb HD. pose proof W as (Hlen & Hoff & Hcap).
  destruct (EmptyBufferCacheA_accept_all b written W Hcb) as (b1 & E1 & W1 & O1 & C1).
  assert (K1 : CachedBufferA.cached b1 = []).
  { unfold CachedBufferA.cached. rewrite O1. done. }
  unfold CachedBufferA.Store.
  destruct (Z.gtb_spec (Z.of_nat (length Data)) BufferSize).
  - rewrite E1, C1. unfold accept_all. simpl.
    rewrite u32_small, Z.eqb_refl by lia.
    exists b1. eexists. split; [reflexivity|]. split; [done|]. split; [done|].
    rewrite K1, app_nil_r, app_assoc. done.
  - rewrite u64_small by lia.
    destruct (Z.gtb_spec (Z.of_nat (length Data))
                (BufferSize - CachedBufferA.m_BufferOffset b)).
    + rewrite E1.
      destruct (AppendA_fits BufferSize Data (written ++ CachedBufferA.cached b) b1 W1)
        as (b' & E & W' & K & C); [lia|].
      rewrite E. exists b'. eexists. split; [reflexivity|]. split; [done|].
      split; [congruence|]. rewrite K, K1. simpl. by rewrite <- app_assoc.
    + destruct (AppendA_fits BufferSize Data written b W)
        as (b' & E & W' & K & C); [lia|].
      rewrite E. exists b'. eexists. split; [reflexivity|]. split; [done|].
      split; [congruence|]. rewrite K. done.
Qed.

Lemma StoreB_accept_all (Data : list Byte.byte)
    (b : @CachedBufferB.CachedBuffer (list Byte.byte)) (written : list Byte.byte) :
  CachedBufferB.wf BufferSize b ->
  CachedBufferB.m_Callback b = accept_all ->
  Z.of_nat (length Data) < 2 ^ 32 ->
  exists b' written',
    CachedBufferB.Store BufferSize Data b written = Some (true, b', written') /\
    CachedBufferB.wf BufferSize b' /\
    CachedBufferB.m_Callback b' = accept_all /\
    written' ++ CachedBufferB.cached b' =
      written ++ CachedBufferB.cached b ++ Data.
Proof.
  intros W Hcb HD. pose proof W as (Hlen & Hoff & Hcap).
  destruct (EmptyBufferCacheB_accept_all b written W Hcb) as (b1 & E1 & W1 & O1 & C1).
  assert (K1 : CachedBufferB.cached b1 = []).
  { unfold CachedBufferB.cached. rewrite O1. done. }
  unfold CachedBufferB.Store.
  destruct (Z.gtb_spec (Z.of_nat (length Data)) BufferSize).
  - rewrite E1, C1. unfold accept_all. simpl.
    rewrite u32_small, Z.eqb_refl by lia.
    exists b1. eexists. split; [reflexivity|]. split; [done|]. split; [done|].
    rewrite K1, app_nil_r, app_assoc. done.
  - rewrite u64_small by lia.
    destruct (Z.gtb_spec (Z.of_nat (length Data))
                (BufferSize - CachedBufferB.m_BufferOffset b)).
    + rewrite E1.
      destruct (AppendB_fits BufferSize Data (written ++ CachedBufferB.cached b) b1 W1)
        as (b' & E & W' & K & C); [lia|].
      rewrite E. exists b'. eexists. split; [reflexivity|]. split; [done|].
      split; [congruence|]. rewrite K, K1. simpl. by rewrite <- app_assoc.
    + destruct (AppendB_fits BufferSize Data written b W)
        as (b' & E & W' & K & C); [lia|].
      rewrite E. exists b'. eexists. split; [reflexivity|]. split; [done|].
      split; [congruence|]. rewrite K. done.
Qed.

Lemma StoreAllA_accept_all (spans : list (list Byte.byte)) :
  Forall (fun Data => Z.of_nat (length Data) < 2 ^ 32) spans ->
  forall (b : @CachedBufferA.CachedBuffer (list Byte.byte)) (written : list Byte.byte),
  CachedBufferA.wf BufferSize b ->
  CachedBufferA.m_Callback b = accept_all ->
  exists b' written',
    StoreAllA BufferSize spans b written = Some (b', written') /\
    CachedBufferA.wf BufferSize b' /\
    CachedBufferA.m_Callback b' = accept_all /\
    written' ++ CachedBufferA.cached b' =
      written ++ CachedBufferA.cached b ++ concat spans.
Proof.
  induction 1 as [|Data rest HD _ IH]; intros b written W Hcb.
  - exists b, written. simpl. rewrite app_nil_r. done.
  - destruct (StoreA_accept_all Data b written W Hcb HD) as (b1 & w1 & E & W1 & C1 & K1).
    destruct (IH b1 w1 W1 C1) as (b2 & w2 & E2 & W2 & C2 & K2).
    exists b2, w2. simpl. rewrite E. split; [done|]. split; [done|]. split; [done|].
    rewrite K2, app_assoc, K1, <- !app_assoc. done.
Qed.

Lemma StoreAllB_accept_all (spans : list (list Byte.byte)) :
  Forall (fun Data => Z.of_nat (length Data) < 2 ^ 32) spans ->
  forall (b : @CachedBufferB.CachedBuffer (list Byte.byte)) (written : list Byte.byte),
  CachedBufferB.wf BufferSize b ->
  CachedBufferB.m_Callback b = accept_all ->
  exists b' written',
    StoreAllB BufferSize spans b written = Some (b', written') /\
    CachedBufferB.wf BufferSize b' /\
    CachedBufferB.m_Callback b' = accept_all /\
    written' ++ CachedBufferB.cached b' =
      written ++ CachedBufferB.cached b ++ concat spans.
Proof.
  induction 1 as [|Data rest HD _ IH]; intros b written W Hcb.
  - exists b, written. simpl. rewrite app_nil_r. done.
  - destruct (StoreB_accept_all Data b written W Hcb HD) as (b1 & w1 & E & W1 & C1 & K1).
    destruct (IH b1 w1 W1 C1) as (b2 & w2 & E2 & W2 & C2 & K2).
    exists b2, w2. simpl. rewrite E. split; [done|]. split; [done|]. split; [done|].
    rewrite K2, app_assoc, K1, <- !app_assoc. done.
Qed.

(** X12. First revision, with a callback that writes all it is given:
    every [Store] of a sequence of spans succeeds, the bytes written
    followed by the bytes still cached are the spans in order, and a
    [Flush] leaves the cache empty with all the spans written, in order
    and without loss or repetition. *)
Theorem StoreA_then_Flush_writes_everything (spans : list (list Byte.byte)) :
  Forall (fun Data => Z.of_nat (length Data) < 2 ^ 32) spans ->
  exists b written,
    StoreAllA BufferSize spans (CachedBufferA.Create BufferSize accept_all) []
      = Some (b, written) /\
    written ++ CachedBufferA.cached b = concat spans /\
    (CachedBufferA.Flush b written).2 = concat spans /\
    CachedBufferA.Size (CachedBufferA.Flush b written).1 = 0.
Proof.
  intros HF.
  destruct (StoreAllA_accept_all spans HF (CachedBufferA.Create BufferSize accept_all) []
              (CreateA_wf accept_all) eq_refl) as (b & w & E & W & C & K).
  exists b, w. split; [done|]. split; [done|].
  destruct (EmptyBufferCacheA_accept_all b w W C) as (b1 & E1 & _ & O1 & _).
  unfold CachedBufferA.Flush, CachedBufferA.Size. rewrite E1. simpl.
  split; [done|done].
Qed.

(** X13. The same for the second revision: with a callback that writes all
    it is given no [Store] or [Flush] is undefined, and flushing after a
    sequence of stores has written exactly the spans, in order. *)
Theorem StoreB_then_Flush_writes_everything (spans : list (list Byte.byte)) :
  Forall (fun Data => Z.of_nat (length Data) < 2 ^ 32) spans ->
  exists b written b' written',
    StoreAllB BufferSize spans (CachedBufferB.Create BufferSize accept_all) []
      = Some (b, written) /\
    written ++ CachedBufferB.cached b = concat spans /\
    CachedBufferB.Flush b written = Some (b', written') /\
    written' = concat spans /\
    CachedBufferB.Size b' = 0.
Proof.
  intros HF.
  destruct (StoreAllB_accept_all spans HF (CachedBufferB.Create BufferSize accept_all) []
              (CreateB_wf accept_all) eq_refl) as (b & w & E & W & C & K).
  destruct (EmptyBufferCacheB_accept_all b w W C) as (b1 & E1 & _ & O1 & _).
  exists b, w, b1, (w ++ CachedBufferB.cached b).
  split; [done|]. split; [done|].
  unfold CachedBufferB.Flush, CachedBufferB.Size. rewrite E1. simpl.
  split; [done|]. split; [done|done].
Qed.

Lemma cachedB_length (b : @CachedBufferB.CachedBuffer (list Byte.byte)) :
  CachedBufferB.wf BufferSize b ->
  Z.of_nat (length (CachedBufferB.cached b)) = CachedBufferB.m_BufferOffset b.
Proof.
  intros (Hlen & Hoff & _). unfold CachedBufferB.cached.
  rewrite length_take. lia.
Qed.

Lemma StoreAllB_fits (spans : list (list Byte.byte)) :
  forall (b : @CachedBufferB.CachedBuffer (list Byte.byte)) (written : list Byte.byte),
  CachedBufferB.wf BufferSize b ->
  Z.of_nat (length (concat spans)) <= BufferSize - CachedBufferB.m_BufferOffset b ->
  exists b',
    StoreAllB BufferSize spans b written = Some (b', written) /\
    CachedBufferB.wf BufferSize b' /\
    CachedBufferB.m_Callback b' = CachedBufferB.m_Callback b /\
    CachedBufferB.cached b' = CachedBufferB.cached b ++ concat spans.
Proof.
  induction spans as [|Data rest IH]; intros b written W Hfit.
  - exists b. simpl. rewrite app_nil_r. done.
  - simpl in Hfit. rewrite length_app in Hfit.
    pose proof W as (Hlen & Hoff & Hcap).
    destruct (AppendB_fits BufferSize Data written b W) as (b1 & E & W1 & K1 & C1); [lia|].
    assert (ES : CachedBufferB.Store BufferSize Data b written = Some (true, b1, written)).
    { unfold CachedBufferB.Store.
      destruct (Z.gtb_spec (Z.of_nat (length Data)) BufferSize); [lia|].
      rewrite u64_small by lia.
      destruct (Z.gtb_spec (Z.of_nat (length Data))
                  (BufferSize - CachedBufferB.m_BufferOffset b)); [lia|]. exact E. }
    assert (O1 : CachedBufferB.m_BufferOffset b1
                 = CachedBufferB.m_BufferOffset b + Z.of_nat (length Data)).
    { rewrite <- (cachedB_length b1 W1), <- (cachedB_length b W), K1, length_app. lia. }
    destruct (IH b1 written W1) as (b2 & E2 & W2 & C2 & K2); [lia|].
    exists b2. simpl. rewrite ES. split; [done|]. split; [done|].
    split; [congruence|]. rewrite K2, K1, <- app_assoc. done.
Qed.

(** X14. A default-constructed cache of the second revision, whose callback
    writes nothing, takes spans as long as they fit together: every [Store]
    returns [true].  Once [RegisterCallback] has installed a callback that
    writes all it is given, [Flush] hands it exactly the spans cached
    before, in order, and empties the cache. *)
Theorem RegisterCallback_then_Flush_delivers (spans : list (list Byte.byte)) :
  Z.of_nat (length (concat spans)) <= BufferSize ->
  exists b b',
    StoreAllB BufferSize spans (CachedBufferB.CreateDefault BufferSize) []
      = Some (b, []) /\
    CachedBufferB.cached b = concat spans /\
    CachedBufferB.Flush (CachedBufferB.RegisterCallback accept_all b) []
      = Some (b', concat spans) /\
    CachedBufferB.Size b' = 0.
Proof.
  intros Hfit.
  destruct (StoreAllB_fits spans (CachedBufferB.CreateDefault BufferSize) []
              (CreateB_wf _)) as (b & E & W & C & K); [simpl; lia|].
  assert (W' : CachedBufferB.wf BufferSize (CachedBufferB.RegisterCallback accept_all b)).
  { exact W. }
  destruct (EmptyBufferCacheB_accept_all _ [] W' eq_refl) as (b' & E1 & _ & O1 & _).
  exists b, b'. split; [exact E|]. split; [exact K|].
  unfold CachedBufferB.Flush, CachedBufferB.Size. rewrite E1. simpl.
  split; [|exact O1]. do 2 f_equal. exact K.
Qed.

End CachedBufferStream.

(** The theorems about the cache, on the eight-byte cache of the tests. *)

Ltac cache_wf :=
  unfold CachedBufferA.wf, CachedBufferB.wf; vm_compute;
  repeat match goal with
         | |- _ /\ _ => split
         | |- _ = _ => reflexivity
         | |- _ -> False => discriminate
         end.

Lemma Store_fits_appends_witness :
  (CachedBufferA.wf 8 (DemoCache.cacheA DemoCache.refuse) /\
   CachedBufferB.wf 8 (DemoCache.cacheB DemoCache.refuse) /\
   Z.of_nat (length DemoStream.two)
     <= 8 - CachedBufferA.m_BufferOffset (DemoCache.cacheA DemoCache.refuse) /\
   Z.of_nat (length DemoStream.two)
     <= 8 - CachedBufferB.m_BufferOffset (DemoCache.cacheB DemoCache.refuse)) /\
  (exists b',
     CachedBufferA.Store 8 DemoStream.two (DemoCache.cacheA DemoCache.refuse) []
       = Some (true, b', []) /\
     CachedBufferA.cached b'
       = CachedBufferA.cached (DemoCache.cacheA DemoCache.refuse) ++ DemoStream.two /\
     CachedBufferA.Size b'
       = CachedBufferA.Size (DemoCache.cacheA DemoCache.refuse)
         + Z.of_nat (length DemoStream.two) /\
     CachedBufferA.wf 8 b') /\
  (exists b',
     CachedBufferB.Store 8 DemoStream.two (DemoCache.cacheB DemoCache.refuse) []
       = Some (true, b', []) /\
     CachedBufferB.cached b'
       = CachedBufferB.cached (DemoCache.cacheB DemoCache.refuse) ++ DemoStream.two /\
     CachedBufferB.Size b'
       = CachedBufferB.Size (DemoCache.cacheB DemoCache.refuse)
         + Z.of_nat (length DemoStream.two) /\
     CachedBufferB.wf 8 b').
Proof.
  split; [split; [cache_wf|split; [cache_wf|split; vm_compute; discriminate]]|].
  apply (Store_fits_appends 8 DemoStream.two []
           (DemoCache.cacheA DemoCache.refuse) (DemoCache.cacheB DemoCache.refuse));
    [cache_wf | cache_wf | vm_compute; discriminate | vm_compute; discriminate].
Defined.

Lemma StoreA_stays_in_bounds_witness :
  CachedBufferA.wf 8 (DemoCache.cacheA DemoCache.take_three) /\
  exists ok b' a',
    CachedBufferA.Store 8 DemoStream.seven (DemoCache.cacheA DemoCache.take_three) []
      = Some (ok, b', a') /\
    CachedBufferA.wf 8 b' /\
    0 <= CachedBufferA.Size b' <= 8.
Proof.
  split; [cache_wf|].
  apply (StoreA_stays_in_bounds 8 DemoStream.seven []
           (DemoCache.cacheA DemoCache.take_three)).
  cache_wf.
Defined.

Lemma StoreB_overruns_after_partial_flush_witness :
  (CachedBufferB.wf 8 (DemoCache.cacheB DemoCache.take_three) /\
   Z.of_nat (length DemoStream.seven) <= 8 /\
   0 < u32 (CachedBufferB.m_Callback (DemoCache.cacheB DemoCache.take_three)
              (CachedBufferB.cached (DemoCache.cacheB DemoCache.take_three)) []).1
     < CachedBufferB.m_BufferOffset (DemoCache.cacheB DemoCache.take_three) /\
   8 < CachedBufferB.m_BufferOffset (DemoCache.cacheB DemoCache.take_three)
       - u32 (CachedBufferB.m_Callback (DemoCache.cacheB DemoCache.take_three)
                (CachedBufferB.cached (DemoCache.cacheB DemoCache.take_three)) []).1
       + Z.of_nat (length DemoStream.seven)) /\
  CachedBufferB.Store 8 DemoStream.seven (DemoCache.cacheB DemoCache.take_three) []
    = None.
Proof.
  split.
  - split; [cache_wf|]. split; [vm_compute; discriminate|].
    split; [split; vm_compute; reflexivity | vm_compute; reflexivity].
  - apply (StoreB_overruns_after_partial_flush 8 DemoStream.seven []
             (DemoCache.cacheB DemoCache.take_three)).
    + cache_wf.
    + vm_compute; discriminate.
    + split; vm_compute; reflexivity.
    + vm_compute; reflexivity.
Defined.

Lemma StoreA_then_Flush_writes_everything_witness :
  (0 <= 8 < 2 ^ 32 /\
   Forall (fun Data => Z.of_nat (length Data) < 2 ^ 32) DemoStream.spans) /\
  exists b written,
    StoreAllA 8 DemoStream.spans (CachedBufferA.Create 8 accept_all) []
      = Some (b, written) /\
    written ++ CachedBufferA.cached b = concat DemoStream.spans /\
    (CachedBufferA.Flush b written).2 = concat DemoStream.spans /\
    CachedBufferA.Size (CachedBufferA.Flush b written).1 = 0.
Proof.
  split; [split; [lia | repeat constructor]|].
  apply (StoreA_then_Flush_writes_everything 8); [lia | repeat constructor].
Defined.

Lemma StoreB_then_Flush_writes_everything_witness :
  (0 <= 8 < 2 ^ 32 /\
   Forall (fun Data => Z.of_nat (length Data) < 2 ^ 32) DemoStream.spans) /\
  exists b written b' written',
    StoreAllB 8 DemoStream.spans (CachedBufferB.Create 8 accept_all) []
      = Some (b, written) /\
    written ++ CachedBufferB.cached b = concat DemoStream.spans /\
    CachedBufferB.Flush b written = Some (b', written') /\
    written' = concat DemoStream.spans /\
    CachedBufferB.Size b' = 0.
Proof.
  split; [split; [lia | repeat constructor]|].
  apply (StoreB_then_Flush_writes_everything 8); [lia | repeat constructor].
Defined.

Lemma RegisterCallback_then_Flush_delivers_witness :
  (0 <= 8 < 2 ^ 32 /\
   Z.of_nat (length (concat [DemoCache.five; DemoStream.two])) <= 8) /\
  exists b b',
    StoreAllB 8 [DemoCache.five; DemoStream.two] (CachedBufferB.CreateDefault 8) []
      = Some (b, []) /\
    CachedBufferB.cached b = concat [DemoCache.five; DemoStream.two] /\
    CachedBufferB.Flush (CachedBufferB.RegisterCallback accept_all b) []
      = Some (b', concat [DemoCache.five; DemoStream.two]) /\
    CachedBufferB.Size b' = 0.
Proof.
  split; [split; [lia | vm_compute; discriminate]|].
  apply (RegisterCallback_then_Flush_delivers 8); [lia | vm_compute; discriminate].
Defined.

(** The stream of the witness above, run: the first revision has written
    everything but the last span when the stores are done. *)
Example DemoStream_run :
  exists b written,
    StoreAllA 8 DemoStream.spans (CachedBufferA.Create 8 accept_all) []
      = Some (b, written) /\
    written = DemoCache.five ++ DemoStream.two ++ DemoCache.four ++ DemoStream.nine
              ++ DemoStream.seven /\
    CachedBufferA.cached b = DemoStream.two /\
    CachedBufferA.cached b <> [].
Proof.
  eexists. eexists. split; [vm_compute; reflexivity|].
  split; [vm_compute; reflexivity|]. split; [vm_compute; reflexivity|].
  vm_compute. discriminate.
Qed.

(** * What the policy holds and deletes, under any callbacks *)

Section PolicyKeeps.

Context {Input ReturnType U P : Type} `{IStatePolicy P}.
Variable states : nat -> @IDynamicState Input ReturnType U.

Local Abbreviation World := (@World Input U P).
Local Abbreviation M := (@M Input U P).
Local Abbreviation Api := (@Api Input ReturnType U P).

Variable K : P -> list (@Event Input) -> Prop.
Hypothesis K_call : forall p cs e,
  is_enter e = false -> K p cs -> K p (cs ++ [e]).
Hypothesis K_set_none : forall p cs h,
  (SetState h p).1 = None -> K p cs -> K (SetState h p).2 cs.
Hypothesis K_set_some : forall p cs h s b,
  (SetState h p).1 = Some s -> K p cs ->
  K (SetState h p).2 (cs ++ [mkEvent (CbOnEnter s) b]).

Local Abbreviation I := (policy_calls_inv K).

Lemma keeps_ret {A} (a : A) : keeps I (ret a : M A).
Proof. intros w a' w' E. injection E as <- <-. done. Qed.

Lemma keeps_bind {A B} (m : M A) (k : A -> M B) :
  keeps I m -> (forall a, keeps I (k a)) -> keeps I (bind m k).
Proof.
  intros Hm Hk w b w' E HI. apply bind_Some in E as (a & w1 & E1 & E2).
  eapply Hk; [exact E2|]. eapply Hm; [exact E1 | exact HI].
Qed.

Lemma keeps_SetFlag (b : bool) : keeps I (SetFlag b : M unit).
Proof. intros w a w' E. injection E as <- <-. done. Qed.

Lemma keeps_GetFlag : keeps I (GetFlag : M bool).
Proof. intros w a w' E. injection E as <- <-. done. Qed.

Lemma keeps_PolicyGet : keeps I (PolicyGet : M Handle).
Proof. intros w a w' E. injection E as <- <-. done. Qed.

Lemma keeps_SetHeap (u : U) : keeps I (SetHeap u : M unit).
Proof. intros w a w' E. injection E as <- <-. done. Qed.

Lemma keeps_DeferredQueue (h : Handle) : keeps I (DeferredQueue h : M bool).
Proof. intros w a w' E. injection E as <- <-. done. Qed.

Lemma keeps_DeferredDequeue : keeps I (DeferredDequeue : M (option Handle)).
Proof. intros w a w' E. injection E as <- <-. done. Qed.

Lemma keeps_Invoke_Update (s : nat) (In : Input) :
  keeps I (Invoke (CbUpdate s In) : M unit).
Proof.
  intros w a w' E HI. injection E as <- <-.
  unfold policy_calls_inv. simpl. by apply K_call.
Qed.

Lemma keeps_Invoke_OnExit (s : nat) : keeps I (Invoke (CbOnExit s) : M unit).
Proof.
  intros w a w' E HI. injection E as <- <-.
  unfold policy_calls_inv. simpl. by apply K_call.
Qed.

Section WithApi.

Variable api : Api.
Hypothesis api_ok : api_keeps I api.

Lemma keeps_exec {R} (s : Script R) : keeps I (exec api s).
Proof.
  destruct api_ok as (HRun & HEnter & HImm).
  induction s as [r | f k IH | In k IH | h k IH | h k IH | k IH]; simpl.
  - apply keeps_ret.
  - intros w a w' E.
    eapply (keeps_bind (SetHeap (f (heap w))) (fun _ => exec api (k (f (heap w)))));
      [apply keeps_SetHeap | intros _; apply IH | exact E].
  - apply keeps_bind; auto.
  - apply keeps_bind; auto.
  - apply keeps_bind; auto.
  - intros w a w' E. eapply IH; eauto.
Qed.

Lemma keeps_InProgressGuard {A} (body : M A) :
  keeps I body -> keeps I (InProgressGuard body).
Proof.
  intros Hb. unfold InProgressGuard.
  apply keeps_bind; [apply keeps_SetFlag | intros _].
  apply keeps_bind; [exact Hb | intros a].
  apply keeps_bind; [apply keeps_SetFlag | intros _; apply keeps_ret].
Qed.

Lemma keeps_StateTransitionDeferred (h : Handle) :
  keeps I (StateTransitionDeferred h : M Handle).
Proof.
  unfold StateTransitionDeferred.
  apply keeps_bind; [apply keeps_DeferredQueue | intros _; apply keeps_PolicyGet].
Qed.

Lemma keeps_StateTransition (h : Handle) : keeps I (StateTransition states api h).
Proof.
  intros w a w' E HI. unfold StateTransition in E.
  apply bind_Some in E as (pS & w1 & E1 & E2).
  unfold PolicySetState in E1. injection E1 as <- <-.
  destruct (SetState h (m_StatePolicy (fsm w))).1 as [s|] eqn:Es.
  - apply bind_Some in E2 as (x & w2 & E2 & E3). injection E2 as _ <-.
    apply bind_Some in E3 as (y & w3 & E3 & E4). injection E4 as _ <-.
    eapply keeps_exec; [exact E3|].
    unfold policy_calls_inv. simpl. by apply K_set_some.
  - injection E2 as _ <-. unfold policy_calls_inv. simpl. by apply K_set_none.
Qed.

Lemma keeps_Run_exit (s : nat) (next : Handle) :
  keeps I (Run_exit states api s next).
Proof.
  unfold Run_exit. destruct (decide (next = Some s)); [apply keeps_ret|].
  apply keeps_bind; [apply keeps_Invoke_OnExit | intros _].
  apply keeps_bind; [apply keeps_exec | intros _].
  apply keeps_bind; [apply keeps_StateTransitionDeferred | intros _; apply keeps_ret].
Qed.

Lemma keeps_Run_drain : keeps I (Run_drain states api).
Proof.
  unfold Run_drain.
  apply keeps_bind; [apply keeps_DeferredDequeue | intros [h|]]; [|apply keeps_ret].
  apply keeps_bind; [apply keeps_StateTransition | intros _; apply keeps_ret].
Qed.

Lemma keeps_Run_with (In : Input) : keeps I (Run_with states api In).
Proof.
  unfold Run_with. apply keeps_InProgressGuard.
  apply keeps_bind; [apply keeps_PolicyGet | intros [s|]]; [|apply keeps_ret].
  apply keeps_bind; [apply keeps_Invoke_Update | intros _].
  apply keeps_bind; [apply keeps_exec | intros r].
  apply keeps_bind; [apply keeps_Run_exit | intros _].
  apply keeps_bind; [apply keeps_Run_drain | intros _; apply keeps_ret].
Qed.

Lemma keeps_EnterStateImmediate_with (h : Handle) :
  keeps I (EnterStateImmediate_with states api h).
Proof. apply keeps_InProgressGuard, keeps_StateTransition. Qed.

Lemma keeps_EnterState_with (h : Handle) : keeps I (EnterState_with states api h).
Proof.
  unfold EnterState_with.
  apply keeps_bind; [apply keeps_GetFlag | intros [|]].
  - apply keeps_StateTransitionDeferred.
  - apply keeps_InProgressGuard, keeps_StateTransition.
Qed.

End WithApi.

Lemma api_at_keeps (depth : nat) : api_keeps I (api_at states depth).
Proof.
  induction depth as [|d IH].
  - split; [|split]; intros x w a w' E; discriminate E.
  - split; [|split]; intros x; simpl.
    + by apply keeps_Run_with.
    + by apply keeps_EnterState_with.
    + by apply keeps_EnterStateImmediate_with.
Qed.

End PolicyKeeps.

(** * The owning policy inside the machine *)

Section OwningFacts.

Context {Input ReturnType U : Type}.
Variable states : nat -> @IDynamicState Input ReturnType U.

Local Abbreviation World := (@World Input U OwningPolicy).

Lemma entered_app (l1 l2 : list (@Event Input)) :
  entered (l1 ++ l2) = entered l1 ++ entered l2.
Proof.
  induction l1 as [|e l1 IH]; simpl; [done|].
  destruct (ev_call e); simpl; by rewrite IH.
Qed.

Lemma entered_other (e : @Event Input) : is_enter e = false -> entered [e] = [].
Proof. unfold is_enter. simpl. by destruct (ev_call e). Qed.

Lemma entered_in_progress (cs : list (@Callback Input)) :
  entered (in_progress cs) = entered (map (fun c => mkEvent c false) cs).
Proof.
  unfold in_progress. induction cs as [|c cs IH]; simpl; [done|].
  destruct c; simpl; by rewrite IH.
Qed.

Lemma Owning_SetState (h : Handle) (p : OwningPolicy) :
  (SetState h p).1 = h /\
  Storage (SetState h p).2 = h /\
  deleted (SetState h p).2 = deleted p ++ option_list (Storage p).
Proof.
  simpl. unfold unique_ptr_reset.
  destruct (Storage p); simpl; rewrite ?app_nil_r; done.
Qed.

Lemma accounts_call (cs0 : list (@Event Input)) (D0 : list nat)
    (p : OwningPolicy) (cs : list (@Event Input)) (e : @Event Input) :
  is_enter e = false -> accounts cs0 D0 p cs -> accounts cs0 D0 p (cs ++ [e]).
Proof.
  intros He (tl & -> & E). exists (tl ++ [e]). split; [by rewrite app_assoc|].
  rewrite entered_app, (entered_other e He), app_nil_r. exact E.
Qed.

Lemma accounts_set_none (cs0 : list (@Event Input)) (D0 : list nat)
    (p : OwningPolicy) (cs : list (@Event Input)) (h : Handle) :
  (SetState h p).1 = None -> accounts cs0 D0 p cs ->
  accounts cs0 D0 (SetState h p).2 cs.
Proof.
  intros Hs (tl & -> & E). exists tl. split; [done|].
  destruct (Owning_SetState h p) as (R & S & D).
  rewrite D, S. rewrite R in Hs. subst h. simpl. rewrite app_nil_r. exact E.
Qed.

Lemma accounts_set_some (cs0 : list (@Event Input)) (D0 : list nat)
    (p : OwningPolicy) (cs : list (@Event Input)) (h : Handle) (s : nat) (b : bool) :
  (SetState h p).1 = Some s -> accounts cs0 D0 p cs ->
  accounts cs0 D0 (SetState h p).2 (cs ++ [mkEvent (CbOnEnter s) b]).
Proof.
  intros Hs (tl & -> & E). exists (tl ++ [mkEvent (CbOnEnter s) b]).
  split; [by rewrite app_assoc|].
  destruct (Owning_SetState h p) as (R & S & D).
  rewrite D, S. rewrite R in Hs. subst h.
  rewrite entered_app, app_assoc, E. simpl. done.
Qed.

Lemma has_freed_call (L : list nat) (p : OwningPolicy)
    (cs : list (@Event Input)) (e : @Event Input) :
  is_enter e = false -> has_freed L p cs -> has_freed L p (cs ++ [e]).
Proof. intros _ Hf. exact Hf. Qed.

Lemma has_freed_set (L : list nat) (p : OwningPolicy)
    (cs cs' : list (@Event Input)) (h : Handle) :
  has_freed L p cs -> has_freed L (SetState h p).2 cs'.
Proof.
  intros (tl & E). destruct (Owning_SetState h p) as (_ & _ & D).
  exists (tl ++ option_list (Storage p)). rewrite D, E, app_assoc. done.
Qed.

Lemma Owning_api_accounts (cs0 : list (@Event Input)) (D0 : list nat) (depth : nat) :
  api_keeps (policy_calls_inv (accounts cs0 D0)) (api_at states depth).
Proof.
  apply api_at_keeps.
  - apply accounts_call.
  - apply accounts_set_none.
  - apply accounts_set_some.
Qed.

Lemma Owning_api_has_freed (L : list nat) (depth : nat) :
  api_keeps (policy_calls_inv (has_freed (Input:=Input) L)) (api_at states depth).
Proof.
  apply api_at_keeps.
  - apply has_freed_call.
  - intros p cs h _. apply has_freed_set.
  - intros p cs h s b _. apply has_freed_set.
Qed.

(** Any public operation, from any world: the log grows, and the deleted and
    held objects grow by the objects entered. *)
Lemma Owning_ops_account (depth : nat) (w w' : World) :
  (exists In r, Run states depth In w = Some (r, w')) \/
  (exists h r, EnterState states depth h w = Some (r, w')) \/
  (exists h r, EnterStateImmediate states depth h w = Some (r, w')) ->
  exists tl, calls w' = calls w ++ tl /\
             freed w' ++ owned w' = freed w ++ owned w ++ entered tl.
Proof.
  intros Hop.
  assert (Hstart : policy_calls_inv (accounts (calls w) (freed w ++ owned w)) w).
  { exists []. rewrite !app_nil_r. done. }
  destruct (Owning_api_accounts (calls w) (freed w ++ owned w) (S depth))
    as (HRun & HEnter & HImm).
  assert (Hend : policy_calls_inv (accounts (calls w) (freed w ++ owned w)) w').
  { destruct Hop as [(In & r & E)|[(h & r & E)|(h & r & E)]].
    - exact (HRun In w r w' E Hstart).
    - exact (HEnter h w r w' E Hstart).
    - exact (HImm h w r w' E Hstart). }
  destruct Hend as (tl & E1 & E2). exists tl. split; [exact E1|].
  unfold freed, owned. rewrite E2, <- app_assoc. done.
Qed.

Lemma WorldInit_accounts (u : U) :
  freed (WorldInit u : World) ++ owned (WorldInit u : World)
    = entered (calls (WorldInit u : World)).
Proof. done. Qed.

Lemma StateTransition_frees (api : @Api Input ReturnType U OwningPolicy)
    (h r : Handle) (s : nat) (w w' : World) :
  api_keeps (policy_calls_inv (has_freed (Input:=Input) (freed w ++ [s]))) api ->
  active w = Some s ->
  StateTransition states api h w = Some (r, w') ->
  exists tl, freed w' = freed w ++ s :: tl.
Proof.
  intros Hapi Hact E. unfold StateTransition in E.
  apply bind_Some in E as (pS & w1 & E1 & E2).
  unfold PolicySetState in E1. injection E1 as <- <-.
  destruct (Owning_SetState h (m_StatePolicy (fsm w))) as (R & S & D).
  unfold active in Hact. simpl in Hact. rewrite Hact in D. simpl in D.
  assert (Hfin : forall w2 : World,
            policy_calls_inv (has_freed (Input:=Input) (freed w ++ [s])) w2 ->
            exists tl, freed w2 = freed w ++ s :: tl).
  { intros w2 (tl & E). exists tl. unfold freed in *. rewrite E, <- app_assoc. done. }
  simpl in S. rewrite S in E2. destruct h as [t|].
  - apply bind_Some in E2 as (x & w2 & E2 & E3). injection E2 as _ <-.
    apply bind_Some in E3 as (y & w3 & E3 & E4). injection E4 as _ <-.
    apply Hfin. eapply (keeps_exec _ api Hapi); [exact E3|].
    exists []. simpl. unfold freed. rewrite app_nil_r. exact D.
  - injection E2 as _ <-. apply Hfin.
    exists []. simpl. unfold freed. rewrite app_nil_r. exact D.
Qed.

Lemma InProgressGuard_Some {A} (body : @M Input U OwningPolicy A) (w w' : World) (a : A) :
  InProgressGuard body w = Some (a, w') ->
  exists w1,
    body (mkWorld (mkFSM true (m_StatePolicy (fsm w)) (m_DeferredState (fsm w)))
                  (heap w) (calls w) (queued w) (dequeued w)) = Some (a, w1) /\
    w' = mkWorld (mkFSM false (m_StatePolicy (fsm w1)) (m_DeferredState (fsm w1)))
                 (heap w1) (calls w1) (queued w1) (dequeued w1).
Proof.
  unfold InProgressGuard. intros E.
  apply bind_Some in E as (x & w0 & E0 & E). injection E0 as _ <-.
  apply bind_Some in E as (a' & w1 & E1 & E).
  apply bind_Some in E as (y & w2 & E2 & E). injection E2 as _ <-.
  injection E as <- <-. exists w1. done.
Qed.

(** X16. Under the owning policy a transition that is applied at once
    deletes the object that was active, whatever handle is requested and
    whatever the callbacks do afterwards: [EnterStateImmediate], and
    [EnterState] on an idle machine, leave it among the deleted objects,
    right after those deleted before.  This holds at any nesting depth, so
    also when the call comes from a callback of the active object itself. *)
Theorem Owning_transition_deletes_active (depth : nat) (h r : Handle) (s : nat)
    (w w' : World) :
  active w = Some s ->
  EnterStateImmediate states depth h w = Some (r, w') \/
  (m_InProgress (fsm w) = false /\ EnterState states depth h w = Some (r, w')) ->
  exists tl, freed w' = freed w ++ s :: tl.
Proof.
  intros Hact Hop.
  assert (E : EnterStateImmediate_with states (api_at states depth) h w = Some (r, w')).
  { destruct Hop as [E|[Hidle E]]; [exact E|].
    unfold EnterState, EnterState_with in E.
    apply bind_Some in E as (ip & w0 & E0 & E). injection E0 as <- <-.
    rewrite Hidle in E. exact E. }
  apply InProgressGuard_Some in E as (w1 & E1 & ->).
  eapply (StateTransition_frees (api_at states depth) h r s) in E1.
  - exact E1.
  - apply Owning_api_has_freed.
  - exact Hact.
Qed.

(** The unchecked [Run], callbacks not calling the machine: what is deleted. *)
Lemma Run_call_free_frees (depth : nat) (In : Input) (w : World) (s : nat)
    (out : ReturnType) (next : Handle) (u1 u2 u3 : U) :
  deferred_wf w -> active w = Some s ->
  run_member (Update (states s) In) (heap w) = Some ((out, next), u1) ->
  run_member (exit_script states s next) u1 = Some (tt, u2) ->
  run_member (enter_script states (default None (head (pending w ++ pushed w s next)))) u2
    = Some (tt, u3) ->
  exists w',
    Run states depth In w = Some (Some out, w') /\
    active w' = default (Some s) (head (pending w ++ pushed w s next)) /\
    freed w' = freed w ++
               match head (pending w ++ pushed w s next) with
               | Some _ => [s]
               | None => []
               end.
Proof.
  intros Hwf Hact Hupd Hexit Henter.
  destruct (Run_call_free states depth In w s out next u1 u2 u3
              Hwf Hact Hupd Hexit Henter)
    as (w' & E & _ & Hact' & _ & _ & _ & Hcalls & _).
  exists w'. split; [exact E|]. split; [exact Hact'|].
  destruct (Owning_ops_account depth w w') as (tl & E1 & E2).
  { left. eauto. }
  rewrite Hcalls in E1. apply app_inv_head in E1. subst tl.
  unfold owned in E2. unfold active in Hact, Hact'. simpl in Hact, Hact'.
  rewrite Hact, Hact' in E2.
  rewrite entered_in_progress, !map_app, !entered_app in E2. simpl in E2.
  assert (Hx : entered (map (fun c => mkEvent c false) (@exit_calls Input s next)) = []).
  { unfold exit_calls. by destruct (decide (next = Some s)). }
  rewrite Hx in E2. simpl in E2.
  destruct (head (pending w ++ pushed w s next)) as [[t|]|]; simpl in E2.
  - replace (freed w ++ [s; t]) with ((freed w ++ [s]) ++ [t]) in E2
      by (by rewrite <- app_assoc).
    by apply app_inj_tail in E2 as [E2 _].
  - by rewrite app_nil_r in E2.
  - rewrite app_nil_r. by apply app_inj_tail in E2 as [E2 _].
Qed.

End OwningFacts.

(** The owning policy on the concrete machine. *)

Lemma Owning_transition_deletes_active_witness :
  (active Demo.w_A = Some 0%nat /\
   (EnterStateImmediate Demo.states 0 (Some 1%nat) Demo.w_A
      = Some (Some 1%nat, DemoOwning.w_B) \/
    (m_InProgress (fsm Demo.w_A) = false /\
     EnterState Demo.states 0 (Some 1%nat) Demo.w_A = Some (Some 1%nat, DemoOwning.w_B)))) /\
  exists tl, freed DemoOwning.w_B = freed Demo.w_A ++ 0%nat :: tl.
Proof.
  split; [split; [vm_compute; reflexivity | left; vm_compute; reflexivity]|].
  apply (Owning_transition_deletes_active Demo.states 0 (Some 1%nat) (Some 1%nat) 0
           Demo.w_A DemoOwning.w_B);
    [vm_compute; reflexivity | left; vm_compute; reflexivity].
Defined.

(** * RNG *)

Section RNGFacts.

Variable Engine : Type.
Variable uniform_int : Z -> Z -> Engine -> Z * Engine.

(** What [std::uniform_int_distribution] guarantees of a draw. *)
Hypothesis uniform_int_range : forall Min Max e,
  Min <= Max -> Min <= (uniform_int Min Max e).1 <= Max.

Lemma Vector_loop_spec (n : nat) (Min Max : Z) :
  Min <= Max ->
  forall (Result : list Z) (e : Engine),
  Forall (fun x => Min <= x <= Max) Result ->
  exists Result' e',
    RNG.Vector_loop Engine uniform_int n Min Max Result e = Some (Result', e') /\
    length Result' = (length Result + n)%nat /\
    Forall (fun x => Min <= x <= Max) Result'.
Proof.
  intros Hle. induction n as [|n IH]; intros Result e HF; simpl.
  - exists Result, e. split; [done|]. split; [lia|done].
  - unfold RNG.Value. destruct (Z.leb_spec Min Max); [|lia].
    destruct (uniform_int Min Max e) as [x e'] eqn:Eu.
    pose proof (uniform_int_range Min Max e Hle) as Hx. rewrite Eu in Hx. simpl in Hx.
    destruct (IH (Result ++ [x]) e') as (R & e2 & E & L & F).
    { apply Forall_app. split; [done|]. by apply Forall_singleton. }
    exists R, e2. split; [done|]. split; [|done].
    rewrite L, length_app. simpl. lia.
Qed.

Lemma ByteVector_loop_spec (n : nat) :
  forall (Result : list Z) (e : Engine),
  Forall (fun x => 0 <= x < 256) Result ->
  exists Result' e',
    RNG.ByteVector_loop Engine uniform_int n Result e = Some (Result', e') /\
    length Result' = (length Result + n)%nat /\
    Forall (fun x => 0 <= x < 256) Result'.
Proof.
  induction n as [|n IH]; intros Result e HF; simpl.
  - exists Result, e. split; [done|]. split; [lia|done].
  - unfold RNG.Value_uint8. simpl.
    destruct (IH (Result ++ [u8 (uniform_int 0 255 e).1]) (uniform_int 0 255 e).2)
      as (R & e2 & E & L & F).
    { apply Forall_app. split; [done|]. apply Forall_singleton.
      unfold u8. apply Z.mod_pos_bound. lia. }
    exists R, e2. split; [done|]. split; [|done].
    rewrite L, length_app. simpl. lia.
Qed.

Lemma String_loop_spec (n : nat) (Set_ : list Ascii.ascii) :
  Set_ <> [] ->
  forall (Result : list Ascii.ascii) (e : Engine),
  Forall (fun c => In c Set_) Result ->
  exists Result' e',
    RNG.String_loop Engine uniform_int n Set_ Result e = Some (Result', e') /\
    length Result' = (length Result + n)%nat /\
    Forall (fun c => In c Set_) Result'.
Proof.
  intros Hne. induction n as [|n IH]; intros Result e HF; simpl.
  - exists Result, e. split; [done|]. split; [lia|done].
  - assert (Hlen : 0 <= Z.of_nat (length Set_) - 1).
    { destruct Set_; [done|simpl; lia]. }
    unfold RNG.Value.
    destruct (Z.leb_spec 0 (Z.of_nat (length Set_) - 1)); [|lia].
    destruct (uniform_int 0 (Z.of_nat (length Set_) - 1) e) as [Index e'] eqn:Eu.
    pose proof (uniform_int_range 0 (Z.of_nat (length Set_) - 1) e Hlen) as Hx.
    rewrite Eu in Hx. simpl in Hx.
    destruct (lookup_lt_is_Some_2 Set_ (Z.to_nat Index)) as [c Ec]; [lia|].
    rewrite Ec. destruct (Z.leb_spec 0 Index); [|lia].
    destruct (IH (Result ++ [c]) e') as (R & e2 & E & L & F).
    { apply Forall_app. split; [done|]. apply Forall_singleton.
      apply list_elem_of_In. by eapply list_elem_of_lookup_2. }
    exists R, e2. split; [done|]. split; [|done].
    rewrite L, length_app. simpl. lia.
Qed.

(** X19. [String] never draws from an empty range and never indexes outside
    the set: it always returns.  For an empty set the result is empty and
    the engine is not used; otherwise the result has exactly [Length]
    characters, each of them from the set. *)
Theorem String_chars_from_Set (Length : Z) (Set_ : list Ascii.ascii) (e : Engine) :
  0 <= Length ->
  exists Result e',
    RNG.String Engine uniform_int Length Set_ e = Some (Result, e') /\
    (Set_ = [] -> Result = [] /\ e' = e) /\
    (Set_ <> [] ->
     Z.of_nat (length Result) = Length /\ Forall (fun c => In c Set_) Result).
Proof.
  intros HL. destruct Set_ as [|c0 rest].
  - exists [], e. split; [done|]. split; [done|]. intros Hne. by destruct Hne.
  - assert (Hne : c0 :: rest <> []) by done.
    destruct (String_loop_spec (Z.to_nat Length) (c0 :: rest) Hne [] e)
      as (R & e2 & E & L & F); [by apply Forall_nil|].
    exists R, e2. unfold RNG.String.
    split; [exact E|]. split; [done|].
    intros _. split; [|exact F]. rewrite L. simpl. lia.
Qed.

(** X20. [Vector] with [Min <= Max] returns exactly [N] values, each within
    [[Min, Max]]; [ByteVector] returns exactly [N] values, each a byte.
    With [Max < Min] and [0 < N], [Vector] constructs a distribution on an
    empty range, which is undefined. *)
Theorem Vector_values_in_range (N Min Max : Z) (e : Engine) :
  0 <= N ->
  (Min <= Max ->
   exists Result e',
     RNG.Vector Engine uniform_int N Min Max e = Some (Result, e') /\
     Z.of_nat (length Result) = N /\
     Forall (fun x => Min <= x <= Max) Result) /\
  (Max < Min -> 0 < N -> RNG.Vector Engine uniform_int N Min Max e = None) /\
  (exists Result e',
     RNG.ByteVector Engine uniform_int N e = Some (Result, e') /\
     Z.of_nat (length Result) = N /\
     Forall (fun x => 0 <= x < 256) Result).
Proof.
  intros HN. split; [|split].
  - intros Hle.
    destruct (Vector_loop_spec (Z.to_nat N) Min Max Hle [] e)
      as (R & e2 & E & L & F); [by apply Forall_nil|].
    exists R, e2. split; [exact E|]. split; [|exact F]. rewrite L. simpl. lia.
  - intros Hlt Hpos. unfold RNG.Vector.
    destruct (Z.to_nat N) as [|n] eqn:En; [lia|]. simpl.
    unfold RNG.Value. destruct (Z.leb_spec Min Max); [lia|done].
  - destruct (ByteVector_loop_spec (Z.to_nat N) [] e)
      as (R & e2 & E & L & F); [by apply Forall_nil|].
    exists R, e2. split; [exact E|]. split; [|exact F]. rewrite L. simpl. lia.
Qed.

End RNGFacts.

Lemma lcg_uniform_range (Min Max e : Z) :
  Min <= Max -> Min <= (RNG.lcg_uniform Min Max e).1 <= Max.
Proof.
  intros Hle. unfold RNG.lcg_uniform. simpl.
  pose proof (Z.mod_pos_bound e (Max - Min + 1)). lia.
Qed.

Lemma String_chars_from_Set_witness :
  ((forall Min Max e, Min <= Max -> Min <= (RNG.lcg_uniform Min Max e).1 <= Max) /\
   0 <= 12) /\
  exists Result e',
    RNG.String Z RNG.lcg_uniform 12 RNG.CharSet.Hex 2026 = Some (Result, e') /\
    (RNG.CharSet.Hex = [] -> Result = [] /\ e' = 2026) /\
    (RNG.CharSet.Hex <> [] ->
     Z.of_nat (length Result) = 12 /\
     Forall (fun c => In c RNG.CharSet.Hex) Result).
Proof.
  split; [split; [exact lcg_uniform_range | lia]|].
  apply (String_chars_from_Set Z RNG.lcg_uniform lcg_uniform_range 12
           RNG.CharSet.Hex 2026).
  lia.
Defined.

Lemma Vector_values_in_range_witness :
  ((forall Min Max e, Min <= Max -> Min <= (RNG.lcg_uniform Min Max e).1 <= Max) /\
   0 <= 5) /\
  (-3 <= 40 ->
   exists Result e',
     RNG.Vector Z RNG.lcg_uniform 5 (-3) 40 7 = Some (Result, e') /\
     Z.of_nat (length Result) = 5 /\
     Forall (fun x => -3 <= x <= 40) Result) /\
  (40 < -3 -> 0 < 5 -> RNG.Vector Z RNG.lcg_uniform 5 (-3) 40 7 = None) /\
  (exists Result e',
     RNG.ByteVector Z RNG.lcg_uniform 5 7 = Some (Result, e') /\
     Z.of_nat (length Result) = 5 /\
     Forall (fun x => 0 <= x < 256) Result).
Proof.
  split; [split; [exact lcg_uniform_range | lia]|].
  apply (Vector_values_in_range Z RNG.lcg_uniform lcg_uniform_range 5 (-3) 40 7).
  lia.
Defined.

(** * The two revisions of the machine *)

Section StateMachineRevisions.

Context {Input ReturnType U P : Type} `{IStatePolicy P} `{!StatePolicyLaws P}.
Variable states : nat -> @IDynamicState Input ReturnType U.

Local Abbreviation World := (@World Input U P).

Lemma pushed_empty_queue (w : World) (s : nat) (next : Handle) :
  pending w = [] ->
  pushed w s next = if decide (next = Some s) then [] else [next].
Proof.
  intros Hp. unfold pushed. rewrite Hp. simpl.
  destruct (decide (next = Some s)); done.
Qed.

Lemma Old_Run_call_free (depth : nat) (In : Input) (w : World) (s : nat)
    (out : ReturnType) (next : Handle) (u1 u2 u3 : U) :
  active w = Some s ->
  run_member (Update (states s) In) (heap w) = Some ((out, next), u1) ->
  run_member (exit_script states s next) u1 = Some (tt, u2) ->
  run_member (enter_script states (if decide (next = Some s) then None else next)) u2
    = Some (tt, u3) ->
  exists w',
    StateMachineOld.Run states depth In w = Some (Some out, w') /\
    active w' = next /\
    m_InProgress (fsm w') = m_InProgress (fsm w) /\
    m_DeferredState (fsm w') = m_DeferredState (fsm w) /\
    heap w' = u3 /\
    map ev_call (calls w') = map ev_call (calls w) ++
      [CbUpdate s In] ++ exit_calls s next ++
      enter_calls (if decide (next = Some s) then None else next).
Proof.
  intros Hact Hupd Hexit Henter.
  destruct w as [[ip pol buf] u c q d].
  unfold active in Hact. simpl in Hact, Hupd.
  unfold StateMachineOld.Run, StateMachineOld.Run_with.
  unfold bind at 1. simpl. rewrite Hact.
  unfold bind at 1. simpl. unfold bind at 1.
  rewrite (exec_run_member _ _ _ _ _ _ _ _ _ Hupd). simpl.
  unfold exit_script, exit_calls in *.
  destruct (decide (next = Some s)) as [E|E].
  - simpl in Hexit, Henter. injection Hexit as <-. injection Henter as <-.
    unfold bind, ret. simpl. eexists. split; [reflexivity|].
    unfold active. simpl. rewrite map_app. simpl. rewrite Hact, E. done.
  - unfold bind at 1. unfold bind at 1. simpl. unfold bind at 1.
    rewrite (exec_run_member _ _ _ _ _ _ _ _ _ Hexit).
    unfold bind at 1.
    match goal with
    | |- context [StateTransition states ?api next ?w0] =>
        destruct (StateTransition_spec states api next w0 u3 Henter)
          as (w1 & E1 & Hip & Hact1 & Hbuf & Hheap & Hcalls & _)
    end.
    rewrite E1. unfold bind, ret. simpl. exists w1. split; [reflexivity|].
    simpl in *. rewrite Hcalls, !map_app, map_map. simpl.
    rewrite map_id, <- !app_assoc. simpl. done.
Qed.

(** X21. On a machine with nothing pending and callbacks that do not call
    the machine, [Run] of the later revision does what [Run] of the earlier
    one does: both return [Update]'s output, both end with the handle
    [Update] asked for as the active one and the same object data, and both
    make the same virtual calls in the same order, [Update], then [OnExit]
    and [OnEnter] if the handle differs.  The later revision leaves its
    queue empty again, so this holds call after call. *)
Theorem Run_agrees_with_earlier_revision (depth : nat) (In : Input) (w : World)
    (s : nat) (out : ReturnType) (next : Handle) (u1 u2 u3 : U) :
  deferred_wf w -> pending w = [] -> active w = Some s ->
  run_member (Update (states s) In) (heap w) = Some ((out, next), u1) ->
  run_member (exit_script states s next) u1 = Some (tt, u2) ->
  run_member (enter_script states (if decide (next = Some s) then None else next)) u2
    = Some (tt, u3) ->
  exists wo wn,
    StateMachineOld.Run states depth In w = Some (Some out, wo) /\
    Run states depth In w = Some (Some out, wn) /\
    active wo = next /\ active wn = next /\
    heap wo = heap wn /\
    map ev_call (calls wo) = map ev_call (calls wn) /\
    deferred_wf wn /\ pending wn = [].
Proof.
  intros Hwf Hp Hact Hupd Hexit Henter.
  destruct (Old_Run_call_free depth In w s out next u1 u2 u3 Hact Hupd Hexit Henter)
    as (wo & Eo & Hacto & _ & _ & Hheapo & Hcallso).
  pose proof (pushed_empty_queue w s next Hp) as Hpush.
  assert (Hhead : head (pending w ++ pushed w s next)
                  = if decide (next = Some s) then None else Some next).
  { rewrite Hp, Hpush. simpl. by destruct (decide (next = Some s)). }
  assert (Henter' : run_member
            (enter_script states (default None (head (pending w ++ pushed w s next)))) u2
            = Some (tt, u3)).
  { rewrite Hhead. by destruct (decide (next = Some s)). }
  destruct (Run_call_free states depth In w s out next u1 u2 u3
              Hwf Hact Hupd Hexit Henter')
    as (wn & En & _ & Hactn & Hwfn & Hpendn & Hheapn & Hcallsn & _).
  exists wo, wn. split; [exact Eo|]. split; [exact En|].
  split; [exact Hacto|].
  split.
  { rewrite Hactn, Hhead. destruct (decide (next = Some s)); simpl; done. }
  split; [by rewrite Hheapo, Hheapn|].
  split.
  { rewrite Hcallso, Hcallsn, Hhead. unfold in_progress.
    rewrite map_app, map_map. simpl. rewrite map_id.
    destruct (decide (next = Some s)); simpl; done. }
  split; [exact Hwfn|].
  rewrite Hpendn, Hp, Hpush. simpl. by destruct (decide (next = Some s)).
Qed.

End StateMachineRevisions.

Lemma Run_agrees_with_earlier_revision_witness :
  (deferred_wf Demo.v_A /\ pending Demo.v_A = [] /\ active Demo.v_A = Some 0%nat /\
   run_member (Update (Demo.states 0) 20) (heap Demo.v_A)
     = Some (("To B"%string, Some 1%nat), tt) /\
   run_member (exit_script Demo.states 0 (Some 1%nat)) tt = Some (tt, tt) /\
   run_member
     (enter_script Demo.states
        (if decide (Some 1%nat = Some 0%nat) then None else Some 1%nat)) tt
     = Some (tt, tt)) /\
  exists wo wn,
    StateMachineOld.Run Demo.states 0 20 Demo.v_A = Some (Some "To B"%string, wo) /\
    Run Demo.states 0 20 Demo.v_A = Some (Some "To B"%string, wn) /\
    active wo = Some 1%nat /\ active wn = Some 1%nat /\
    heap wo = heap wn /\
    map ev_call (calls wo) = map ev_call (calls wn) /\
    deferred_wf wn /\ pending wn = [].
Proof.
  assert (Hwf : deferred_wf Demo.v_A).
  { unfold deferred_wf, cb_wf; vm_compute.
    split; [reflexivity|]. split; [split; [discriminate|reflexivity]|].
    split; [split; discriminate|reflexivity]. }
  split.
  - split; [exact Hwf|]. split; [vm_compute; reflexivity|].
    split; [vm_compute; reflexivity|]. split; [vm_compute; reflexivity|].
    split; vm_compute; reflexivity.
  - apply (Run_agrees_with_earlier_revision Demo.states 0 20 Demo.v_A 0
             "To B"%string (Some 1%nat) tt tt tt);
      [exact Hwf | vm_compute; reflexivity ..].
Defined.

(** * The owning machine with lifetimes checked *)

Section OwningMachineRefines.

Context {Input ReturnType U : Type}.
Variable states : nat -> @IDynamicState Input ReturnType U.

Local Abbreviation World := (@World Input U OwningPolicy).
Local Abbreviation M := (@M Input U OwningPolicy).
Local Abbreviation Api := (@Api Input ReturnType U OwningPolicy).

Lemma is_deleted_In (s : nat) (w : World) :
  OwningMachine.is_deleted s w = true <-> In s (freed w).
Proof.
  unfold OwningMachine.is_deleted, freed. rewrite existsb_exists. split.
  - intros (x & Hx & E). apply Nat.eqb_eq in E. by subst x.
  - intros Hin. exists s. split; [done|]. apply Nat.eqb_refl.
Qed.

Lemma is_deleted_false (s : nat) (w : World) :
  ~ In s (freed w) -> OwningMachine.is_deleted s w = false.
Proof.
  intros Hn. destruct (OwningMachine.is_deleted s w) eqn:E; [|done].
  by apply is_deleted_In in E.
Qed.

Lemma refines_refl {A} (m : M A) : refines m m.
Proof. intros w a w' E. exact E. Qed.

Lemma refines_bind {A B} (m' m : M A) (k' k : A -> M B) :
  refines m' m -> (forall a, refines (k' a) (k a)) ->
  refines (bind m' k') (bind m k).
Proof.
  intros Hm Hk w b w' E. apply bind_Some in E as (a & w1 & E1 & E2).
  unfold bind. rewrite (Hm _ _ _ E1). by apply Hk.
Qed.

Lemma refines_VirtualCall (c : @Callback Input) :
  refines (OwningMachine.VirtualCall c : M unit) (Invoke c).
Proof.
  intros w a w' E. unfold OwningMachine.VirtualCall in E.
  by destruct (OwningMachine.is_deleted _ w).
Qed.

Lemma refines_OwningSetState (h : Handle) :
  refines (OwningMachine.OwningSetState h : M Handle) (PolicySetState h).
Proof.
  intros w a w' E. unfold OwningMachine.OwningSetState in E.
  destruct (Storage (m_StatePolicy (fsm w))) as [old|]; [|done].
  by destruct (OwningMachine.is_deleted old w).
Qed.

Section WithApi.

Variables api' api : Api.
Hypothesis api_ok : api_refines api' api.

Lemma refines_exec {R} (s : Script R) : refines (exec api' s) (exec api s).
Proof.
  destruct api_ok as (HRun & HEnter & HImm).
  induction s as [r | f k IH | In k IH | h k IH | h k IH | k IH]; simpl.
  - apply refines_refl.
  - intros w a w' E.
    eapply (refines_bind (SetHeap (f (heap w))) (SetHeap (f (heap w)))
              (fun _ => exec api' (k (f (heap w))))
              (fun _ => exec api (k (f (heap w)))));
      [apply refines_refl | intros _; apply IH | exact E].
  - apply refines_bind; auto.
  - apply refines_bind; auto.
  - apply refines_bind; auto.
  - intros w a w' E. eapply IH; eauto.
Qed.

Lemma refines_InProgressGuard {A} (body' body : M A) :
  refines body' body -> refines (InProgressGuard body') (InProgressGuard body).
Proof.
  intros Hb. unfold InProgressGuard.
  apply refines_bind; [apply refines_refl | intros _].
  apply refines_bind; [exact Hb | intros a]. apply refines_refl.
Qed.

Lemma refines_StateTransition (h : Handle) :
  refines (OwningMachine.StateTransition states api' h) (StateTransition states api h).
Proof.
  unfold OwningMachine.StateTransition, StateTransition.
  apply refines_bind; [apply refines_OwningSetState | intros [s|]];
    [|apply refines_refl].
  apply refines_bind; [apply refines_VirtualCall | intros _].
  apply refines_bind; [apply refines_exec | intros _; apply refines_refl].
Qed.

Lemma refines_Run_exit (s : nat) (next : Handle) :
  refines (OwningMachine.Run_exit states api' s next) (Run_exit states api s next).
Proof.
  unfold OwningMachine.Run_exit, Run_exit.
  destruct (decide (next = Some s)); [apply refines_refl|].
  apply refines_bind; [apply refines_VirtualCall | intros _].
  apply refines_bind; [apply refines_exec | intros _]. apply refines_refl.
Qed.

Lemma refines_Run_drain :
  refines (OwningMachine.Run_drain states api') (Run_drain states api).
Proof.
  unfold OwningMachine.Run_drain, Run_drain.
  apply refines_bind; [apply refines_refl | intros [h|]]; [|apply refines_refl].
  apply refines_bind; [apply refines_StateTransition | intros _; apply refines_refl].
Qed.

Lemma refines_Run_with (In : Input) :
  refines (OwningMachine.Run_with states api' In) (Run_with states api In).
Proof.
  unfold OwningMachine.Run_with, Run_with. apply refines_InProgressGuard.
  apply refines_bind; [apply refines_refl | intros [s|]]; [|apply refines_refl].
  apply refines_bind; [apply refines_VirtualCall | intros _].
  apply refines_bind; [apply refines_exec | intros r].
  apply refines_bind; [apply refines_Run_exit | intros _].
  apply refines_bind; [apply refines_Run_drain | intros _; apply refines_refl].
Qed.

Lemma refines_EnterStateImmediate_with (h : Handle) :
  refines (OwningMachine.EnterStateImmediate_with states api' h)
          (EnterStateImmediate_with states api h).
Proof. apply refines_InProgressGuard, refines_StateTransition. Qed.

Lemma refines_EnterState_with (h : Handle) :
  refines (OwningMachine.EnterState_with states api' h) (EnterState_with states api h).
Proof.
  unfold OwningMachine.EnterState_with, EnterState_with.
  apply refines_bind; [apply refines_refl | intros [|]].
  - apply refines_refl.
  - apply refines_InProgressGuard, refines_StateTransition.
Qed.

End WithApi.

Lemma api_at_refines (depth : nat) :
  api_refines (OwningMachine.api_at states depth) (api_at states depth).
Proof.
  induction depth as [|d IH].
  - split; [|split]; intros x w a w' E; discriminate E.
  - split; [|split]; intros x; simpl.
    + by apply refines_Run_with.
    + by apply refines_EnterState_with.
    + by apply refines_EnterStateImmediate_with.
Qed.

(** An operation that returns with the lifetimes checked returns the same
    without the checks. *)
Lemma OwningMachine_refines (depth : nat) (w w' : World) :
  (exists In r, OwningMachine.Run states depth In w = Some (r, w')) \/
  (exists h r, OwningMachine.EnterState states depth h w = Some (r, w')) \/
  (exists h r, OwningMachine.EnterStateImmediate states depth h w = Some (r, w')) ->
  (exists In r, Run states depth In w = Some (r, w')) \/
  (exists h r, EnterState states depth h w = Some (r, w')) \/
  (exists h r, EnterStateImmediate states depth h w = Some (r, w')).
Proof.
  destruct (api_at_refines (S depth)) as (HRun & HEnter & HImm).
  intros [(In & r & E)|[(h & r & E)|(h & r & E)]].
  - left. exists In, r. exact (HRun In w r w' E).
  - right. left. exists h, r. exact (HEnter h w r w' E).
  - right. right. exists h, r. exact (HImm h w r w' E).
Qed.

End OwningMachineRefines.

(** * Where the checks pass, and where they do not *)

Section OwningMachineLive.

Context {Input ReturnType U : Type}.
Variable states : nat -> @IDynamicState Input ReturnType U.

Local Abbreviation World := (@World Input U OwningPolicy).
Local Abbreviation M := (@M Input U OwningPolicy).
Local Abbreviation Api := (@Api Input ReturnType U OwningPolicy).

Lemma bind_agree {A B} (m' m : M A) (k' k : A -> M B) (w : World) :
  m' w = m w ->
  (forall a w1, m w = Some (a, w1) -> k' a w1 = k a w1) ->
  bind m' k' w = bind m k w.
Proof.
  intros Em Hk. unfold bind. rewrite Em.
  destruct (m w) as [[a w1]|]; [|done]. by apply Hk.
Qed.

Lemma bind_undefined {A B} (m : M A) (k : A -> M B) (w w1 : World) (a : A) :
  m w = Some (a, w1) -> k a w1 = None -> bind m k w = None.
Proof. intros Em Ek. unfold bind. by rewrite Em. Qed.

Lemma VirtualCall_live (c : @Callback Input) (w : World) :
  ~ In (OwningMachine.callee c) (freed w) ->
  OwningMachine.VirtualCall c w = Invoke c w.
Proof.
  intros Hn. unfold OwningMachine.VirtualCall.
  by rewrite is_deleted_false.
Qed.

Lemma VirtualCall_deleted (c : @Callback Input) (w : World) :
  In (OwningMachine.callee c) (freed w) ->
  OwningMachine.VirtualCall c w = None.
Proof.
  intros Hin. unfold OwningMachine.VirtualCall.
  apply is_deleted_In in Hin. by rewrite Hin.
Qed.

Lemma OwningSetState_live (h : Handle) (w : World) :
  (forall old, Storage (m_StatePolicy (fsm w)) = Some old -> ~ In old (freed w)) ->
  OwningMachine.OwningSetState h w = PolicySetState h w.
Proof.
  intros Hold. unfold OwningMachine.OwningSetState.
  destruct (Storage (m_StatePolicy (fsm w))) as [old|] eqn:Es; [|done].
  by rewrite is_deleted_false by auto.
Qed.

Lemma exec_call_free (api' api : Api) {R} (s : Script R) (w : World) (r : R) (u' : U) :
  run_member s (heap w) = Some (r, u') ->
  exec api' s w = exec api s w.
Proof.
  intros Hrun. destruct w as [f u c q d]. simpl in Hrun.
  rewrite (exec_run_member api' s f u c q d r u' Hrun).
  rewrite (exec_run_member api s f u c q d r u' Hrun). done.
Qed.

Lemma StateTransition_live (api' api : Api) (h : Handle) (w : World) (u1 : U) :
  run_member (enter_script states h) (heap w) = Some (tt, u1) ->
  OwningMachine.installable h w ->
  OwningMachine.StateTransition states api' h w = StateTransition states api h w.
Proof.
  intros Hrun [Hold Hnew].
  unfold OwningMachine.StateTransition, StateTransition.
  apply bind_agree; [by apply OwningSetState_live|].
  intros pS w1 E1. unfold PolicySetState in E1. injection E1 as <- <-.
  destruct (Owning_SetState h (m_StatePolicy (fsm w))) as (R & S & D).
  simpl in S. simpl. rewrite S. destruct h as [t|]; [|done].
  destruct (Hnew t eq_refl) as [Hne Hfresh].
  apply bind_agree.
  - apply VirtualCall_live. unfold freed. simpl. simpl in D. rewrite D.
    intros Hin. apply in_app_or in Hin as [Hin|Hin]; [done|].
    destruct (Storage (m_StatePolicy (fsm w))) as [old|]; simpl in Hin; [|done].
    destruct Hin as [->|[]]. done.
  - intros x w2 E2. injection E2 as _ <-.
    apply bind_agree; [|done].
    by apply (exec_call_free api' api _ _ tt u1).
Qed.

Lemma StateTransition_undefined (api : Api) (t : nat) (w : World) :
  active w = Some t \/ In t (freed w) ->
  OwningMachine.StateTransition states api (Some t) w = None.
Proof.
  intros Hbad. unfold OwningMachine.StateTransition.
  unfold bind at 1. unfold OwningMachine.OwningSetState.
  destruct (Owning_SetState (Some t) (m_StatePolicy (fsm w))) as (R & S & D).
  assert (Hcall : forall w1 : World,
            PolicySetState (Some t) w = Some (Some t, w1) ->
            bind (OwningMachine.VirtualCall (CbOnEnter t))
              (fun _ => bind (exec api (OnEnter (states t)))
                 (fun _ => ret (Some t))) w1 = None).
  { intros w1 E1. unfold PolicySetState in E1. injection E1 as _ <-.
    unfold bind at 1. rewrite VirtualCall_deleted; [done|].
    unfold freed. simpl. simpl in D. rewrite D. apply in_or_app.
    destruct Hbad as [Hact|Hin]; [right|by left].
    unfold active in Hact. simpl in Hact. rewrite Hact. by left. }
  assert (Hset : PolicySetState (Some t) w
                 = Some (Some t,
                         mkWorld (mkFSM (m_InProgress (fsm w))
                                    (SetState (Some t) (m_StatePolicy (fsm w))).2
                                    (m_DeferredState (fsm w)))
                                 (heap w) (calls w) (queued w) (dequeued w))).
  { unfold PolicySetState. by rewrite R. }
  destruct (Storage (m_StatePolicy (fsm w))) as [old|] eqn:Es.
  - destruct (OwningMachine.is_deleted old w); [done|].
    rewrite Hset. by apply Hcall.
  - rewrite Hset. by apply Hcall.
Qed.

Lemma Run_exit_live (api' api : Api) (s : nat) (next : Handle) (w : World) (u2 : U) :
  ~ In s (freed w) ->
  run_member (exit_script states s next) (heap w) = Some (tt, u2) ->
  OwningMachine.Run_exit states api' s next w = Run_exit states api s next w.
Proof.
  intros Hlive Hrun. unfold OwningMachine.Run_exit, Run_exit, exit_script in *.
  destruct (decide (next = Some s)); [done|].
  apply bind_agree; [by apply VirtualCall_live|].
  intros x w1 E1. injection E1 as _ <-.
  apply bind_agree; [|done].
  by apply (exec_call_free api' api _ _ tt u2).
Qed.

Lemma DeferredDequeue_head (w w1 : World) (a : option Handle) :
  deferred_wf w ->
  DeferredDequeue w = Some (a, w1) ->
  a = head (pending w) /\
  m_StatePolicy (fsm w1) = m_StatePolicy (fsm w) /\ heap w1 = heap w.
Proof.
  intros Hwf E. unfold DeferredDequeue in E. injection E as <- <-. simpl.
  split; [|done].
  pose proof (Dequeue_contents DeferredCapacity DeferredCapacity_range
                (m_DeferredState (fsm w)) Hwf) as D.
  unfold pending.
  destruct (contents DeferredCapacity (m_DeferredState (fsm w))) as [|x rest].
  - by rewrite D.
  - by destruct D as [-> _].
Qed.

Lemma installable_same_policy (h : Handle) (w w1 : World) :
  m_StatePolicy (fsm w1) = m_StatePolicy (fsm w) ->
  OwningMachine.installable h w -> OwningMachine.installable h w1.
Proof. intros E. unfold OwningMachine.installable. by rewrite E. Qed.

Lemma Run_drain_live (api' api : Api) (w : World) (u3 : U) :
  deferred_wf w ->
  run_member (enter_script states (default None (head (pending w)))) (heap w)
    = Some (tt, u3) ->
  (forall h, head (pending w) = Some h -> OwningMachine.installable h w) ->
  OwningMachine.Run_drain states api' w = Run_drain states api w.
Proof.
  intros Hwf Hrun Hinst. unfold OwningMachine.Run_drain, Run_drain.
  apply bind_agree; [done|].
  intros a w1 E1. destruct (DeferredDequeue_head w w1 a Hwf E1) as (-> & Hpol & Hheap).
  destruct (head (pending w)) as [h|] eqn:Eh; [|done].
  apply bind_agree; [|done]. simpl in Hrun.
  apply (StateTransition_live api' api h w1 u3); [by rewrite Hheap|].
  apply (installable_same_policy h w w1 Hpol). by apply Hinst.
Qed.

Lemma Run_drain_undefined (api : Api) (w : World) (t : nat) :
  deferred_wf w ->
  head (pending w) = Some (Some t) ->
  active w = Some t \/ In t (freed w) ->
  OwningMachine.Run_drain states api w = None.
Proof.
  intros Hwf Hhead Hbad. unfold OwningMachine.Run_drain.
  destruct (DeferredDequeue w) as [[a w1]|] eqn:E1; [|done].
  destruct (DeferredDequeue_head w w1 a Hwf E1) as (-> & Hpol & Hheap).
  unfold bind. rewrite E1, Hhead.
  rewrite StateTransition_undefined; [done|].
  unfold active, freed in *. by rewrite Hpol.
Qed.

End OwningMachineLive.

(** * [Run] over the owning policy *)

Section OwningMachineRun.

Context {Input ReturnType U : Type}.
Variable states : nat -> @IDynamicState Input ReturnType U.

Local Abbreviation World := (@World Input U OwningPolicy).
Local Abbreviation M := (@M Input U OwningPolicy).
Local Abbreviation Api := (@Api Input ReturnType U OwningPolicy).

(** The world in which [Run] reaches the queue. *)
Lemma Run_exit_reaches (api : Api) (In : Input) (w : World) (s : nat)
    (next : Handle) (u1 u2 : U) (w4 : World) :
  deferred_wf w ->
  run_member (exit_script states s next) u1 = Some (tt, u2) ->
  Run_exit states api s next
    (mkWorld (mkFSM true (m_StatePolicy (fsm w)) (m_DeferredState (fsm w)))
             u1 (calls w ++ [mkEvent (CbUpdate s In) true]) (queued w) (dequeued w))
    = Some (tt, w4) ->
  m_StatePolicy (fsm w4) = m_StatePolicy (fsm w) /\
  deferred_wf w4 /\
  pending w4 = pending w ++ pushed w s next /\
  heap w4 = u2.
Proof.
  intros Hwf Hexit E.
  match type of E with
  | Run_exit _ _ _ _ ?w3 = _ =>
      destruct (Run_exit_spec states api s next w3 u2 Hwf Hexit)
        as (w' & E' & _ & Hpol & Hwf' & Hpend & Hheap & _)
  end.
  rewrite E' in E. injection E as <-. done.
Qed.

Lemma Run_live (depth depth' : nat) (In : Input) (w : World) (s : nat)
    (out : ReturnType) (next : Handle) (u1 u2 u3 : U) :
  deferred_wf w -> active w = Some s -> ~ List.In s (freed w) ->
  run_member (Update (states s) In) (heap w) = Some ((out, next), u1) ->
  run_member (exit_script states s next) u1 = Some (tt, u2) ->
  run_member (enter_script states (default None (head (pending w ++ pushed w s next)))) u2
    = Some (tt, u3) ->
  (forall h, head (pending w ++ pushed w s next) = Some h ->
             OwningMachine.installable h w) ->
  OwningMachine.Run states depth In w = Run states depth' In w.
Proof.
  intros Hwf Hact Hlive Hupd Hexit Henter Hinst.
  unfold OwningMachine.Run, Run, OwningMachine.Run_with, Run_with, InProgressGuard.
  apply bind_agree; [done|]. intros x w0 E0. injection E0 as _ <-.
  apply bind_agree; [|done].
  apply bind_agree; [done|]. intros pS w1 E1. injection E1 as <- <-.
  cbn [fsm m_StatePolicy]. unfold active in Hact. simpl in Hact. rewrite Hact.
  apply bind_agree; [by apply VirtualCall_live|].
  intros y w2 E2. injection E2 as _ <-. cbn [fsm m_InProgress heap calls queued dequeued].
  apply bind_agree; [by apply (exec_call_free _ _ _ _ (out, next) u1)|].
  intros r w3 E3.
  rewrite (exec_run_member _ _ _ _ _ _ _ _ _ Hupd) in E3. injection E3 as <- <-.
  cbn [fst snd].
  apply bind_agree; [by apply (Run_exit_live states _ _ s next _ u2)|].
  intros z w4 E4. destruct z.
  destruct (Run_exit_reaches _ In w s next u1 u2 w4 Hwf Hexit E4)
    as (Hpol & Hwf4 & Hpend & Hheap).
  apply bind_agree; [|done].
  apply (Run_drain_live states _ _ w4 u3 Hwf4).
  - by rewrite Hpend, Hheap.
  - intros h Hh. rewrite Hpend in Hh.
    apply (installable_same_policy h w w4 Hpol). by apply Hinst.
Qed.

Lemma Run_undefined (depth : nat) (In : Input) (w : World) (s t : nat)
    (out : ReturnType) (next : Handle) (u1 u2 : U) :
  deferred_wf w -> active w = Some s ->
  run_member (Update (states s) In) (heap w) = Some ((out, next), u1) ->
  run_member (exit_script states s next) u1 = Some (tt, u2) ->
  head (pending w ++ pushed w s next) = Some (Some t) ->
  t = s \/ List.In t (freed w) ->
  OwningMachine.Run states depth In w = None.
Proof.
  intros Hwf Hact Hupd Hexit Hhead Hbad.
  unfold OwningMachine.Run, OwningMachine.Run_with, InProgressGuard.
  unfold bind at 1. cbn [SetFlag]. unfold bind at 1.
  match goal with
  | |- match ?body ?w0 with _ => _ end = None =>
      assert (Hbody : body w0 = None); [|by rewrite Hbody]
  end.
  unfold bind at 1. cbn [PolicyGet fsm m_StatePolicy].
  unfold active in Hact. rewrite Hact.
  unfold bind at 1.
  destruct (OwningMachine.VirtualCall (CbUpdate s In) _) as [[y w2]|] eqn:E2; [|done].
  apply refines_VirtualCall in E2. injection E2 as _ <-.
  cbn [fsm m_InProgress heap calls queued dequeued].
  unfold bind at 1.
  rewrite (exec_run_member _ _ _ _ _ _ _ _ _ Hupd). cbn [fst snd].
  unfold bind at 1.
  destruct (OwningMachine.Run_exit states _ s next _) as [[z w4]|] eqn:E4; [|done].
  apply (refines_Run_exit states _ _ (api_at_refines states depth)) in E4.
  destruct z.
  destruct (Run_exit_reaches _ In w s next u1 u2 w4 Hwf Hexit E4)
    as (Hpol & Hwf4 & Hpend & Hheap).
  unfold bind at 1.
  rewrite (Run_drain_undefined states _ w4 t Hwf4); [done | by rewrite Hpend |].
  unfold active, freed in *. rewrite Hpol.
  destruct Hbad as [->|Hin]; [by left | by right].
Qed.

End OwningMachineRun.

(** * Object lifetimes under the owning policy *)

Section OwningLifetimes.

Context {Input ReturnType U : Type}.
Variable states : nat -> @IDynamicState Input ReturnType U.

Local Abbreviation World := (@World Input U OwningPolicy).
Local Abbreviation M := (@M Input U OwningPolicy).

Lemma InProgressGuard_undefined {A} (body : M A) (w : World) :
  body (mkWorld (mkFSM true (m_StatePolicy (fsm w)) (m_DeferredState (fsm w)))
                (heap w) (calls w) (queued w) (dequeued w)) = None ->
  InProgressGuard body w = None.
Proof.
  intros E. unfold InProgressGuard. unfold bind at 1. cbn [SetFlag].
  unfold bind at 1. by rewrite E.
Qed.

Lemma EnterStateImmediate_undefined (depth : nat) (t : nat) (w : World) :
  active w = Some t \/ In t (freed w) ->
  OwningMachine.EnterStateImmediate states depth (Some t) w = None.
Proof.
  intros Hbad. unfold OwningMachine.EnterStateImmediate,
    OwningMachine.EnterStateImmediate_with.
  apply InProgressGuard_undefined. by apply StateTransition_undefined.
Qed.

Lemma EnterState_undefined (depth : nat) (t : nat) (w : World) :
  m_InProgress (fsm w) = false ->
  active w = Some t \/ In t (freed w) ->
  OwningMachine.EnterState states depth (Some t) w = None.
Proof.
  intros Hidle Hbad. unfold OwningMachine.EnterState, OwningMachine.EnterState_with.
  unfold bind at 1, GetFlag. rewrite Hidle.
  apply InProgressGuard_undefined. by apply StateTransition_undefined.
Qed.

(** X15. Under the owning policy, with callbacks that may call back into
    the machine to any depth: across any public operation that returns
    without calling through a deleted object, the objects deleted followed
    by the object held grow by exactly the objects whose [OnEnter] was
    called in between, in that order.  So on a machine where the two
    agreed, as on a fresh one, they agree again; and as long as no object
    has been entered twice, none has been deleted twice and the one held is
    not among the deleted. *)
Theorem Owning_deleted_are_entered (depth : nat) (w w' : World) :
  (exists In r, OwningMachine.Run states depth In w = Some (r, w')) \/
  (exists h r, OwningMachine.EnterState states depth h w = Some (r, w')) \/
  (exists h r, OwningMachine.EnterStateImmediate states depth h w = Some (r, w')) ->
  freed w' ++ owned w' = freed w ++ owned w ++ entered (calls_since w w') /\
  (freed w ++ owned w = entered (calls w) ->
   freed w' ++ owned w' = entered (calls w') /\
   (List.NoDup (entered (calls w')) ->
    List.NoDup (freed w') /\ forall s, active w' = Some s -> ~ In s (freed w'))).
Proof.
  intros Hop. apply (OwningMachine_refines states) in Hop.
  destruct (Owning_ops_account states depth w w' Hop) as (tl & E1 & E2).
  rewrite (calls_since_app w w' tl E1). split; [exact E2|].
  intros Hinv.
  assert (Hinv' : freed w' ++ owned w' = entered (calls w')).
  { rewrite E2, E1, entered_app, <- Hinv, <- app_assoc. done. }
  split; [exact Hinv'|].
  intros Hnd. rewrite <- Hinv' in Hnd.
  split; [exact (List.NoDup_app_remove_r _ _ Hnd)|].
  intros s Hact Hin. unfold owned in Hnd.
  unfold active in Hact. simpl in Hact. rewrite Hact in Hnd. simpl in Hnd.
  apply List.NoDup_remove_2 in Hnd. apply Hnd.
  rewrite app_nil_r. exact Hin.
Qed.

(** X17. Under the owning policy, installing a handle to the object the
    policy already holds, or to an object it has deleted, is undefined at
    any nesting depth: [SetState] deletes the object held and [OnEnter] is
    then called through a dangling pointer.  This is so for
    [EnterStateImmediate], for [EnterState] on an idle machine, and for a
    [Run] that takes such a handle out of the deferred queue, where it may
    have been put by an [EnterState] that returned normally. *)
Theorem Owning_dangling_handle_is_undefined (depth : nat) (t : nat) (w : World) :
  active w = Some t \/ In t (freed w) ->
  OwningMachine.EnterStateImmediate states depth (Some t) w = None /\
  (m_InProgress (fsm w) = false ->
   OwningMachine.EnterState states depth (Some t) w = None) /\
  (forall (Inp : Input) (s : nat) (out : ReturnType) (next : Handle) (u1 u2 : U),
     deferred_wf w -> active w = Some s ->
     run_member (Update (states s) Inp) (heap w) = Some ((out, next), u1) ->
     run_member (exit_script states s next) u1 = Some (tt, u2) ->
     head (pending w ++ pushed w s next) = Some (Some t) ->
     OwningMachine.Run states depth Inp w = None).
Proof.
  intros Hbad. split; [by apply EnterStateImmediate_undefined|].
  split; [intros Hidle; by apply EnterState_undefined|].
  intros Inp s out next u1 u2 Hwf Hact Hupd Hexit Hhead.
  apply (Run_undefined states depth Inp w s t out next u1 u2 Hwf Hact Hupd Hexit Hhead).
  destruct Hbad as [Ht|Hin]; [left; congruence | by right].
Qed.

(** X18. Under the owning policy, with callbacks that do not call the
    machine, an active object that has not been deleted, and a request at
    the head of the queue, if any, that is installable: [Run] returns
    [Update]'s output without calling through a deleted object, and it
    deletes the object it ran exactly when it takes a request out of the
    queue, and nothing else.  A state that stays, with no request pending,
    is kept; a request for [nullptr] deletes it too. *)
Theorem Owning_Run_frees_outgoing (depth : nat) (Inp : Input) (w : World) (s : nat)
    (out : ReturnType) (next : Handle) (u1 u2 u3 : U) :
  deferred_wf w -> active w = Some s -> ~ In s (freed w) ->
  run_member (Update (states s) Inp) (heap w) = Some ((out, next), u1) ->
  run_member (exit_script states s next) u1 = Some (tt, u2) ->
  run_member (enter_script states (default None (head (pending w ++ pushed w s next)))) u2
    = Some (tt, u3) ->
  (forall h, head (pending w ++ pushed w s next) = Some h ->
             OwningMachine.installable h w) ->
  exists w',
    OwningMachine.Run states depth Inp w = Some (Some out, w') /\
    active w' = default (Some s) (head (pending w ++ pushed w s next)) /\
    freed w' = freed w ++
               match head (pending w ++ pushed w s next) with
               | Some _ => [s]
               | None => []
               end /\
    OwningMachine.installable None w'.
Proof.
  intros Hwf Hact Hlive Hupd Hexit Henter Hinst.
  destruct (Run_call_free_frees states depth Inp w s out next u1 u2 u3
              Hwf Hact Hupd Hexit Henter) as (w' & E & Hact' & Hfreed).
  exists w'.
  rewrite (Run_live states depth depth Inp w s out next u1 u2 u3
             Hwf Hact Hlive Hupd Hexit Henter Hinst).
  split; [exact E|]. split; [exact Hact'|]. split; [exact Hfreed|].
  split; [|intros t Ht; discriminate Ht].
  intros old Hold. unfold active, freed in *. simpl in Hact, Hact'.
  rewrite Hold in Hact'. rewrite Hfreed.
  destruct (head (pending w ++ pushed w s next)) as [h|] eqn:Eh; simpl in Hact'.
  - subst h. destruct (Hinst (Some old) eq_refl) as [_ Hnew].
    destruct (Hnew old eq_refl) as [Hne Hfresh].
    intros Hin. apply in_app_or in Hin as [Hin|[->|[]]]; [done|].
    by rewrite Hact in Hne.
  - injection Hact' as ->. by rewrite app_nil_r.
Qed.

End OwningLifetimes.

(** * A request for the state that is already active *)

Section SameHandle.

Context {Input ReturnType U : Type}.
Variable states : nat -> @IDynamicState Input ReturnType U.

(** C4 (the code departs from it). Only [Run] compares the requested handle
    with the active one: when [Update] returns the active handle and nothing
    is pending it makes no lifecycle call, and with the owning policy it
    deletes nothing.  [StateTransition] has no such test.  With the
    non-owning policy [EnterStateImmediate], and [EnterState] on an idle
    machine, given the active handle call [OnEnter] on that state once
    more.  With the owning policy, the default, they are undefined:
    [SetState] deletes the object it holds, the very object requested, and
    [OnEnter] is called through the dangling pointer. *)
Theorem same_handle_request_reenters (depth : nat) (a : nat)
    (v : @World Input U NonOwningPolicy) (w : @World Input U OwningPolicy) :
  active v = Some a -> active w = Some a ->
  (forall u : U,
     run_member (OnEnter (states a)) (heap v) = Some (tt, u) ->
     (exists v',
        EnterStateImmediate states depth (Some a) v = Some (Some a, v') /\
        active v' = Some a /\
        lifecycle_calls (calls_since v v') = [CbOnEnter a]) /\
     (m_InProgress (fsm v) = false ->
      exists v',
        EnterState states depth (Some a) v = Some (Some a, v') /\
        active v' = Some a /\
        lifecycle_calls (calls_since v v') = [CbOnEnter a])) /\
  OwningMachine.EnterStateImmediate states depth (Some a) w = None /\
  (m_InProgress (fsm w) = false ->
   OwningMachine.EnterState states depth (Some a) w = None) /\
  (forall (Inp : Input) (out : ReturnType) (u1 : U),
     deferred_wf v -> pending v = [] ->
     run_member (Update (states a) Inp) (heap v) = Some ((out, Some a), u1) ->
     exists v',
       Run states depth Inp v = Some (Some out, v') /\
       active v' = Some a /\
       lifecycle_calls (calls_since v v') = []) /\
  (forall (Inp : Input) (out : ReturnType) (u1 : U),
     deferred_wf w -> pending w = [] -> ~ In a (freed w) ->
     run_member (Update (states a) Inp) (heap w) = Some ((out, Some a), u1) ->
     exists w',
       OwningMachine.Run states depth Inp w = Some (Some out, w') /\
       active w' = Some a /\
       lifecycle_calls (calls_since w w') = [] /\
       freed w' = freed w).
Proof.
  intros Hv Hw.
  split; [|split; [|split; [|split]]].
  - intros u Hent. split.
    + destruct (EnterStateImmediate_call_free states depth (Some a) v u Hent)
        as (v' & E & _ & Hact' & _ & _ & Hcalls & _).
      exists v'. split; [done|]. split; [done|].
      by rewrite (calls_since_app v v' _ Hcalls).
    + intros Hidle.
      destruct (EnterState_idle_call_free states depth (Some a) v u Hidle Hent)
        as (v' & E & _ & Hact' & _ & _ & Hcalls & _).
      exists v'. split; [done|]. split; [done|].
      by rewrite (calls_since_app v v' _ Hcalls).
  - apply EnterStateImmediate_undefined. by left.
  - intros Hidle. apply EnterState_undefined; [done | by left].
  - intros Inp out u1 Hwf Hpend Hupd.
    destruct (Run_call_free states depth Inp v a out (Some a) u1 u1 u1)
      as (v' & E & _ & Hact' & _ & _ & _ & Hcalls & _); try done.
    + by rewrite exit_script_same.
    + by rewrite pushed_same, Hpend.
    + rewrite pushed_same, Hpend in *. rewrite exit_calls_same in Hcalls.
      exists v'. split; [done|]. split; [done|].
      by rewrite (calls_since_app v v' _ Hcalls).
  - intros Inp out u1 Hwf Hpend Hlive Hupd.
    assert (Hhead : head (pending w ++ pushed w a (Some a)) = None).
    { by rewrite pushed_same, Hpend. }
    assert (Hexit : run_member (exit_script states a (Some a)) u1 = Some (tt, u1)).
    { by rewrite exit_script_same. }
    assert (Henter : run_member
              (enter_script states
                 (default None (head (pending w ++ pushed w a (Some a))))) u1
              = Some (tt, u1)).
    { by rewrite Hhead. }
    destruct (Run_call_free states depth Inp w a out (Some a) u1 u1 u1
                Hwf Hw Hupd Hexit Henter)
      as (w' & E & _ & Hact' & _ & _ & _ & Hcalls & _).
    destruct (Run_call_free_frees states depth Inp w a out (Some a) u1 u1 u1
                Hwf Hw Hupd Hexit Henter) as (w'' & E' & _ & Hfreed).
    rewrite E in E'. injection E' as <-.
    exists w'.
    rewrite (Run_live states depth depth Inp w a out (Some a) u1 u1 u1
               Hwf Hw Hlive Hupd Hexit Henter).
    + rewrite Hhead in *. rewrite exit_calls_same in Hcalls.
      split; [done|]. split; [done|].
      split; [by rewrite (calls_since_app w w' _ Hcalls)|].
      by rewrite Hfreed, app_nil_r.
    + intros h Hh. rewrite Hhead in Hh. discriminate Hh.
Qed.

End SameHandle.

Lemma same_handle_request_reenters_witness :
  (active Demo.v_A = Some 0%nat /\ active DemoLive.w_A = Some 0%nat) /\
  (forall u : unit,
     run_member (OnEnter (Demo.states 0)) (heap Demo.v_A) = Some (tt, u) ->
     (exists v',
        EnterStateImmediate Demo.states 0 (Some 0%nat) Demo.v_A = Some (Some 0%nat, v') /\
        active v' = Some 0%nat /\
        lifecycle_calls (calls_since Demo.v_A v') = [CbOnEnter 0]) /\
     (m_InProgress (fsm Demo.v_A) = false ->
      exists v',
        EnterState Demo.states 0 (Some 0%nat) Demo.v_A = Some (Some 0%nat, v') /\
        active v' = Some 0%nat /\
        lifecycle_calls (calls_since Demo.v_A v') = [CbOnEnter 0])) /\
  OwningMachine.EnterStateImmediate Demo.states 0 (Some 0%nat) DemoLive.w_A = None /\
  (m_InProgress (fsm DemoLive.w_A) = false ->
   OwningMachine.EnterState Demo.states 0 (Some 0%nat) DemoLive.w_A = None) /\
  (forall (Inp : Z) (out : string) (u1 : unit),
     deferred_wf Demo.v_A -> pending Demo.v_A = [] ->
     run_member (Update (Demo.states 0) Inp) (heap Demo.v_A)
       = Some ((out, Some 0%nat), u1) ->
     exists v',
       Run Demo.states 0 Inp Demo.v_A = Some (Some out, v') /\
       active v' = Some 0%nat /\
       lifecycle_calls (calls_since Demo.v_A v') = []) /\
  (forall (Inp : Z) (out : string) (u1 : unit),
     deferred_wf DemoLive.w_A -> pending DemoLive.w_A = [] ->
     ~ In 0%nat (freed DemoLive.w_A) ->
     run_member (Update (Demo.states 0) Inp) (heap DemoLive.w_A)
       = Some ((out, Some 0%nat), u1) ->
     exists w',
       OwningMachine.Run Demo.states 0 Inp DemoLive.w_A = Some (Some out, w') /\
       active w' = Some 0%nat /\
       lifecycle_calls (calls_since DemoLive.w_A w') = [] /\
       freed w' = freed DemoLive.w_A).
Proof.
  split; [split; vm_compute; reflexivity|].
  apply (same_handle_request_reenters Demo.states 0 0 Demo.v_A DemoLive.w_A);
    vm_compute; reflexivity.
Defined.

(** The two policies on the concrete machine: [EnterState(stateA)] with
    state A active, and the [Run(5)] that stays in state A. *)
Example same_handle_on_the_demo :
  (exists v',
     EnterState Demo.states 0 (Some 0%nat) Demo.v_A = Some (Some 0%nat, v') /\
     map ev_call (calls_since Demo.v_A v') = [CbOnEnter 0]) /\
  OwningMachine.EnterState Demo.states 0 (Some 0%nat) DemoLive.w_A = None /\
  OwningMachine.EnterStateImmediate Demo.states 3 (Some 0%nat) DemoLive.w_A = None /\
  (exists w',
     OwningMachine.Run Demo.states 0 5 DemoLive.w_A = Some (Some "Stay A"%string, w') /\
     map ev_call (calls_since DemoLive.w_A w') = [CbUpdate 0 5] /\
     freed w' = []).
Proof.
  split; [eexists; split; [vm_compute; reflexivity|]; vm_compute; reflexivity|].
  split; [vm_compute; reflexivity|]. split; [vm_compute; reflexivity|].
  eexists. split; [vm_compute; reflexivity|]. split; vm_compute; reflexivity.
Qed.

(** The owning policy with lifetimes checked, on the concrete machine. *)

Ltac live_installable :=
  let h := fresh "h" in
  let Hh := fresh "Hh" in
  intros h Hh; vm_compute in Hh;
  first [ discriminate Hh
        | injection Hh as <-;
          split;
          [ let old := fresh "old" in
            let Ho := fresh "Ho" in
            intros old Ho; vm_compute in Ho; injection Ho as <-;
            vm_compute; tauto
          | let t := fresh "t" in
            let Ht := fresh "Ht" in
            intros t Ht;
            first [ discriminate Ht
                  | injection Ht as <-; vm_compute; split; [discriminate | tauto] ] ] ].

Example DemoLive_runs :
  OwningMachine.Run Demo.states 1 8 DemoLive.w_A
    = Some (Some "Three"%string, DemoLive.w_three) /\
  OwningMachine.Run Demo.states 1 1 DemoLive.w_three
    = Some (Some "Stay"%string, DemoLive.w_four) /\
  freed DemoLive.w_A = [] /\ owned DemoLive.w_A = [0%nat] /\
  freed DemoLive.w_three = [0%nat] /\ owned DemoLive.w_three = [1%nat] /\
  pending DemoLive.w_three = [Some 2%nat; Some 3%nat] /\
  freed DemoLive.w_four = [0%nat; 1%nat] /\ owned DemoLive.w_four = [2%nat] /\
  entered (calls DemoLive.w_four) = [0%nat; 1%nat; 2%nat].
Proof. vm_compute. done. Qed.

(** [Run(7)]: [Update] of state A calls [EnterStateImmediate(1)], which
    deletes state A, and then asks for state 2; the [OnExit] that [Run]
    calls on state A next goes through a dangling pointer. *)
Example DemoLive_nested_immediate_is_undefined :
  OwningMachine.Run Demo.states 1 7 DemoLive.w_A = None /\
  OwningMachine.Run Demo.states 5 7 DemoLive.w_A = None /\
  (exists w', Run Demo.states 1 7 Demo.v_A = Some (Some "Nested"%string, w')).
Proof.
  split; [vm_compute; reflexivity|]. split; [vm_compute; reflexivity|].
  eexists. vm_compute. reflexivity.
Qed.

(** Three calls that each look harmless: [Run(9)], [Run(1)], [Run(1)].  The
    first two return; the third takes state 1 out of the queue while state
    1 is active. *)
Example DemoLive_queued_same_handle_is_undefined :
  OwningMachine.Run Demo.states 1 9 DemoLive.w_A
    = Some (Some "Fill"%string, DemoLive.w_fill) /\
  OwningMachine.Run Demo.states 1 1 DemoLive.w_fill
    = Some (Some "Stay"%string, DemoLive.w_again) /\
  active DemoLive.w_again = Some 1%nat /\
  head (pending DemoLive.w_again) = Some (Some 1%nat) /\
  OwningMachine.Run Demo.states 1 1 DemoLive.w_again = None.
Proof. vm_compute. done. Qed.

Lemma Owning_deleted_are_entered_witness :
  ((exists In r,
      OwningMachine.Run Demo.states 1 In DemoLive.w_A = Some (r, DemoLive.w_three)) \/
   (exists h r,
      OwningMachine.EnterState Demo.states 1 h DemoLive.w_A
        = Some (r, DemoLive.w_three)) \/
   (exists h r,
      OwningMachine.EnterStateImmediate Demo.states 1 h DemoLive.w_A
        = Some (r, DemoLive.w_three))) /\
  freed DemoLive.w_three ++ owned DemoLive.w_three
    = freed DemoLive.w_A ++ owned DemoLive.w_A
      ++ entered (calls_since DemoLive.w_A DemoLive.w_three) /\
  (freed DemoLive.w_A ++ owned DemoLive.w_A = entered (calls DemoLive.w_A) ->
   freed DemoLive.w_three ++ owned DemoLive.w_three
     = entered (calls DemoLive.w_three) /\
   (List.NoDup (entered (calls DemoLive.w_three)) ->
    List.NoDup (freed DemoLive.w_three) /\
    forall s, active DemoLive.w_three = Some s ->
              ~ In s (freed DemoLive.w_three))).
Proof.
  assert (Hop :
    (exists In r,
       OwningMachine.Run Demo.states 1 In DemoLive.w_A = Some (r, DemoLive.w_three)) \/
    (exists h r,
       OwningMachine.EnterState Demo.states 1 h DemoLive.w_A
         = Some (r, DemoLive.w_three)) \/
    (exists h r,
       OwningMachine.EnterStateImmediate Demo.states 1 h DemoLive.w_A
         = Some (r, DemoLive.w_three))).
  { left. exists 8, (Some "Three"%string). vm_compute. reflexivity. }
  split; [exact Hop|].
  apply (Owning_deleted_are_entered Demo.states 1 DemoLive.w_A DemoLive.w_three Hop).
Defined.

Lemma Owning_dangling_handle_is_undefined_witness :
  (active DemoLive.w_again = Some 1%nat \/ In 1%nat (freed DemoLive.w_again)) /\
  OwningMachine.EnterStateImmediate Demo.states 1 (Some 1%nat) DemoLive.w_again = None /\
  (m_InProgress (fsm DemoLive.w_again) = false ->
   OwningMachine.EnterState Demo.states 1 (Some 1%nat) DemoLive.w_again = None) /\
  (forall (Inp : Z) (s : nat) (out : string) (next : Handle) (u1 u2 : unit),
     deferred_wf DemoLive.w_again -> active DemoLive.w_again = Some s ->
     run_member (Update (Demo.states s) Inp) (heap DemoLive.w_again)
       = Some ((out, next), u1) ->
     run_member (exit_script Demo.states s next) u1 = Some (tt, u2) ->
     head (pending DemoLive.w_again ++ pushed DemoLive.w_again s next)
       = Some (Some 1%nat) ->
     OwningMachine.Run Demo.states 1 Inp DemoLive.w_again = None).
Proof.
  split; [left; vm_compute; reflexivity|].
  apply (Owning_dangling_handle_is_undefined Demo.states 1 1 DemoLive.w_again).
  left. vm_compute. reflexivity.
Defined.

Lemma Owning_Run_frees_outgoing_witness :
  (deferred_wf DemoLive.w_A /\ active DemoLive.w_A = Some 0%nat /\
   ~ In 0%nat (freed DemoLive.w_A) /\
   run_member (Update (Demo.states 0) 20) (heap DemoLive.w_A)
     = Some (("To B"%string, Some 1%nat), tt) /\
   run_member (exit_script Demo.states 0 (Some 1%nat)) tt = Some (tt, tt) /\
   run_member
     (enter_script Demo.states
        (default None
           (head (pending DemoLive.w_A ++ pushed DemoLive.w_A 0 (Some 1%nat))))) tt
     = Some (tt, tt) /\
   (forall h,
      head (pending DemoLive.w_A ++ pushed DemoLive.w_A 0 (Some 1%nat)) = Some h ->
      OwningMachine.installable h DemoLive.w_A)) /\
  exists w',
    OwningMachine.Run Demo.states 0 20 DemoLive.w_A = Some (Some "To B"%string, w') /\
    active w' = default (Some 0%nat)
                  (head (pending DemoLive.w_A ++ pushed DemoLive.w_A 0 (Some 1%nat))) /\
    freed w' = freed DemoLive.w_A ++
               match head (pending DemoLive.w_A ++ pushed DemoLive.w_A 0 (Some 1%nat)) with
               | Some _ => [0%nat]
               | None => []
               end /\
    OwningMachine.installable None w'.
Proof.
  assert (Hwf : deferred_wf DemoLive.w_A).
  { unfold deferred_wf, cb_wf; vm_compute.
    split; [reflexivity|]. split; [split; [discriminate|reflexivity]|].
    split; [split; discriminate|reflexivity]. }
  assert (Hlive : ~ In 0%nat (freed DemoLive.w_A)).
  { vm_compute. tauto. }
  assert (Hinst : forall h,
            head (pending DemoLive.w_A ++ pushed DemoLive.w_A 0 (Some 1%nat)) = Some h ->
            OwningMachine.installable h DemoLive.w_A).
  { live_installable. }
  split.
  - split; [exact Hwf|]. split; [vm_compute; reflexivity|]. split; [exact Hlive|].
    split; [vm_compute; reflexivity|]. split; [vm_compute; reflexivity|].
    split; [vm_compute; reflexivity | exact Hinst].
  - apply (Owning_Run_frees_outgoing Demo.states 0 20 DemoLive.w_A 0
             "To B"%string (Some 1%nat) tt tt tt);
      [exact Hwf | vm_compute; reflexivity | exact Hlive | vm_compute; reflexivity
      | vm_compute; reflexivity | vm_compute; reflexivity | exact Hinst].
Defined.
